(** * kwok: snapshot loader and dynamic getter

    A shallow embedding of
    - [pkg/kwokctl/snapshot/load.go]  (the dependency-ordered loader), and
    - [pkg/config/resources/dynamic.go] (the versioned cache),
    together with the properties of these two components.

    Go pointers to [unstructured.Unstructured] are modelled by indices into
    an explicit object store, because the loader keeps the same pointer in
    several pending lists and mutates the object through it.  Everything the
    loader consumes from outside the package (context, REST mapper, dynamic
    client) is an interface over an abstract world state. *)

From stdpp Require Import gmap strings list fin_maps pretty.

(* ===================================================================== *)
(** * The snapshot loader: data model *)
(* ===================================================================== *)

(** [metav1.OwnerReference], restricted to the fields the loader reads. *)
Record OwnerReference := mkOwnerReference {
  refAPIVersion : string;
  refKind       : string;
  refName       : string;
  refUID        : string;
}.

(** [unstructured.Unstructured]: the accessors the loader calls, plus the
    remaining server-managed metadata and the payload. *)
Record Unstructured := mkUnstructured {
  GetAPIVersion      : string;
  GetKind            : string;
  GetNamespace       : string;
  GetName            : string;
  GetUID             : string;
  GetOwnerReferences : list OwnerReference;
  GetResourceVersion : string;
  GetPayload         : string;
}.

(** [obj.SetOwnerReferences(refs)] *)
Definition SetOwnerReferences (refs : list OwnerReference) (o : Unstructured)
  : Unstructured :=
  {| GetAPIVersion := GetAPIVersion o; GetKind := GetKind o;
     GetNamespace := GetNamespace o; GetName := GetName o;
     GetUID := GetUID o; GetOwnerReferences := refs;
     GetResourceVersion := GetResourceVersion o;
     GetPayload := GetPayload o |}.

(** [type uniqueKey struct] *)
Record uniqueKey := mkUniqueKey {
  keyAPIVersion : string;
  keyKind       : string;
  keyName       : string;
  keyUID        : string;
}.

Global Instance OwnerReference_eq_dec : EqDecision OwnerReference.
Proof. solve_decision. Defined.

Global Instance Unstructured_eq_dec : EqDecision Unstructured.
Proof. solve_decision. Defined.

Global Instance uniqueKey_eq_dec : EqDecision uniqueKey.
Proof. solve_decision. Defined.

Global Instance uniqueKey_countable : Countable uniqueKey.
Proof.
  refine (inj_countable'
    (fun k => (keyAPIVersion k, keyKind k, keyName k, keyUID k))
    (fun t => match t with (a, b, c, d) => mkUniqueKey a b c d end) _).
  by intros [].
Defined.

(** [schema.GroupKind], [schema.GroupVersion] and
    [schema.GroupVersionResource]. *)
Record GroupKind := mkGroupKind { gkGroup : string; gkKind : string }.
Record GroupVersion := mkGroupVersion { gvGroup : string; gvVersion : string }.
Record GroupVersionResource := mkGVR {
  gvrGroup : string; gvrVersion : string; gvrResource : string }.
(** [schema.GroupVersionKind] *)
Record GroupVersionKind := mkGVK {
  gvkGroup : string; gvkVersion : string; gvkKind : string }.

Global Instance GroupKind_eq_dec : EqDecision GroupKind.
Proof. solve_decision. Defined.

Global Instance GroupKind_countable : Countable GroupKind.
Proof.
  refine (inj_countable' (fun g => (gkGroup g, gkKind g))
            (fun t => mkGroupKind t.1 t.2) _).
  by intros [].
Defined.

Global Instance GroupVersionResource_eq_dec : EqDecision GroupVersionResource.
Proof. solve_decision. Defined.

(** [func uniqueKeyFromOwnerReference] *)
Definition uniqueKeyFromOwnerReference (r : OwnerReference) : uniqueKey :=
  {| keyAPIVersion := refAPIVersion r; keyKind := refKind r;
     keyName := refName r; keyUID := refUID r |}.

(** [func uniqueKeyFromMetadata] *)
Definition uniqueKeyFromMetadata (o : Unstructured) : uniqueKey :=
  {| keyAPIVersion := GetAPIVersion o; keyKind := GetKind o;
     keyName := GetName o; keyUID := GetUID o |}.

(** The three error kinds the loader tells apart with
    [apierrors.IsAlreadyExists] and [apierrors.IsConflict]. *)
Inductive APIError := ErrAlreadyExists | ErrConflict | ErrOther.

Definition IsAlreadyExists (e : APIError) : bool :=
  match e with ErrAlreadyExists => true | _ => false end.

Definition IsConflict (e : APIError) : bool :=
  match e with ErrConflict => true | _ => false end.

(** A pointer [*unstructured.Unstructured]: an index into the object store. *)
Abbreviation ptr := nat (only parsing).

(** What the loader tells the outside: the calls it makes on the write
    client (with what the client answered), and the diagnostics it logs.
    Each entry carries the pointer of the object it is about. *)
Inductive Event :=
  | CallCreate (p : ptr) (gvr : GroupVersionResource) (ns : string)
               (obj : Unstructured) (res : Unstructured + APIError)
  | CallUpdate (p : ptr) (gvr : GroupVersionResource) (ns : string)
               (obj : Unstructured) (res : Unstructured + APIError)
  | LogSkippedFiltered (p : ptr)
  | LogSkippedMissingOwner (p : ptr)
  | LogCreated (p : ptr)
  | LogUpdated (p : ptr)
  | LogConflict (p : ptr)
  | LogFailedGetResource (p : ptr)
  | LogFailedCreate (p : ptr)
  | LogFailedUpdate (p : ptr).

Global Instance APIError_eq_dec : EqDecision APIError.
Proof. solve_decision. Defined.

Global Instance Event_eq_dec : EqDecision Event.
Proof. solve_decision. Defined.

(** The call an entry of the trace records, if it is one: the object it is
    about, the object as it was passed to the write client, and the answer. *)
Definition callOf (e : Event)
  : option (ptr * Unstructured * (Unstructured + APIError)) :=
  match e with
  | CallCreate p _ _ obj res | CallUpdate p _ _ obj res => Some (p, obj, res)
  | _ => None
  end.

(** [p] was passed to the write client somewhere in the trace. *)
Definition submitted (p : ptr) (tr : list Event) : Prop :=
  ∃ e obj res, e ∈ tr ∧ callOf e = Some (p, obj, res).

(** How many times the trace reports [p] as skipped for a missing owner. *)
Definition reports (p : ptr) (tr : list Event) : nat :=
  length (base.filter (fun e => e = LogSkippedMissingOwner p) tr).

(** A create or update of [p], submitted as [obj], succeeded in the trace
    and returned an object with uid [u]. *)
Definition succeeded (p : ptr) (obj : Unstructured) (u : string)
    (tr : list Event) : Prop :=
  ∃ e newObj, e ∈ tr ∧ callOf e = Some (p, obj, inl newObj) ∧ u = GetUID newObj.

(** The errors [Load] can return. *)
Inductive LoadError :=
  | ErrContext          (* ctx.Err() *)
  | ErrMalformed        (* the decoder could not read a document *)
  | ErrFailedToDecode (cause : LoadError).  (* "failed to decode objects: %w" *)

(** One document of the input stream. *)
Inductive Document :=
  | DocObject (o : Unstructured)
  | DocMalformed.

(** The collaborators of the loader that live outside the package.  [W] is
    the state of the outside world (target cluster, discovery data, the
    context); every call may change it. *)
Class External (W : Type) := {
  (** [ctx.Err() != nil] *)
  ctxErr : W -> W * bool;
  (** [schema.ParseGroupVersion] as used by [obj.GroupVersionKind()];
      [None] is an error *)
  parseGroupVersion : string -> option GroupVersion;
  (** [restMapper.ResourceFor]; [None] is an error *)
  ResourceFor : W -> GroupVersionResource -> W * option GroupVersionResource;
  (** [ri.Create], on the namespace [ns] ([ns = ""]: not namespaced) *)
  Create : W -> GroupVersionResource -> string -> Unstructured ->
           W * (Unstructured + APIError);
  (** [ri.Update] *)
  Update : W -> GroupVersionResource -> string -> Unstructured ->
           W * (Unstructured + APIError);
  (** [clearUnstructured], a helper of the package defined outside
      [load.go]. *)
  clearUnstructured : Unstructured -> Unstructured;
}.

(** [type loader struct], with the object store its pointers refer to, the
    world behind [restMapper] and [dynClient], and the trace of calls and
    diagnostics. *)
Record loader (W : Type) := mkLoader {
  filterMap : gset GroupKind;
  exist     : gmap uniqueKey string;
  pending   : gmap uniqueKey (list ptr);
  objects   : list Unstructured;
  world     : W;
  trace     : list Event;
}.
Arguments mkLoader {W}.
Arguments filterMap {W}.
Arguments exist {W}.
Arguments pending {W}.
Arguments objects {W}.
Arguments world {W}.
Arguments trace {W}.

(** The nil object: what a dangling pointer would read as.  Pointers handed
    out by the decoder are never dangling. *)
Definition nilObject : Unstructured := mkUnstructured "" "" "" "" "" [] "" "".

Section Loader.
Context {W : Type} `{External W}.

Definition deref (l : loader W) (p : ptr) : Unstructured :=
  default nilObject (objects l !! p).

(** [*p = o] *)
Definition assign (p : ptr) (o : Unstructured) (l : loader W) : loader W :=
  mkLoader (filterMap l) (exist l) (pending l) (<[p := o]> (objects l))
           (world l) (trace l).

Definition setExist (ex : gmap uniqueKey string) (l : loader W) : loader W :=
  mkLoader (filterMap l) ex (pending l) (objects l) (world l) (trace l).

Definition setPending (pd : gmap uniqueKey (list ptr)) (l : loader W)
  : loader W :=
  mkLoader (filterMap l) (exist l) pd (objects l) (world l) (trace l).

Definition setWorld (w : W) (l : loader W) : loader W :=
  mkLoader (filterMap l) (exist l) (pending l) (objects l) w (trace l).

(** Append one entry to the trace. *)
Definition emit (e : Event) (l : loader W) : loader W :=
  mkLoader (filterMap l) (exist l) (pending l) (objects l) (world l)
           (trace l ++ [e]).

(** [obj.GroupVersionKind()]: the group and version parsed from the API
    version with the kind of the object, and the zero value (no group, no
    version, no kind) when the API version does not parse. *)
Definition objGVK (o : Unstructured) : GroupVersionKind :=
  match parseGroupVersion (GetAPIVersion o) with
  | None => mkGVK "" "" ""
  | Some gv => mkGVK (gvGroup gv) (gvVersion gv) (GetKind o)
  end.

(** [obj.GroupVersionKind().GroupKind()] *)
Definition objGroupKind (o : Unstructured) : GroupKind :=
  let gvk := objGVK o in
  mkGroupKind (gvkGroup gvk) (gvkKind gvk).

(** [obj.GroupVersionKind().GroupVersion().WithResource(obj.GetKind())] *)
Definition objGVR (o : Unstructured) : GroupVersionResource :=
  let gvk := objGVK o in
  mkGVR (gvkGroup gvk) (gvkVersion gvk) (GetKind o).

(** [func (l *loader) filter] *)
Definition filter (l : loader W) (p : ptr) : bool :=
  bool_decide (objGroupKind (deref l p) ∈ filterMap l).

(** [_, ok := l.exist[key]] *)
Definition known (ex : gmap uniqueKey string) (r : OwnerReference) : bool :=
  bool_decide (is_Some (ex !! uniqueKeyFromOwnerReference r)).

(** [func (l *loader) hasAllOwnerReferences] *)
Definition hasAllOwnerReferences (l : loader W) (p : ptr) : bool :=
  let ownerReferences := GetOwnerReferences (deref l p) in
  match ownerReferences with
  | [] => true
  | _ => forallb (known (exist l)) ownerReferences
  end.

(** The body of the loop of [updateOwnerReferences]. *)
Definition rewriteOwner (ex : gmap uniqueKey string) (r : OwnerReference)
  : OwnerReference :=
  match ex !! uniqueKeyFromOwnerReference r with
  | Some uid => mkOwnerReference (refAPIVersion r) (refKind r) (refName r) uid
  | None => r
  end.

(** [func (l *loader) updateOwnerReferences] *)
Definition updateOwnerReferences (l : loader W) (p : ptr) : loader W :=
  let ownerReferences := GetOwnerReferences (deref l p) in
  match ownerReferences with
  | [] => l
  | _ => assign p (SetOwnerReferences (rewriteOwner (exist l) <$> ownerReferences)
                                      (deref l p)) l
  end.

(** [func (l *loader) apply]; [None] is the nil result. *)
Definition apply (l : loader W) (p : ptr) : loader W * option Unstructured :=
  let gvr := objGVR (deref l p) in
  let '(w1, mapped) := ResourceFor (world l) gvr in
  let l := setWorld w1 l in
  match mapped with
  | None => (emit (LogFailedGetResource p) l, None)
  | Some gvr =>
    let l := assign p (clearUnstructured (deref l p)) l in
    let obj := deref l p in
    let ns := GetNamespace obj in
    let '(w2, created) := Create (world l) gvr ns obj in
    let l := setWorld w2 (emit (CallCreate p gvr ns obj created) l) in
    match created with
    | inl newObj => (emit (LogCreated p) l, Some newObj)
    | inr err =>
      if negb (IsAlreadyExists err) then (emit (LogFailedCreate p) l, None)
      else
        let '(w3, updated) := Update (world l) gvr ns obj in
        let l := setWorld w3 (emit (CallUpdate p gvr ns obj updated) l) in
        match updated with
        | inl newObj => (emit (LogUpdated p) l, Some newObj)
        | inr err =>
          if IsConflict err then (emit (LogConflict p) l, None)
          else (emit (LogFailedUpdate p) l, None)
        end
    end
  end.

(** [l.pending[key] = append(l.pending[key], obj)] *)
Definition enqueue (key : uniqueKey) (p : ptr)
    (pd : gmap uniqueKey (list ptr)) : gmap uniqueKey (list ptr) :=
  <[key := default [] (pd !! key) ++ [p]]> pd.

(** The first loop of [load]: returns [allExist] and the new pending
    queue. *)
Definition checkOwners (ex : gmap uniqueKey string) (p : ptr)
    (ownerReferences : list OwnerReference)
    (pd : gmap uniqueKey (list ptr)) : bool * gmap uniqueKey (list ptr) :=
  foldl (fun acc ownerReference =>
           let key := uniqueKeyFromOwnerReference ownerReference in
           match ex !! key with
           | Some _ => acc
           | None => (false, enqueue key p acc.2)
           end)
        (true, pd) ownerReferences.

(** Apply [p] and, if that succeeded, record the uid it was given:
    [newObj := l.apply(ctx, obj); if newObj != nil { l.exist[key] = ... }].
    The key is read from the object after [apply] has worked on it. *)
Definition applyAndRecord (l : loader W) (p : ptr) : loader W * bool :=
  let '(l, newObj) := apply l p in
  match newObj with
  | None => (l, false)
  | Some newObj =>
    let key := uniqueKeyFromMetadata (deref l p) in
    (setExist (<[key := GetUID newObj]> (exist l)) l, true)
  end.

(** The body of the second loop of [load], for one pending object. *)
Definition cascadeStep (l : loader W) (pendingObj : ptr) : loader W :=
  if (length (GetOwnerReferences (deref l pendingObj)) =? 1)
     || hasAllOwnerReferences l pendingObj
  then (applyAndRecord (updateOwnerReferences l pendingObj) pendingObj).1
  else l.

(** The end of [load]: the pending objects waiting for [key] are tried in
    turn, then the entry of [key] is deleted. *)
Definition cascade (l : loader W) (key : uniqueKey) : loader W :=
  match pending l !! key with
  | Some pendingObjs =>
    let l := foldl cascadeStep l pendingObjs in
    setPending (delete key (pending l)) l
  | None => l
  end.

(** [func (l *loader) load] *)
Definition load (l : loader W) (p : ptr) : loader W :=
  let ownerReferences := GetOwnerReferences (deref l p) in
  let '(allExist, pd) :=
    match ownerReferences with
    | [] => (true, pending l)
    | _ => checkOwners (exist l) p ownerReferences (pending l)
    end in
  let l := setPending pd l in
  if negb allExist then l
  else
    let l := match ownerReferences with
             | [] => l
             | _ => updateOwnerReferences l p
             end in
    let '(l, ok) := applyAndRecord l p in
    if negb ok then l
    else
      cascade l (uniqueKeyFromMetadata (deref l p)).

(** The callback [Load] hands to the decoder, for the freshly decoded
    object at [p]. *)
Definition visit (l : loader W) (p : ptr) : loader W * option LoadError :=
  let '(w, cancelled) := ctxErr (world l) in
  let l := setWorld w l in
  if cancelled then (l, Some ErrContext)
  else if negb (filter l p) then (emit (LogSkippedFiltered p) l, None)
  else (load l p, None).

(** The decoder makes a new object; its pointer is the next free index
    of the object store. *)
Definition allocate (o : Unstructured) (l : loader W) : loader W :=
  mkLoader (filterMap l) (exist l) (pending l) (objects l ++ [o])
           (world l) (trace l).

(** Modelled from the spec: [yaml.Decoder.Decode] of
    [sigs.k8s.io/kwok/pkg/utils/yaml] is not part of the sources.  It
    decodes one object per document, in stream order, hands each to the
    callback, and stops with an error at the first malformed document or
    the first error of the callback. *)
Fixpoint Decode (docs : list Document) (l : loader W)
  : loader W * option LoadError :=
  match docs with
  | [] => (l, None)
  | DocMalformed :: _ => (l, Some ErrMalformed)
  | DocObject o :: docs =>
    let p := length (objects l) in
    let l := allocate o l in
    match visit l p with
    | (l, Some err) => (l, Some err)
    | (l, None) => Decode docs l
    end
  end.

(** The objects still pending, in the order the final loop of [Load]
    meets them.  Go iterates a map in an unspecified order; the order of
    [map_to_list] stands for it, and no property below depends on it. *)
Definition skipped (pd : gmap uniqueKey (list ptr)) : list ptr :=
  concat ((map_to_list pd).*2).

(** [func (l *loader) Load] *)
Definition Load (l : loader W) (r : list Document)
  : loader W * option LoadError :=
  match Decode r l with
  | (l, Some err) => (l, Some (ErrFailedToDecode err))
  | (l, None) =>
    (foldl (fun l pendingObj => emit (LogSkippedMissingOwner pendingObj) l)
           l (skipped (pending l)),
     None)
  end.

(** The loader [newLoader] returns, for the filter set built from the
    requested resources. *)
Definition newLoader (fm : gset GroupKind) (w : W) : loader W :=
  mkLoader fm ∅ ∅ [] w [].

End Loader.

(* ===================================================================== *)
(** * The snapshot loader: invariants *)
(* ===================================================================== *)

Section LoaderInvariants.
Context {W : Type} `{External W}.

(** Every owner reference of [o] is a key of the map. *)
Definition allKnown (ex : gmap uniqueKey string) (o : Unstructured) : Prop :=
  ∀ r, r ∈ GetOwnerReferences o ->
       is_Some (ex !! uniqueKeyFromOwnerReference r).

(** What the loader may have done to a decoded object: rewritten its
    owner references and cleared it, any number of times. *)
Inductive reworked (o : Unstructured) : Unstructured -> Prop :=
  | reworked_refl : reworked o o
  | reworked_owners o' refs :
      reworked o o' -> reworked o (SetOwnerReferences refs o')
  | reworked_clear o' :
      reworked o o' -> reworked o (clearUnstructured o').

(** [l'] comes from [l] by work on the object at [p] alone: the pending
    queue is untouched, other objects are untouched, the calls made are
    calls for [p], and every key of [exist] that is new or has a new
    value comes from a successful call. *)
Definition touches (p : ptr) (l l' : loader W) : Prop :=
  filterMap l' = filterMap l ∧
  pending l' = pending l ∧
  length (objects l') = length (objects l) ∧
  (∀ q, q ≠ p -> objects l' !! q = objects l !! q) ∧
  reworked (deref l p) (deref l' p) ∧
  ∃ new, trace l' = trace l ++ new ∧
    (∀ e q obj res, e ∈ new -> callOf e = Some (q, obj, res) ->
       q = p ∧ reworked (deref l p) obj) ∧
    (∀ k, is_Some (exist l !! k) -> is_Some (exist l' !! k)) ∧
    (∀ k u, exist l' !! k = Some u ->
       exist l !! k = Some u ∨
       ∃ obj, succeeded p obj u new ∧ k = uniqueKeyFromMetadata obj).

(** The object [q] may be queued under [key]: it passed the filter and
    one of its owner references has this key. *)
Definition waitsFor (fm : gset GroupKind) (origs : list Unstructured)
    (key : uniqueKey) (q : ptr) : Prop :=
  ∃ o, origs !! q = Some o ∧ objGroupKind o ∈ fm ∧
       ∃ r, r ∈ GetOwnerReferences o ∧ uniqueKeyFromOwnerReference r = key.

(** The invariant of a load, for the filter set [fm] and the objects
    [origs] decoded so far (the object of pointer [p] is [origs !! p]). *)
Record wellFormed (fm : gset GroupKind) (origs : list Unstructured)
    (l : loader W) : Prop := {
  wf_filter : filterMap l = fm;
  wf_length : length (objects l) = length origs;
  (** an object is reworked only once all its owners are known *)
  wf_objects : ∀ p o, origs !! p = Some o ->
    ∃ o', objects l !! p = Some o' ∧ reworked o o' ∧
          (o' = o ∨ allKnown (exist l) o);
  (** only filtered-in objects with known owners are submitted *)
  wf_calls : ∀ e p obj res, e ∈ trace l -> callOf e = Some (p, obj, res) ->
    ∃ o, origs !! p = Some o ∧ objGroupKind o ∈ fm ∧
         allKnown (exist l) o ∧ reworked o obj;
  (** an object is queued only under the keys of its own owners *)
  wf_pending : ∀ k ps p, pending l !! k = Some ps -> p ∈ ps ->
    waitsFor fm origs k p;
  (** every entry of [exist] comes from a successful call *)
  wf_exist : ∀ k u, exist l !! k = Some u ->
    ∃ p obj, succeeded p obj u (trace l) ∧ k = uniqueKeyFromMetadata obj;
}.

(** How many times [p] is in a pending list, and how many owner references
    of [o] have the key [k]. *)
Definition occurrences (p : ptr) (ps : list ptr) : nat :=
  length (base.filter (fun q => q = p) ps).

Definition refsWithKey (k : uniqueKey) (o : Unstructured) : nat :=
  length (base.filter (fun r => uniqueKeyFromOwnerReference r = k)
                      (GetOwnerReferences o)).

(** An object is queued under a key at most once per owner reference with
    that key. *)
Definition bounded (origs : list Unstructured) (l : loader W) : Prop :=
  ∀ k p, occurrences p (default [] (pending l !! k))
         ≤ from_option (refsWithKey k) 0 (origs !! p).

(** Every owner reference of a filtered-in object is known or has the
    object queued under its key. *)
Definition accounted (fm : gset GroupKind) (origs : list Unstructured)
    (l : loader W) : Prop :=
  ∀ p o r, origs !! p = Some o -> objGroupKind o ∈ fm ->
    r ∈ GetOwnerReferences o ->
    is_Some (exist l !! uniqueKeyFromOwnerReference r) ∨
    ∃ ps, pending l !! uniqueKeyFromOwnerReference r = Some ps ∧ p ∈ ps.

(** The stronger reading of the report: an object [p] of the stream
    that passes the filter and has an owner reference whose key is never
    in [exist] is not submitted and is reported exactly once. *)
Definition reportedExactlyOnce (fm : gset GroupKind) (w : W)
    (docs : list Document) : Prop :=
  ∀ (l : loader W) p o r,
    Load (newLoader fm w) docs = (l, None) ->
    omap (fun d => match d with DocObject o => Some o | DocMalformed => None end)
         docs !! p = Some o ->
    objGroupKind o ∈ fm ->
    r ∈ GetOwnerReferences o ->
    exist l !! uniqueKeyFromOwnerReference r = None ->
    ¬ submitted p (trace l) ∧ reports p (trace l) = 1.

(** The objects of a stream, in order. *)
Definition objectsOf (docs : list Document) : list Unstructured :=
  omap (fun d => match d with DocObject o => Some o | DocMalformed => None end)
       docs.

Definition wellFormedDoc (d : Document) : Prop :=
  match d with DocObject _ => True | DocMalformed => False end.

End LoaderInvariants.

(* ===================================================================== *)
(** * A fake cluster, to run the loader on *)
(* ===================================================================== *)

Module Fake.

(** What the fake API server keeps per object: where it lives and the uid
    it was given. *)
Record entry := mkEntry {
  eResource : string; eNamespace : string; eName : string; eUID : string }.

Record cluster := mkCluster {
  entries   : list entry;
  unknown   : list string;   (* kinds the REST mapper does not know *)
  rejected  : list string;   (* names every write of which fails *)
  contended : list string;   (* names every update of which conflicts *)
  budget    : option nat;    (* context checks left before cancellation *)
}.

Definition find (c : cluster) (res ns name : string) : option entry :=
  List.find (fun e => bool_decide (eResource e = res ∧ eNamespace e = ns
                                   ∧ eName e = name)) (entries c).

Definition withEntries (es : list entry) (c : cluster) : cluster :=
  mkCluster es (unknown c) (rejected c) (contended c) (budget c).

Definition withUID (uid : string) (o : Unstructured) : Unstructured :=
  mkUnstructured (GetAPIVersion o) (GetKind o) (GetNamespace o) (GetName o)
                 uid (GetOwnerReferences o) "1" (GetPayload o).

(** The n-th uid the server hands out. *)
Definition freshUID (n : nat) : string := "uid-" +:+ pretty n.

Definition fakeCtxErr (c : cluster) : cluster * bool :=
  match budget c with
  | None => (c, false)
  | Some 0 => (c, true)
  | Some (S n) =>
    (mkCluster (entries c) (unknown c) (rejected c) (contended c) (Some n),
     false)
  end.

Fixpoint splitSlash (s : string) : option (string * string) :=
  match s with
  | EmptyString => None
  | String a s' =>
    if Ascii.eqb a (Ascii.ascii_of_nat 47) then Some (EmptyString, s')
    else match splitSlash s' with
         | Some (g, v) => Some (String a g, v)
         | None => None
         end
  end.

(** As [schema.ParseGroupVersion] does: no slash is a version of the core
    group, one slash separates group and version, more is an error. *)
Definition fakeParse (s : string) : option GroupVersion :=
  match splitSlash s with
  | Some (g, v) =>
    match splitSlash v with
    | Some _ => None
    | None => Some (mkGroupVersion g v)
    end
  | None => Some (mkGroupVersion "" s)
  end.

Definition fakeResourceFor (c : cluster) (gvr : GroupVersionResource)
  : cluster * option GroupVersionResource :=
  if bool_decide (gvrResource gvr ∈ unknown c) then (c, None)
  else (c, Some gvr).

Definition fakeCreate (c : cluster) (gvr : GroupVersionResource)
    (ns : string) (o : Unstructured) : cluster * (Unstructured + APIError) :=
  if bool_decide (GetName o ∈ rejected c) then (c, inr ErrOther)
  else match find c (gvrResource gvr) ns (GetName o) with
       | Some _ => (c, inr ErrAlreadyExists)
       | None =>
         let uid := freshUID (length (entries c)) in
         (withEntries (entries c ++ [mkEntry (gvrResource gvr) ns (GetName o) uid]) c,
          inl (withUID uid o))
       end.

Definition fakeUpdate (c : cluster) (gvr : GroupVersionResource)
    (ns : string) (o : Unstructured) : cluster * (Unstructured + APIError) :=
  if bool_decide (GetName o ∈ contended c) then (c, inr ErrConflict)
  else match find c (gvrResource gvr) ns (GetName o) with
       | Some e => (c, inl (withUID (eUID e) o))
       | None => (c, inr ErrOther)
       end.

(** A [clearUnstructured] that resets the resource version and leaves the
    rest of the object alone. *)
Definition fakeClear (o : Unstructured) : Unstructured :=
  mkUnstructured (GetAPIVersion o) (GetKind o) (GetNamespace o) (GetName o)
                 (GetUID o) (GetOwnerReferences o) "" (GetPayload o).

#[export] Instance fakeExternal : External cluster := {|
  ctxErr := fakeCtxErr;
  parseGroupVersion := fakeParse;
  ResourceFor := fakeResourceFor;
  Create := fakeCreate;
  Update := fakeUpdate;
  clearUnstructured := fakeClear;
|}.

Definition emptyCluster : cluster := mkCluster [] [] [] [] None.

(** A [clearUnstructured] that resets the uid as well, and the same fake
    cluster with it. *)
Definition strictClear (o : Unstructured) : Unstructured :=
  mkUnstructured (GetAPIVersion o) (GetKind o) (GetNamespace o) (GetName o)
                 "" (GetOwnerReferences o) "" (GetPayload o).

Definition strictExternal : External cluster := {|
  ctxErr := fakeCtxErr;
  parseGroupVersion := fakeParse;
  ResourceFor := fakeResourceFor;
  Create := fakeCreate;
  Update := fakeUpdate;
  clearUnstructured := strictClear;
|}.

(** Three objects in an owner chain: [objA] has no owner, [objB] is owned
    by [objA], [objC] by [objB]. *)
Definition ownerRefTo (o : Unstructured) : OwnerReference :=
  mkOwnerReference (GetAPIVersion o) (GetKind o) (GetName o) (GetUID o).

Definition objA : Unstructured :=
  mkUnstructured "apps/v1" "Deployment" "default" "a" "origin-a" [] "10" "".
Definition objB : Unstructured :=
  mkUnstructured "apps/v1" "ReplicaSet" "default" "b" "origin-b"
                 [ownerRefTo objA] "11" "".
Definition objC : Unstructured :=
  mkUnstructured "v1" "Pod" "default" "c" "origin-c" [ownerRefTo objB] "12" "".

Definition allKinds : gset GroupKind :=
  {[ mkGroupKind "apps" "Deployment"; mkGroupKind "apps" "ReplicaSet";
     mkGroupKind "" "Pod" ]}.

(** The stream of the dependency-ordering scenario: [objC], [objB],
    [objA]. *)
Definition reverseChain : list Document :=
  [DocObject objC; DocObject objB; DocObject objA].

(** [objB] as the loader submits it once [objA] has been given the first
    uid of the cluster. *)
Definition objB' : Unstructured :=
  mkUnstructured "apps/v1" "ReplicaSet" "default" "b" "origin-b"
    [mkOwnerReference "apps/v1" "Deployment" "a" "uid-0"] "" "".

(** Two owners that are in no stream, and a pod that names both. *)
Definition refX : OwnerReference :=
  mkOwnerReference "apps/v1" "ReplicaSet" "x" "origin-x".
Definition refY : OwnerReference :=
  mkOwnerReference "apps/v1" "ReplicaSet" "y" "origin-y".
Definition objD : Unstructured :=
  mkUnstructured "v1" "Pod" "default" "d" "origin-d" [refX; refY] "13" "".

(** A pod owned by [objA] and by the absent [refX]. *)
Definition objE : Unstructured :=
  mkUnstructured "v1" "Pod" "default" "e" "origin-e"
                 [ownerRefTo objA; refX] "14" "".

(** A secret (a kind outside [allKinds]) owned by [objA]. *)
Definition objS : Unstructured :=
  mkUnstructured "v1" "Secret" "default" "s" "origin-s"
                 [ownerRefTo objA] "15" "".

(** A loader in the middle of [load]: [objA] has just been applied and
    recorded, [objE] waits under its key. *)
Definition midCascade : loader cluster :=
  mkLoader allKinds
           {[ uniqueKeyFromMetadata objA := "uid-0" ]}
           {[ uniqueKeyFromMetadata objA := [0];
              uniqueKeyFromOwnerReference refX := [0] ]}
           [objE; fakeClear objA] emptyCluster [].

End Fake.


(* ===================================================================== *)
(** * The dynamic getter *)
(* ===================================================================== *)

Section DynamicGetter.
Context {O T : Type}.

(** What [Get] reads from the informer: [c.controller] and [c.store].
    The informer is fed by a goroutine of its own. *)
Record informer := mkInformer {
  LastSyncResourceVersion : string;
  List : list T;
}.

(** [type dynamicGetter struct]: the fields guarded by [mut], and the
    number of times [convertFunc] has run so far. *)
Record dynamicGetter := mkGetter {
  currentVer  : string;
  data        : O;
  conversions : nat;
}.

Variable convertFunc : list T -> O.

(** The read-locked section of [Get]: [Some data] is the early return,
    [None] falls through to [updateAndReturn]. *)
Definition readLocked (c : dynamicGetter) (latestVer : string) : option O :=
  if decide (latestVer = currentVer c) then Some (data c) else None.

(** [func (c *dynamicGetter) updateAndReturn]: one write-locked section. *)
Definition updateAndReturn (c : dynamicGetter) (feed : informer)
    (latestVer : string) : dynamicGetter * O :=
  if decide (latestVer = currentVer c) then (c, data c)
  else
    let currentList := List feed in
    let data := convertFunc currentList in
    (mkGetter latestVer data (S (conversions c)), data).

(** [func (c *dynamicGetter) Get], for one caller.  Between the read
    lock and the write lock other goroutines may run: [before] is the
    informer when the version is read, [between] is what the other
    callers do to the getter after [RUnlock] and before [Lock], [after]
    is the informer when the store is listed. *)
Definition Get (c : dynamicGetter) (before : informer)
    (between : dynamicGetter -> dynamicGetter) (after : informer)
  : dynamicGetter * O :=
  let latestVer := LastSyncResourceVersion before in
  match readLocked c latestVer with
  | Some data => (c, data)
  | None => updateAndReturn (between c) after latestVer
  end.

(** ** Concurrent callers

    Where one call of [Get] stands: before reading the version, before
    the read-locked section, before the write-locked section, or
    returned. *)
Inductive call :=
  | Entered
  | AtRLock (latestVer : string)
  | AtLock (latestVer : string)
  | Returned (result : O).

Definition returned (k : call) : bool :=
  match k with Returned _ => true | _ => false end.

Record system := mkSystem {
  getter : dynamicGetter;
  feed   : informer;
  calls  : list call;
}.

(** One atomic action: the informer moves on, or caller [i] runs up to
    its next lock operation. *)
Inductive action :=
  | Feed (next : informer)
  | Run (i : nat).

Definition step (s : system) (a : action) : system :=
  match a with
  | Feed next => mkSystem (getter s) next (calls s)
  | Run i =>
    match calls s !! i with
    | Some Entered =>
      mkSystem (getter s) (feed s)
               (<[i := AtRLock (LastSyncResourceVersion (feed s))]> (calls s))
    | Some (AtRLock latestVer) =>
      match readLocked (getter s) latestVer with
      | Some d => mkSystem (getter s) (feed s) (<[i := Returned d]> (calls s))
      | None => mkSystem (getter s) (feed s) (<[i := AtLock latestVer]> (calls s))
      end
    | Some (AtLock latestVer) =>
      let '(c, d) := updateAndReturn (getter s) (feed s) latestVer in
      mkSystem c (feed s) (<[i := Returned d]> (calls s))
    | Some (Returned _) | None => s
    end
  end.

(** Run a schedule. *)
Definition run (s : system) (schedule : list action) : system :=
  foldl step s schedule.

(** [n] callers enter [Get] on getter [c]. *)
Definition enter (c : dynamicGetter) (inf : informer) (n : nat) : system :=
  mkSystem c inf (replicate n Entered).

(** The informer shows version [v] throughout the schedule. *)
Definition steady (v : string) (schedule : list action) : Prop :=
  Forall (fun a => match a with
                   | Feed next => LastSyncResourceVersion next = v
                   | Run _ => True
                   end) schedule.

(** ** The invariant of a steady schedule *)

(** Every caller that has read a version has read [v]. *)
Definition readOnly (v : string) (k : call) : Prop :=
  match k with
  | AtRLock u | AtLock u => u = v
  | _ => True
  end.

(** Starting from a getter with counter [n0] and a version other than [v]:
    either nothing was converted yet and nobody has returned, or exactly
    one conversion has run and the getter is at [v]. *)
Definition steadyInv (v : string) (v0 : string) (n0 : nat)
    (s : system) : Prop :=
  LastSyncResourceVersion (feed s) = v ∧
  Forall (readOnly v) (calls s) ∧
  ((currentVer (getter s) = v0 ∧ conversions (getter s) = n0 ∧
    Forall (fun k => returned k = false) (calls s))
   ∨ (currentVer (getter s) = v ∧ conversions (getter s) = S n0)).

End DynamicGetter.

Arguments informer : clear implicits.
Arguments dynamicGetter : clear implicits.
Arguments call : clear implicits.
Arguments system : clear implicits.
Arguments action : clear implicits.

(** A getter over a list of numbers whose derived value is their sum,
    computed under version 1, and an informer that has moved on to
    version 2. *)
Module FakeFeed.

Definition sum (xs : list nat) : nat := foldr Nat.add 0 xs.
Definition staleGetter : dynamicGetter nat := mkGetter "1" 3 0.
Definition newerFeed : informer nat := mkInformer "2" [1; 2; 4].

(** Two callers race: both pass the read-locked check before either takes
    the write lock. *)
Definition race : list (action nat) :=
  [Run 0; Run 1; Run 0; Run 1; Run 0; Run 1].

End FakeFeed.

(* ===================================================================== *)
(** * The package functions of the snapshot loader *)
(* ===================================================================== *)

(** The errors of [newLoader]: "failed to create clientset", "failed to
    create rest mapper", "failed to create dynamic client" and "failed to
    get mapping for resource". *)
Inductive SetupError :=
  | ErrClientset
  | ErrRESTMapper
  | ErrDynamicClient
  | ErrMapping (resource : string).

(** What [newLoader] calls outside [load.go]; [false] and [None] are
    errors.  Every call may change the world. *)
Class Setup (W : Type) := {
  (** [client.NewClientset("", kubeconfigPath)] *)
  NewClientset : W -> string -> W * bool;
  (** [clientset.ToRESTMapper()] *)
  ToRESTMapper : W -> W * bool;
  (** [clientset.ToDynamicClient()] *)
  ToDynamicClient : W -> W * bool;
  (** [mappingFor(restMapper, resource)], a helper of the package defined
      outside [load.go], followed by [.GroupVersionKind.GroupKind()] *)
  mappingFor : W -> string -> W * option GroupKind;
}.

Module Snapshot.
Section Package.
Context {W : Type} `{External W} `{Setup W}.

(** The loop of [newLoader] over the requested resources. *)
Fixpoint resolve (w : W) (resources : list string) (filterMap : gset GroupKind)
  : W * (gset GroupKind + SetupError) :=
  match resources with
  | [] => (w, inl filterMap)
  | resource :: resources =>
    let '(w, mapping) := mappingFor w resource in
    match mapping with
    | None => (w, inr (ErrMapping resource))
    | Some gk => resolve w resources ({[gk]} ∪ filterMap)
    end
  end.

(** [func newLoader(kubeconfigPath string, resources []string)] *)
Definition newLoader (w : W) (kubeconfigPath : string)
    (resources : list string) : W * (loader W + SetupError) :=
  let '(w, ok) := NewClientset w kubeconfigPath in
  if negb ok then (w, inr ErrClientset)
  else
    let '(w, ok) := ToRESTMapper w in
    if negb ok then (w, inr ErrRESTMapper)
    else
      let '(w, ok) := ToDynamicClient w in
      if negb ok then (w, inr ErrDynamicClient)
      else
        match resolve w resources ∅ with
        | (w, inr err) => (w, inr err)
        | (w, inl filterMap) => (w, inl (newLoader filterMap w))
        end.

(** [func Load(ctx, kubeconfigPath, r, filters)]: the loader as [l.Load]
    leaves it (if there was one) and the error. *)
Definition Load (w : W) (kubeconfigPath : string) (r : list Document)
    (filters : list string)
  : option (loader W) * option (SetupError + LoadError) :=
  match newLoader w kubeconfigPath filters with
  | (_, inr err) => (None, Some (inl err))
  | (_, inl l) =>
    let '(l, err) := Load l r in (Some l, inr <$> err)
  end.

End Package.
End Snapshot.

(** A fake setup over the fake cluster: the client set needs a kubeconfig
    path, and the REST mapper knows three resource names. *)
Module FakeSetup.
Import Fake.

Definition fakeMappingFor (c : cluster) (resource : string)
  : cluster * option GroupKind :=
  if decide (resource = "deployment")
  then (c, Some (mkGroupKind "apps" "Deployment"))
  else if decide (resource = "replicaset")
  then (c, Some (mkGroupKind "apps" "ReplicaSet"))
  else if decide (resource = "pod") then (c, Some (mkGroupKind "" "Pod"))
  else (c, None).

#[export] Instance fakeSetup : Setup cluster := {|
  NewClientset := fun c kubeconfigPath =>
                    (c, negb (bool_decide (kubeconfigPath = EmptyString)));
  ToRESTMapper := fun c => (c, true);
  ToDynamicClient := fun c => (c, true);
  mappingFor := fakeMappingFor;
|}.

(** A loader in the middle of [load]: [objA] has just been applied and
    recorded, [objB] waits under its key. *)
Definition waitingForA : loader cluster :=
  mkLoader allKinds
           {[ uniqueKeyFromMetadata objA := "uid-0" ]}
           {[ uniqueKeyFromMetadata objA := [0] ]}
           [objB; fakeClear objA] emptyCluster [].

(** A cluster whose context is cancelled at the second check. *)
Definition shortLived : cluster := mkCluster [] [] [] [] (Some 1).

(** The trace of the dependency-ordering scenario, around the create of
    [objB]. *)
Definition beforeB : list Event :=
  [CallCreate 2 (mkGVR "apps" "v1" "Deployment") "default" (fakeClear objA)
              (inl (withUID "uid-0" (fakeClear objA)));
   LogCreated 2].
Definition createB : Event :=
  CallCreate 1 (mkGVR "apps" "v1" "ReplicaSet") "default" objB'
             (inl (withUID "uid-1" objB')).
Definition afterB : list Event := [LogCreated 1; LogSkippedMissingOwner 0].

(** A pod without owner, a cluster that rejects every write of an object
    named [a], and one that rejects those of an object named [p]. *)
Definition objP : Unstructured :=
  mkUnstructured "v1" "Pod" "default" "p" "origin-p" [] "13" "".
Definition rejectsA : cluster := mkCluster [] [] ["a"] [] None.
Definition rejectsP : cluster := mkCluster [] [] ["p"] [] None.

(** A pod whose API version does not parse. *)
Definition objZ : Unstructured :=
  mkUnstructured "a/b/c" "Pod" "default" "z" "origin-z" [] "14" "".

End FakeSetup.

(* ===================================================================== *)
(** * Further invariants of a load *)
(* ===================================================================== *)

(** ** The protocol of [apply], as a reader of the trace

    Where a round of [apply] stands: between two rounds, after the create
    call, or after the update call. *)
Inductive phase :=
  | Idle
  | Created (p : ptr) (gvr : GroupVersionResource) (ns : string)
            (obj : Unstructured) (res : Unstructured + APIError)
  | Updated (p : ptr) (res : Unstructured + APIError).

(** What may come next in the trace.  Between two rounds: a create call,
    or a diagnostic that belongs to no call.  After a create: "created"
    if it succeeded, an update of the same object in the same place if
    the client answered "already exists", the error diagnostic otherwise.
    After an update: "updated" if it succeeded, the warning on a
    conflict, the error diagnostic otherwise. *)
Definition protocolStep (s : phase) (e : Event) : option phase :=
  match s with
  | Idle =>
    match e with
    | CallCreate p gvr ns obj res => Some (Created p gvr ns obj res)
    | LogSkippedFiltered _ | LogSkippedMissingOwner _
    | LogFailedGetResource _ => Some Idle
    | _ => None
    end
  | Created p gvr ns obj (inl _) =>
    if decide (e = LogCreated p) then Some Idle else None
  | Created p gvr ns obj (inr err) =>
    if IsAlreadyExists err then
      match e with
      | CallUpdate p' gvr' ns' obj' res =>
        if decide (p' = p ∧ gvr' = gvr ∧ ns' = ns ∧ obj' = obj)
        then Some (Updated p res) else None
      | _ => None
      end
    else if decide (e = LogFailedCreate p) then Some Idle else None
  | Updated p (inl _) =>
    if decide (e = LogUpdated p) then Some Idle else None
  | Updated p (inr err) =>
    if IsConflict err
    then if decide (e = LogConflict p) then Some Idle else None
    else if decide (e = LogFailedUpdate p) then Some Idle else None
  end.

(** Read a trace from phase [s]; [None]: the trace breaks the protocol. *)
Fixpoint protocol (s : phase) (t : list Event) : option phase :=
  match t with
  | [] => Some s
  | e :: t =>
    match protocolStep s e with
    | Some s' => protocol s' t
    | None => None
    end
  end.

Section LoaderDiagnostics.
Context {W : Type} `{External W}.

(** [l'] has the trace of [l] followed by complete rounds of the
    protocol. *)
Definition inRounds (l l' : loader W) : Prop :=
  ∃ new, trace l' = trace l ++ new ∧ protocol Idle new = Some Idle.

(** The loader has handed the object at [p] to [apply] as it was decoded,
    as [o]: the REST mapper did not know its kind, or create was called
    on [clearUnstructured o]. *)
Definition handed (p : ptr) (o : Unstructured) (tr : list Event) : Prop :=
  LogFailedGetResource p ∈ tr ∨
  ∃ gvr ns res, CallCreate p gvr ns (clearUnstructured o) res ∈ tr.

(** The loader has tried to apply [p]: it has called the write client for
    it, or it has logged that the REST mapper does not know its kind. *)
Definition attempted (p : ptr) (tr : list Event) : Prop :=
  LogFailedGetResource p ∈ tr ∨ submitted p tr.

(** Before any call for an object, a create or update has succeeded for
    every owner the object names in the stream. *)
Definition ordered (origs : list Unstructured) (l : loader W) : Prop :=
  ∀ pre e post p obj res o r,
    trace l = pre ++ e :: post ->
    callOf e = Some (p, obj, res) ->
    origs !! p = Some o ->
    r ∈ GetOwnerReferences o ->
    ∃ q obj' u, succeeded q obj' u pre ∧
                uniqueKeyFromOwnerReference r = uniqueKeyFromMetadata obj'.

(** The object [p], decoded as [o], has been tried, or is as it was
    decoded and waits in the pending queue. *)
Definition notedAt (l : loader W) (p : ptr) (o : Unstructured) : Prop :=
  attempted p (trace l) ∨
  (objects l !! p = Some o ∧ ∃ k ps, pending l !! k = Some ps ∧ p ∈ ps).

(** The same, with a place in the queue under another key than [key]. *)
Definition notedAway (key : uniqueKey) (l : loader W) (p : ptr)
    (o : Unstructured) : Prop :=
  attempted p (trace l) ∨
  (objects l !! p = Some o ∧
   ∃ k ps, k ≠ key ∧ pending l !! k = Some ps ∧ p ∈ ps).

(** Every filtered-in object has been tried or waits. *)
Definition noted (fm : gset GroupKind) (origs : list Unstructured)
    (l : loader W) : Prop :=
  ∀ p o, origs !! p = Some o -> objGroupKind o ∈ fm -> notedAt l p o.

End LoaderDiagnostics.

(* ===================================================================== *)
(** * The dynamic getter: construction and agreement *)
(* ===================================================================== *)

Section GetterAgreement.
Context {O T : Type}.

(** [func NewDynamicGetter]: the fields [mut] guards are the zero values of
    their types, [zero] being the one of [O]. *)
Definition NewDynamicGetter (zero : O) : dynamicGetter O :=
  mkGetter "" zero 0.

(** In a steady schedule at version [v], once the getter is at [v] every
    caller that has returned has returned the value the getter holds. *)
Definition agreeInv (v : string) (v0 : string) (s : system O T) : Prop :=
  LastSyncResourceVersion (feed s) = v ∧
  Forall (readOnly v) (calls s) ∧
  ((currentVer (getter s) = v0 ∧
    Forall (fun k => returned k = false) (calls s))
   ∨ (currentVer (getter s) = v ∧
      Forall (fun k => ∀ d, k = Returned d -> d = data (getter s))
             (calls s))).

End GetterAgreement.

(* ===================================================================== *)
(** * The dynamic getter: start *)
(* ===================================================================== *)

(** What [syncer.List] answers to the informer: the items of the
    collection with its resource version, or an error. *)
Inductive listing (T : Type) :=
  | Items (resourceVersion : string) (items : list T)
  | ListFailed.
Arguments Items {T}.
Arguments ListFailed {T}.

(** The three things [Start] uses of client-go's informer. *)
Class Cache (T : Type) := {
  (** [cache.NewInformer]: the store and the controller as they are made,
      before the controller runs *)
  NewInformer : informer T;
  (** one round of listing of [controller.Run], on the answer of
      [syncer.List] *)
  listRound : informer T -> listing T -> informer T;
  (** [store.Resync()]; [true] is an error *)
  Resync : informer T -> informer T * bool;
}.

Section Starting.
Context {T : Type} `{Cache T}.

(** [func (c *dynamicGetter) Start]; the result is the informer behind
    [c.store] and [c.controller] when [Start] returns, and whether it
    returns an error.  [go controller.Run(ctx.Done())] starts a goroutine
    and goes on to [store.Resync()]: [early] are the answers of
    [syncer.List] to the rounds the goroutine gets through before that
    call.  [Start] does not wait for any, so [early] may be empty. *)
Definition Start (early : list (listing T)) : informer T * bool :=
  let informer := NewInformer in
  let informer := foldl listRound informer early in
  Resync informer.

(** What a caller of [Start] would rely on.  When [Start] returns without
    an error, the informer has completed a list: it shows a resource
    version. *)
Definition returnsSynced : Prop :=
  ∀ early, (Start early).2 = false ->
           LastSyncResourceVersion (Start early).1 ≠ "".

(** With a syncer whose [List] fails every time, [Start] returns an
    error. *)
Definition failsWhenListFails : Prop :=
  ∀ early, Forall (fun answer => answer = ListFailed) early ->
           (Start early).2 = true.

End Starting.

(** An informer that does what the store and the controller of
    [cache.NewInformer] do: the store starts empty and without a version,
    a successful list replaces its items and sets the version, a failed
    list leaves it as it is (the controller will try again), and
    [Resync] on this kind of store does nothing and returns no error. *)
Module FakeCache.

Definition idleResync {T : Type} (inf : informer T) : informer T * bool :=
  (inf, false).

Definition fakeListRound {T : Type} (inf : informer T) (answer : listing T)
  : informer T :=
  match answer with
  | Items resourceVersion items => mkInformer resourceVersion items
  | ListFailed => inf
  end.

#[export] Instance fakeCache {T : Type} : Cache T := {|
  NewInformer := mkInformer "" [];
  listRound := fakeListRound;
  Resync := idleResync;
|}.

(** A caller of [Get] runs to its end; then the informer is fed with the
    collection of [FakeFeed.newerFeed]. *)
Definition getThenFeed : list (action nat) :=
  [Run 0; Run 0; Run 0; Feed FakeFeed.newerFeed].

End FakeCache.

(* ===================================================================== *)
(** * Properties of the dynamic getter *)
(* ===================================================================== *)

Section GetterProperties.
Context {O T : Type} (convertFunc : list T -> O).

Lemma readLocked_fresh (c : dynamicGetter O) v :
  v = currentVer c -> readLocked c v = Some (data c).
Proof. intros ->. unfold readLocked. by rewrite decide_True. Qed.

Lemma readLocked_stale (c : dynamicGetter O) v :
  v ≠ currentVer c -> readLocked c v = None.
Proof. intros Hne. unfold readLocked. by rewrite decide_False. Qed.

Lemma updateAndReturn_fresh (c : dynamicGetter O) (inf : informer T) v :
  v = currentVer c -> updateAndReturn convertFunc c inf v = (c, data c).
Proof. intros ->. unfold updateAndReturn. by rewrite decide_True. Qed.

Lemma updateAndReturn_stale (c : dynamicGetter O) (inf : informer T) v :
  v ≠ currentVer c ->
  updateAndReturn convertFunc c inf v =
    (mkGetter v (convertFunc (List inf)) (S (conversions c)),
     convertFunc (List inf)).
Proof. intros Hne. unfold updateAndReturn. by rewrite decide_False. Qed.

(** C3.  [Get] runs the conversion function only when the version read
    from the informer differs from [currentVer] at the check under the
    read lock and again at the check under the write lock.  When the
    versions agree at the first check, or at the second one, [Get] returns
    the stored [data], the getter is left as it was found and no
    conversion has run; when they differ at both, exactly one conversion
    runs and its result is stored under the version that was read. *)
Theorem Get_converts_only_when_stale
    (c : dynamicGetter O) (before after : informer T)
    (between : dynamicGetter O -> dynamicGetter O) :
  let latestVer := LastSyncResourceVersion before in
  let r := Get convertFunc c before between after in
  (latestVer = currentVer c -> r = (c, data c)) ∧
  (latestVer ≠ currentVer c -> latestVer = currentVer (between c) ->
     r = (between c, data (between c))) ∧
  (latestVer ≠ currentVer c -> latestVer ≠ currentVer (between c) ->
     r = (mkGetter latestVer (convertFunc (List after))
                   (S (conversions (between c))),
          convertFunc (List after))) ∧
  (conversions r.1 ≠ conversions c ->
   conversions r.1 ≠ conversions (between c) ->
     latestVer ≠ currentVer c ∧ latestVer ≠ currentVer (between c)).
Proof.
  intros latestVer r. subst r. unfold Get. fold latestVer.
  split; [|split; [|split]].
  - intros Heq. by rewrite (readLocked_fresh _ _ Heq).
  - intros Hne Heq. rewrite (readLocked_stale _ _ Hne).
    by apply updateAndReturn_fresh.
  - intros Hne Hne'. rewrite (readLocked_stale _ _ Hne).
    by apply updateAndReturn_stale.
  - destruct (decide (latestVer = currentVer c)) as [E|E].
    { rewrite (readLocked_fresh _ _ E). simpl. done. }
    rewrite (readLocked_stale _ _ E).
    destruct (decide (latestVer = currentVer (between c))) as [E'|E'].
    { rewrite (updateAndReturn_fresh _ _ _ E'). simpl. done. }
    done.
Qed.

(** ** Concurrent callers: the invariant of a steady schedule *)

Lemma steadyInv_step v v0 n0 s a :
  v0 ≠ v ->
  match a with Feed next => LastSyncResourceVersion next = v | Run _ => True end ->
  steadyInv v v0 n0 s -> steadyInv v v0 n0 (step convertFunc s a).
Proof.
  intros Hv Ha (Hfeed & Hread & Hconv). destruct a as [next|i]; simpl.
  { split; [done|]. split; [done|]. done. }
  destruct (calls s !! i) as [k|] eqn:Hk; [|done].
  assert (Hrk : readOnly v k) by (eapply Forall_lookup_1; eauto).
  destruct k as [|u|u|d]; simpl in *; [| subst u .. |done].
  - (* reads the version *)
    split; [done|]. split.
    + apply Forall_insert; [done|]. simpl. done.
    + destruct Hconv as [(?&?&Hnr)|?]; [left|by right].
      repeat split; try done. by apply Forall_insert.
  - (* read-locked check *)
    destruct Hconv as [(Hcur&Hn&Hnr)|(Hcur&Hn)].
    + rewrite readLocked_stale by congruence. simpl.
      split; [done|]. split; [by apply Forall_insert|].
      left. repeat split; try done. by apply Forall_insert.
    + rewrite readLocked_fresh by congruence. simpl.
      split; [done|]. split; [by apply Forall_insert|]. by right.
  - (* write-locked section *)
    destruct Hconv as [(Hcur&Hn&Hnr)|(Hcur&Hn)].
    + rewrite updateAndReturn_stale by congruence. simpl.
      split; [done|]. split; [by apply Forall_insert|].
      right. by rewrite Hn.
    + rewrite updateAndReturn_fresh by congruence. simpl.
      split; [done|]. split; [by apply Forall_insert|]. by right.
Qed.

Lemma steadyInv_run v v0 n0 schedule : forall s,
  v0 ≠ v -> steady v schedule ->
  steadyInv v v0 n0 s -> steadyInv v v0 n0 (run convertFunc s schedule).
Proof.
  induction schedule as [|a schedule IH]; intros s Hv Hst Hinv; [done|].
  apply Forall_cons in Hst as [Ha Hst]. simpl.
  apply IH; [done..|]. by apply steadyInv_step.
Qed.

Lemma length_calls_step (s : system O T) a :
  length (calls (step convertFunc s a)) = length (calls s).
Proof.
  destruct a as [next|i]; simpl; [done|].
  destruct (calls s !! i) as [[|u|u|d]|]; simpl; try done.
  - by rewrite length_insert.
  - destruct (readLocked _ _); simpl; by rewrite length_insert.
  - destruct (updateAndReturn _ _ _ _); simpl. by rewrite length_insert.
Qed.

Lemma length_calls_run schedule : forall s : system O T,
  length (calls (run convertFunc s schedule)) = length (calls s).
Proof.
  induction schedule as [|a schedule IH]; intros s; [done|].
  unfold run in *. simpl. by rewrite IH, length_calls_step.
Qed.


End GetterProperties.

(* ===================================================================== *)
(** * Properties of the snapshot loader *)
(* ===================================================================== *)

Section LoaderProperties.
Context {W : Type} `{External W}.
Implicit Types (l : loader W) (p q : ptr) (o : Unstructured).

(** ** The object store *)

Lemma deref_lookup l p o : objects l !! p = Some o -> deref l p = o.
Proof. unfold deref. by intros ->. Qed.

Lemma lookup_assign_ne l p q o :
  q ≠ p -> objects (assign p o l) !! q = objects l !! q.
Proof. intros Hne. simpl. by apply list_lookup_insert_ne. Qed.

Lemma deref_assign l p o :
  deref (assign p o l) p = o ∨ deref (assign p o l) p = deref l p.
Proof.
  unfold deref. simpl. destruct (decide (p < length (objects l))) as [Hlt|Hge].
  - left. by rewrite list_lookup_insert_eq.
  - right. by rewrite list_insert_ge by lia.
Qed.

Lemma setPending_id l : setPending (pending l) l = l.
Proof. by destruct l. Qed.

(** ** Reworked objects *)

Lemma reworked_trans o1 o2 o3 :
  reworked o1 o2 -> reworked o2 o3 -> reworked o1 o3.
Proof.
  intros H12 H23. induction H23; [done| |].
  - by apply reworked_owners.
  - by apply reworked_clear.
Qed.

Lemma reworked_assign l p o :
  reworked (deref l p) o -> reworked (deref l p) (deref (assign p o l) p).
Proof.
  intros Hr. destruct (deref_assign l p o) as [-> | ->]; [done|].
  apply reworked_refl.
Qed.

(** ** Traces *)

Lemma succeeded_app_l p obj u tr tr' :
  succeeded p obj u tr -> succeeded p obj u (tr ++ tr').
Proof.
  intros (e & newObj & He & Hc & Hu). exists e, newObj.
  split; [|done]. apply elem_of_app. by left.
Qed.

Lemma succeeded_app_r p obj u tr tr' :
  succeeded p obj u tr' -> succeeded p obj u (tr ++ tr').
Proof.
  intros (e & newObj & He & Hc & Hu). exists e, newObj.
  split; [|done]. apply elem_of_app. by right.
Qed.

(** ** Work on one object *)

Lemma touches_intro p l l' new :
  filterMap l' = filterMap l ->
  pending l' = pending l ->
  length (objects l') = length (objects l) ->
  (∀ q, q ≠ p -> objects l' !! q = objects l !! q) ->
  reworked (deref l p) (deref l' p) ->
  trace l' = trace l ++ new ->
  (∀ e q obj res, e ∈ new -> callOf e = Some (q, obj, res) ->
     q = p ∧ reworked (deref l p) obj) ->
  exist l' = exist l ->
  touches p l l'.
Proof.
  intros Hf Hp Hl Ho Hr Ht Hc Hx. do 5 (split; [done|]).
  exists new. do 2 (split; [done|]). rewrite Hx. split; [done|].
  intros k u Hk. by left.
Qed.

Lemma touches_refl p l : touches p l l.
Proof.
  apply touches_intro with (new := []); try done.
  - apply reworked_refl.
  - by rewrite app_nil_r.
  - intros e q obj res He. by apply elem_of_nil in He.
Qed.

Lemma touches_trans p l1 l2 l3 :
  touches p l1 l2 -> touches p l2 l3 -> touches p l1 l3.
Proof.
  intros (Hf1 & Hp1 & Hl1 & Ho1 & Hr1 & new1 & Ht1 & Hc1 & Hm1 & Hx1)
         (Hf2 & Hp2 & Hl2 & Ho2 & Hr2 & new2 & Ht2 & Hc2 & Hm2 & Hx2).
  split; [congruence|]. split; [congruence|]. split; [congruence|].
  split. { intros q Hq. rewrite Ho2, Ho1; done. }
  split. { by eapply reworked_trans. }
  exists (new1 ++ new2). split. { by rewrite Ht2, Ht1, app_assoc. }
  split.
  { intros e q obj res He Hc. apply elem_of_app in He as [He|He].
    - by eapply Hc1.
    - destruct (Hc2 _ _ _ _ He Hc) as [-> Hr]. split; [done|].
      by eapply reworked_trans. }
  split. { intros k Hk. by apply Hm2, Hm1. }
  intros k u Hk. destruct (Hx2 _ _ Hk) as [Hk'|(obj & Hs & ->)].
  - destruct (Hx1 _ _ Hk') as [?|(obj & Hs & ->)]; [by left|].
    right. exists obj. split; [|done]. by apply succeeded_app_l.
  - right. exists obj. split; [|done]. by apply succeeded_app_r.
Qed.

Lemma touches_setWorld p l w : touches p l (setWorld w l).
Proof.
  apply touches_intro with (new := []); try done.
  - apply reworked_refl.
  - simpl. by rewrite app_nil_r.
  - intros e q obj res He. by apply elem_of_nil in He.
Qed.

Lemma touches_assign p l o :
  reworked (deref l p) o -> touches p l (assign p o l).
Proof.
  intros Hr. apply touches_intro with (new := []); try done.
  - simpl. by rewrite length_insert.
  - intros q Hq. by apply lookup_assign_ne.
  - by apply reworked_assign.
  - simpl. by rewrite app_nil_r.
  - intros e q obj res He. by apply elem_of_nil in He.
Qed.

Lemma touches_emit p l e :
  (∀ q obj res, callOf e = Some (q, obj, res) ->
                q = p ∧ reworked (deref l p) obj) ->
  touches p l (emit e l).
Proof.
  intros He. apply touches_intro with (new := [e]); try done.
  - apply reworked_refl.
  - intros e' q obj res Hin Hc. apply list_elem_of_singleton in Hin as ->.
    by eapply He.
Qed.

Lemma touches_emit_log p l e : callOf e = None -> touches p l (emit e l).
Proof. intros He. apply touches_emit. intros q obj res. by rewrite He. Qed.

Lemma touches_updateOwnerReferences p l :
  touches p l (updateOwnerReferences l p).
Proof.
  unfold updateOwnerReferences.
  destruct (GetOwnerReferences (deref l p)) as [|r rs]; [apply touches_refl|].
  apply touches_assign. apply reworked_owners, reworked_refl.
Qed.

(** ** [apply] *)

Lemma apply_touches l p : touches p l (apply l p).1.
Proof.
  unfold apply.
  destruct (ResourceFor (world l) (objGVR (deref l p))) as [w1 [gvr|]];
    cbn [fst].
  2: { eapply touches_trans; [apply touches_setWorld|].
       by apply touches_emit_log. }
  set (l1 := assign p (clearUnstructured (deref (setWorld w1 l) p))
                    (setWorld w1 l)).
  assert (H1 : touches p l l1).
  { eapply touches_trans; [apply touches_setWorld|].
    apply touches_assign. apply reworked_clear, reworked_refl. }
  destruct (Create (world l1) gvr (GetNamespace (deref l1 p)) (deref l1 p))
    as [w2 created].
  set (l2 := setWorld w2 (emit (CallCreate p gvr (GetNamespace (deref l1 p))
                                           (deref l1 p) created) l1)).
  assert (H2 : touches p l l2).
  { eapply touches_trans; [exact H1|].
    eapply touches_trans; [|apply touches_setWorld].
    apply touches_emit. intros q obj res [= <- <- <-].
    split; [done|apply reworked_refl]. }
  destruct created as [newObj|err]; cbn [fst].
  { eapply touches_trans; [exact H2|]. by apply touches_emit_log. }
  destruct (IsAlreadyExists err); cbn [fst].
  2: { eapply touches_trans; [exact H2|]. by apply touches_emit_log. }
  destruct (Update (world l2) gvr (GetNamespace (deref l1 p)) (deref l1 p))
    as [w3 updated].
  set (l3 := setWorld w3 (emit (CallUpdate p gvr (GetNamespace (deref l1 p))
                                           (deref l1 p) updated) l2)).
  assert (H3 : touches p l l3).
  { eapply touches_trans; [exact H2|].
    eapply touches_trans; [|apply touches_setWorld].
    apply touches_emit. intros q obj res [= <- <- <-].
    split; [done|apply reworked_refl]. }
  destruct updated as [newObj|err']; cbn [fst].
  { eapply touches_trans; [exact H3|]. by apply touches_emit_log. }
  destruct (IsConflict err'); cbn [fst];
    (eapply touches_trans; [exact H3|]; by apply touches_emit_log).
Qed.

Lemma apply_exist l p : exist (apply l p).1 = exist l.
Proof.
  unfold apply.
  destruct (ResourceFor _ _) as [w1 [gvr|]]; simpl; [|done].
  destruct (Create _ _ _ _) as [w2 [newObj|err]]; simpl; [done|].
  destruct (IsAlreadyExists err); simpl; [|done].
  destruct (Update _ _ _ _) as [w3 [newObj|err']]; simpl; [done|].
  by destruct (IsConflict err').
Qed.

(** A successful [apply] ends with a successful call whose argument is
    the object as [apply] leaves it. *)
Lemma apply_success l p l' newObj :
  apply l p = (l', Some newObj) ->
  ∃ new, trace l' = trace l ++ new ∧
         succeeded p (deref l' p) (GetUID newObj) new.
Proof.
  unfold apply.
  destruct (ResourceFor _ _) as [w1 [gvr|]]; simpl; [|done].
  destruct (Create _ _ _ _) as [w2 [created|err]] eqn:HC; simpl.
  { intros [= <- <-]. eexists [_; _]. simpl. rewrite <- app_assoc.
    split; [done|]. eexists _, created. split; [by left|]. done. }
  destruct (IsAlreadyExists err); simpl; [|done].
  destruct (Update _ _ _ _) as [w3 [updated|err']] eqn:HU; simpl.
  { intros [= <- <-]. eexists [_; _; _]. simpl. rewrite <- !app_assoc.
    split; [done|]. eexists _, updated.
    split; [right; by left|]. done. }
  by destruct (IsConflict err').
Qed.

(** ** [applyAndRecord] *)

Lemma applyAndRecord_touches l p : touches p l (applyAndRecord l p).1.
Proof.
  unfold applyAndRecord.
  pose proof (apply_touches l p) as Ht.
  pose proof (apply_exist l p) as Hx.
  destruct (apply l p) as [l1 [newObj|]] eqn:Ha; cbn [fst] in *; [|done].
  destruct (apply_success _ _ _ _ Ha) as (new & Htr & Hs).
  destruct Ht as (Hf & Hp & Hl & Ho & Hr & new' & Htr' & Hc & Hm & _).
  assert (new' = new) as -> by (apply (app_inv_head (trace l)); congruence).
  do 5 (split; [done|]). exists new. do 2 (split; [done|]).
  cbn [exist setExist]. split.
  - intros k Hk. rewrite lookup_insert. case_decide; [by eexists|].
    rewrite Hx. done.
  - intros k u. rewrite lookup_insert. case_decide as Hk.
    + intros [= <-]. right. by exists (deref l1 p).
    + rewrite Hx. by left.
Qed.

Lemma applyAndRecord_ok l p l' :
  applyAndRecord l p = (l', true) ->
  is_Some (exist l' !! uniqueKeyFromMetadata (deref l' p)).
Proof.
  unfold applyAndRecord. destruct (apply l p) as [l1 [newObj|]]; [|done].
  intros [= <-]. cbn. rewrite lookup_insert_eq. by eexists.
Qed.

(** ** One step of the cascade *)

Lemma cascadeStep_touches l q : touches q l (cascadeStep l q).
Proof.
  unfold cascadeStep. destruct (_ || _); [|apply touches_refl].
  eapply touches_trans; [apply touches_updateOwnerReferences|].
  apply applyAndRecord_touches.
Qed.

Lemma cascadeStep_not_ready l q :
  length (GetOwnerReferences (deref l q)) ≠ 1 ->
  hasAllOwnerReferences l q = false ->
  cascadeStep l q = l.
Proof.
  intros Hlen Hall. unfold cascadeStep. rewrite Hall.
  by rewrite (proj2 (Nat.eqb_neq _ _) Hlen).
Qed.

Lemma hasAllOwnerReferences_allKnown l q :
  hasAllOwnerReferences l q = true -> allKnown (exist l) (deref l q).
Proof.
  unfold hasAllOwnerReferences, allKnown.
  destruct (GetOwnerReferences (deref l q)) as [|r0 rs] eqn:Hrs.
  { intros _ r Hr. by apply elem_of_nil in Hr. }
  intros Hall r Hr. rewrite forallb_forall in Hall.
  apply list_elem_of_In in Hr. specialize (Hall _ Hr).
  unfold known in Hall. by apply bool_decide_eq_true in Hall.
Qed.

Lemma allKnown_hasAllOwnerReferences l q :
  allKnown (exist l) (deref l q) -> hasAllOwnerReferences l q = true.
Proof.
  unfold hasAllOwnerReferences, allKnown.
  destruct (GetOwnerReferences (deref l q)) as [|r0 rs] eqn:Hrs; [done|].
  intros Hall. apply forallb_forall. intros r Hr.
  apply bool_decide_eq_true, Hall. by apply list_elem_of_In.
Qed.

(** The step leaves the loader alone, or [q] was ready: it has a single
    owner reference, or all its owner references are known. *)
Lemma cascadeStep_cases l q :
  cascadeStep l q = l ∨
  (length (GetOwnerReferences (deref l q)) = 1
   ∨ allKnown (exist l) (deref l q)).
Proof.
  unfold cascadeStep.
  destruct (length _ =? 1) eqn:Hlen; [right; left; by apply Nat.eqb_eq|].
  destruct (hasAllOwnerReferences l q) eqn:Hall; [|by left].
  right. right. by apply hasAllOwnerReferences_allKnown.
Qed.

(** ** The invariant *)

Lemma allKnown_mono (ex ex' : gmap uniqueKey string) o :
  (∀ k, is_Some (ex !! k) -> is_Some (ex' !! k)) ->
  allKnown ex o -> allKnown ex' o.
Proof. intros Hm Hk r Hr. by apply Hm, Hk. Qed.

Lemma wellFormed_touches fm origs l l' p o :
  wellFormed fm origs l -> touches p l l' ->
  origs !! p = Some o -> objGroupKind o ∈ fm -> allKnown (exist l) o ->
  wellFormed fm origs l'.
Proof.
  intros [Hf Hl Ho Hc Hp Hx]
    (Hf' & Hp' & Hl' & Ho' & Hr' & new & Htr & Hc' & Hm & Hx') Hop Hfm Hk.
  destruct (Ho _ _ Hop) as (op & Hlp & Hrp & _).
  assert (Hd : deref l p = op) by by apply deref_lookup.
  split.
  - congruence.
  - congruence.
  - intros q oq Hq. destruct (decide (q = p)) as [->|Hne].
    + assert (oq = o) as -> by congruence.
      assert (p < length (objects l')) as Hlt.
      { rewrite Hl'. by eapply lookup_lt_Some. }
      apply lookup_lt_is_Some in Hlt as [o' Ho'p]. exists o'.
      split; [done|]. split.
      * eapply reworked_trans; [exact Hrp|]. rewrite <- Hd.
        by rewrite <- (deref_lookup _ _ _ Ho'p).
      * right. by eapply allKnown_mono.
    + destruct (Ho _ _ Hq) as (o' & Hlq & Hrq & Hcase). exists o'.
      rewrite Ho' by done. split; [done|]. split; [done|].
      destruct Hcase as [?|?]; [by left|right; by eapply allKnown_mono].
  - intros e q obj res He Hcall. rewrite Htr in He.
    apply elem_of_app in He as [He|He].
    + destruct (Hc _ _ _ _ He Hcall) as (oq & ? & ? & ? & ?).
      exists oq. repeat split; try done. by eapply allKnown_mono.
    + destruct (Hc' _ _ _ _ He Hcall) as [-> Hr]. exists o.
      repeat split; try done; [by eapply allKnown_mono|].
      eapply reworked_trans; [exact Hrp|]. by rewrite <- Hd.
  - intros k ps q. rewrite Hp'. apply Hp.
  - intros k u Hku. destruct (Hx' _ _ Hku) as [Hold|(obj & Hs & ->)].
    + destruct (Hx _ _ Hold) as (q & obj & Hs & ->). exists q, obj.
      split; [|done]. rewrite Htr. by apply succeeded_app_l.
    + exists p, obj. split; [|done]. rewrite Htr. by apply succeeded_app_r.
Qed.

Lemma wellFormed_setWorld fm origs l w :
  wellFormed fm origs l -> wellFormed fm origs (setWorld w l).
Proof. intros [? ? ? ? ? ?]. by split. Qed.

Lemma wellFormed_emit_log fm origs l e :
  callOf e = None -> wellFormed fm origs l -> wellFormed fm origs (emit e l).
Proof.
  intros He [Hf Hl Ho Hc Hp Hx]. split; try done.
  - intros e' p obj res Hin Hcall. cbn in Hin.
    apply elem_of_app in Hin as [Hin|Hin]; [by eapply Hc|].
    apply list_elem_of_singleton in Hin as ->. congruence.
  - intros k u Hk. destruct (Hx _ _ Hk) as (p & obj & Hs & ->).
    exists p, obj. split; [|done]. by apply succeeded_app_l.
Qed.

Lemma waitsFor_ready fm origs l key q o :
  wellFormed fm origs l -> is_Some (exist l !! key) ->
  origs !! q = Some o ->
  (∃ r, r ∈ GetOwnerReferences o ∧ uniqueKeyFromOwnerReference r = key) ->
  length (GetOwnerReferences (deref l q)) = 1
    ∨ allKnown (exist l) (deref l q) ->
  allKnown (exist l) o.
Proof.
  intros Hwf Hkey Hq (r & Hr & Hrk) Hready.
  destruct (wf_objects _ _ _ Hwf _ _ Hq) as (o' & Hlq & _ & [->|Hk]); [|done].
  rewrite (deref_lookup _ _ _ Hlq) in Hready.
  destruct Hready as [Hlen|Hall]; [|done].
  destruct (GetOwnerReferences o) as [|r0 [|r1 rs]] eqn:Hrs; try done.
  apply list_elem_of_singleton in Hr as ->.
  intros r'. rewrite Hrs. intros ->%list_elem_of_singleton. by rewrite Hrk.
Qed.

Lemma cascadeStep_wellFormed fm origs l key q :
  wellFormed fm origs l -> is_Some (exist l !! key) ->
  waitsFor fm origs key q ->
  wellFormed fm origs (cascadeStep l q).
Proof.
  intros Hwf Hkey (o & Hq & Hfm & Hr).
  destruct (cascadeStep_cases l q) as [->|Hready]; [done|].
  eapply wellFormed_touches; [done|apply cascadeStep_touches|done..|].
  by eapply waitsFor_ready.
Qed.

Lemma foldl_cascadeStep fm origs key ps : forall l,
  wellFormed fm origs l -> is_Some (exist l !! key) ->
  (∀ q, q ∈ ps -> waitsFor fm origs key q) ->
  let l' := foldl cascadeStep l ps in
  wellFormed fm origs l' ∧ pending l' = pending l ∧
  (∀ k, is_Some (exist l !! k) -> is_Some (exist l' !! k)).
Proof.
  induction ps as [|q ps IH]; intros l Hwf Hkey Hps; [done|].
  cbn [foldl].
  pose proof (cascadeStep_touches l q)
    as (_ & Hp & _ & _ & _ & _ & _ & _ & Hm & _).
  destruct (IH (cascadeStep l q)) as (Hwf' & Hp' & Hm').
  - eapply cascadeStep_wellFormed; [done..|]. apply Hps. by left.
  - by apply Hm.
  - intros q' Hq'. apply Hps. by right.
  - split; [done|]. split; [congruence|]. intros k Hk. by apply Hm', Hm.
Qed.

(** ** [cascade] *)

Lemma cascade_pending_key l key : pending (cascade l key) !! key = None.
Proof.
  unfold cascade. destruct (pending l !! key) eqn:Hk; [|done].
  cbn. apply lookup_delete_eq.
Qed.

Lemma cascade_wellFormed fm origs l key :
  wellFormed fm origs l -> is_Some (exist l !! key) ->
  wellFormed fm origs (cascade l key) ∧
  (∀ k, k ≠ key -> pending (cascade l key) !! k = pending l !! k) ∧
  (∀ k, is_Some (exist l !! k) -> is_Some (exist (cascade l key) !! k)).
Proof.
  intros Hwf Hkey. unfold cascade.
  destruct (pending l !! key) as [ps|] eqn:Hps; [|done].
  destruct (foldl_cascadeStep fm origs key ps l Hwf Hkey) as (Hwf' & Hp & Hm).
  { intros q Hq. by eapply (wf_pending _ _ _ Hwf). }
  split; [|split].
  - destruct Hwf' as [Hf Hl Ho Hc Hpd Hx]. split; try done.
    intros k ps' p. cbn. rewrite lookup_delete. case_decide; [done|].
    apply Hpd.
  - intros k Hk. cbn. rewrite lookup_delete_ne by done. by rewrite Hp.
  - done.
Qed.

(** ** The first loop of [load] *)

Lemma enqueue_lookup_eq key p (pd : gmap uniqueKey (list nat)) :
  enqueue key p pd !! key = Some (default [] (pd !! key) ++ [p]).
Proof. unfold enqueue. by rewrite lookup_insert_eq. Qed.

Lemma enqueue_lookup_ne key k p (pd : gmap uniqueKey (list nat)) :
  k ≠ key -> enqueue key p pd !! k = pd !! k.
Proof. intros Hne. unfold enqueue. by rewrite lookup_insert_ne. Qed.

Lemma enqueue_keeps key p (pd : gmap uniqueKey (list nat)) k ps q :
  pd !! k = Some ps -> q ∈ ps ->
  ∃ ps', enqueue key p pd !! k = Some ps' ∧ q ∈ ps'.
Proof.
  intros Hk Hq. destruct (decide (k = key)) as [->|Hne].
  - rewrite enqueue_lookup_eq, Hk. eexists. split; [done|].
    apply elem_of_app. by left.
  - rewrite enqueue_lookup_ne by done. by exists ps.
Qed.

Lemma enqueue_adds key p (pd : gmap uniqueKey (list nat)) k ps' q :
  enqueue key p pd !! k = Some ps' -> q ∈ ps' ->
  (∃ ps, pd !! k = Some ps ∧ q ∈ ps) ∨ (q = p ∧ k = key).
Proof.
  destruct (decide (k = key)) as [->|Hne].
  - rewrite enqueue_lookup_eq. intros [= <-] Hq.
    apply elem_of_app in Hq as [Hq|Hq].
    + left. destruct (pd !! key) as [ps|]; [by exists ps|].
      by apply elem_of_nil in Hq.
    + right. by apply list_elem_of_singleton in Hq.
  - rewrite enqueue_lookup_ne by done. intros Hk Hq. left. by exists ps'.
Qed.

Lemma checkOwners_spec (ex : gmap uniqueKey string) p refs :
  forall b (pd : gmap uniqueKey (list nat)),
  let r := foldl (fun acc ownerReference =>
                    let key := uniqueKeyFromOwnerReference ownerReference in
                    match ex !! key with
                    | Some _ => acc
                    | None => (false, enqueue key p acc.2)
                    end) (b, pd) refs in
  (r.1 = true -> r.2 = pd ∧ b = true ∧
     ∀ ref, ref ∈ refs -> is_Some (ex !! uniqueKeyFromOwnerReference ref)) ∧
  (∀ k ps q, pd !! k = Some ps -> q ∈ ps ->
     ∃ ps', r.2 !! k = Some ps' ∧ q ∈ ps') ∧
  (∀ k ps' q, r.2 !! k = Some ps' -> q ∈ ps' ->
     (∃ ps, pd !! k = Some ps ∧ q ∈ ps) ∨
     (q = p ∧ ∃ ref, ref ∈ refs ∧ uniqueKeyFromOwnerReference ref = k)) ∧
  (∀ ref, ref ∈ refs ->
     is_Some (ex !! uniqueKeyFromOwnerReference ref) ∨
     ∃ ps', r.2 !! uniqueKeyFromOwnerReference ref = Some ps' ∧ p ∈ ps').
Proof.
  induction refs as [|ref refs IH]; intros b pd; cbn [foldl].
  { cbn. split; [|split; [|split]].
    - intros ->. repeat split. intros ref Hr. by apply elem_of_nil in Hr.
    - intros k ps q Hk Hq. by exists ps.
    - intros k ps q Hk Hq. left. by exists ps.
    - intros ref Hr. by apply elem_of_nil in Hr. }
  destruct (ex !! uniqueKeyFromOwnerReference ref) as [uid|] eqn:Hex.
  - destruct (IH b pd) as (H1 & H2 & H3 & H4). split; [|split; [|split]].
    + intros Hb. destruct (H1 Hb) as (? & ? & Hall). repeat split; try done.
      intros ref' [->|Hr]%elem_of_cons; [by rewrite Hex|by apply Hall].
    + done.
    + intros k ps' q Hk Hq. destruct (H3 _ _ _ Hk Hq) as [?|(-> & r' & ? & ?)];
        [by left|]. right. split; [done|]. exists r'. split; [by right|done].
    + intros ref' [->|Hr]%elem_of_cons; [left; by rewrite Hex|by apply H4].
  - cbn [snd].
    destruct (IH false (enqueue (uniqueKeyFromOwnerReference ref) p pd))
      as (H1 & H2 & H3 & H4). split; [|split; [|split]].
    + intros Hb. by destruct (H1 Hb) as (? & ? & ?).
    + intros k ps q Hk Hq.
      destruct (enqueue_keeps (uniqueKeyFromOwnerReference ref) p _ _ _ _
                  Hk Hq) as (ps1 & Hk1 & Hq1).
      by eapply H2.
    + intros k ps' q Hk Hq.
      destruct (H3 _ _ _ Hk Hq) as [(ps & Hk1 & Hq1)|(-> & r' & ? & ?)].
      * destruct (enqueue_adds _ _ _ _ _ _ Hk1 Hq1) as [?|[-> ->]];
          [by left|]. right. split; [done|]. exists ref. split; [by left|done].
      * right. split; [done|]. exists r'. split; [by right|done].
    + intros ref' [->|Hr]%elem_of_cons; [|by apply H4]. right.
      eapply H2; [apply enqueue_lookup_eq|].
      apply elem_of_app. right. by left.
Qed.

Lemma checkOwners_ok (ex : gmap uniqueKey string) p refs
    (pd : gmap uniqueKey (list nat)) :
  let r := checkOwners ex p refs pd in
  (r.1 = true -> r.2 = pd ∧
     ∀ ref, ref ∈ refs -> is_Some (ex !! uniqueKeyFromOwnerReference ref)) ∧
  (∀ k ps q, pd !! k = Some ps -> q ∈ ps ->
     ∃ ps', r.2 !! k = Some ps' ∧ q ∈ ps') ∧
  (∀ k ps' q, r.2 !! k = Some ps' -> q ∈ ps' ->
     (∃ ps, pd !! k = Some ps ∧ q ∈ ps) ∨
     (q = p ∧ ∃ ref, ref ∈ refs ∧ uniqueKeyFromOwnerReference ref = k)) ∧
  (∀ ref, ref ∈ refs ->
     is_Some (ex !! uniqueKeyFromOwnerReference ref) ∨
     ∃ ps', r.2 !! uniqueKeyFromOwnerReference ref = Some ps' ∧ p ∈ ps').
Proof.
  destruct (checkOwners_spec ex p refs true pd) as (H1 & H2 & H3 & H4).
  split; [|done]. intros Hb. by destruct (H1 Hb) as (? & _ & ?).
Qed.

(** ** [load] *)

(** The two tests [len(ownerReferences) != 0] of [load] can be dropped:
    both loops do nothing on an empty list. *)
Lemma load_unfold l p :
  load l p =
    let '(allExist, pd) :=
      checkOwners (exist l) p (GetOwnerReferences (deref l p)) (pending l) in
    let l1 := setPending pd l in
    if negb allExist then l1
    else
      let '(l2, ok) := applyAndRecord (updateOwnerReferences l1 p) p in
      if negb ok then l2
      else cascade l2 (uniqueKeyFromMetadata (deref l2 p)).
Proof.
  unfold load.
  destruct (GetOwnerReferences (deref l p)) as [|r rs] eqn:Hrs; [|done].
  cbn. unfold updateOwnerReferences.
  replace (deref (setPending (pending l) l) p) with (deref l p) by done.
  by rewrite Hrs.
Qed.

Lemma load_wellFormed fm origs l p o :
  wellFormed fm origs l ->
  origs !! p = Some o -> objects l !! p = Some o -> objGroupKind o ∈ fm ->
  (∀ q oq r, q ≠ p -> origs !! q = Some oq -> objGroupKind oq ∈ fm ->
     r ∈ GetOwnerReferences oq ->
     is_Some (exist l !! uniqueKeyFromOwnerReference r) ∨
     ∃ ps, pending l !! uniqueKeyFromOwnerReference r = Some ps ∧ q ∈ ps) ->
  wellFormed fm origs (load l p) ∧
  (∀ k, is_Some (exist l !! k) -> is_Some (exist (load l p) !! k)) ∧
  accounted fm origs (load l p).
Proof.
  intros Hwf Hp Hlp Hfm Hacc. rewrite load_unfold.
  rewrite (deref_lookup _ _ _ Hlp).
  pose proof (checkOwners_ok (exist l) p (GetOwnerReferences o) (pending l))
    as (H1 & H2 & H3 & H4).
  destruct (checkOwners _ _ _ _) as [allExist pd]. cbn [fst snd] in *.
  destruct allExist; cbn [negb].
  - (* every owner is known: the object is applied *)
    destruct (H1 eq_refl) as (-> & Hall). rewrite setPending_id.
    assert (Ht : touches p l (applyAndRecord (updateOwnerReferences l p) p).1).
    { eapply touches_trans; [apply touches_updateOwnerReferences|].
      apply applyAndRecord_touches. }
    pose proof (applyAndRecord_ok (updateOwnerReferences l p) p) as Hok.
    destruct (applyAndRecord _ _) as [l2 ok]. cbn [fst] in Ht.
    assert (Hwf2 : wellFormed fm origs l2)
      by (by eapply wellFormed_touches).
    destruct Ht as (_ & Hpd & _ & _ & _ & _ & _ & _ & Hm & _).
    assert (Hacc2 : accounted fm origs l2).
    { intros q oq r Hq Hfq Hr. destruct (decide (q = p)) as [->|Hne].
      - left. apply Hm. assert (oq = o) as -> by congruence. by apply Hall.
      - rewrite Hpd. destruct (Hacc _ _ _ Hne Hq Hfq Hr) as [?|?];
          [left; by apply Hm|by right]. }
    destruct ok; cbn [negb]; [|done].
    specialize (Hok _ eq_refl).
    destruct (cascade_wellFormed _ _ _ _ Hwf2 Hok) as (Hwf3 & Hpd3 & Hm3).
    split; [done|]. split; [intros k Hk; by apply Hm3, Hm|].
    intros q oq r Hq Hfq Hr.
    destruct (Hacc2 _ _ _ Hq Hfq Hr) as [?|Hqueued]; [left; by apply Hm3|].
    destruct (decide (uniqueKeyFromOwnerReference r
                      = uniqueKeyFromMetadata (deref l2 p))) as [Heq|Hne].
    + left. rewrite Heq. by apply Hm3.
    + right. by rewrite Hpd3.
  - (* some owner is missing: the object is queued *)
    split; [|split; [done|]].
    + destruct Hwf as [Hf Hl Ho Hc Hpd Hx]. split; try done.
      intros k ps q Hk Hq. cbn in Hk.
      destruct (H3 _ _ _ Hk Hq) as [(ps0 & Hk0 & Hq0)|(-> & r & Hr & <-)].
      * by eapply Hpd.
      * exists o. split; [done|]. split; [done|]. by exists r.
    + intros q oq r Hq Hfq Hr. cbn. destruct (decide (q = p)) as [->|Hne].
      * assert (oq = o) as -> by congruence. by apply H4.
      * destruct (Hacc _ _ _ Hne Hq Hfq Hr) as [?|(ps & Hk & Hqs)];
          [by left|]. right. by eapply H2.
Qed.

(** ** [visit] and the decoder *)

Lemma allocate_wellFormed fm origs l o :
  wellFormed fm origs l -> wellFormed fm (origs ++ [o]) (allocate o l).
Proof.
  intros [Hf Hl Ho Hc Hp Hx]. split; try done.
  - cbn. rewrite !length_app. cbn. lia.
  - intros p o' Hpo. cbn.
    destruct (decide (p < length origs)) as [Hlt|Hge].
    + rewrite lookup_app_l in Hpo by done.
      destruct (Ho _ _ Hpo) as (o1 & Hl1 & Hr1 & Hcase). exists o1.
      split; [|done]. rewrite lookup_app_l; [done|]. by rewrite Hl.
    + rewrite lookup_app_r in Hpo by lia.
      apply list_lookup_singleton_Some in Hpo as [Hz ->]. exists o'.
      split; [|split; [apply reworked_refl|by left]].
      rewrite lookup_app_r by lia. rewrite Hl, Hz. done.
  - intros e p obj res He Hcall.
    destruct (Hc _ _ _ _ He Hcall) as (o1 & Hp1 & ?). exists o1.
    split; [|done]. by apply lookup_app_l_Some.
  - intros k ps p Hk Hin. destruct (Hp _ _ _ Hk Hin) as (o1 & Hp1 & ?).
    exists o1. split; [|done]. by apply lookup_app_l_Some.
Qed.

Lemma visit_error l p l' err :
  visit l p = (l', Some err) ->
  err = ErrContext ∧ (ctxErr (world l)).2 = true.
Proof.
  unfold visit. destruct (ctxErr (world l)) as [w [|]]; cbn.
  - by intros [= <- <-].
  - by destruct (negb _).
Qed.

Lemma visit_wellFormed fm origs l o :
  wellFormed fm origs l -> accounted fm origs l ->
  let r := visit (allocate o l) (length (objects l)) in
  wellFormed fm (origs ++ [o]) r.1 ∧
  (∀ k, is_Some (exist l !! k) -> is_Some (exist r.1 !! k)) ∧
  (r.2 = None -> accounted fm (origs ++ [o]) r.1).
Proof.
  intros Hwf Hacc. pose proof (allocate_wellFormed _ _ _ o Hwf) as Hwf1.
  assert (Hlen : length (objects l) = length origs) by apply Hwf.
  assert (Hp : (origs ++ [o]) !! length (objects l) = Some o).
  { rewrite Hlen, lookup_app_r by lia. by rewrite Nat.sub_diag. }
  assert (Hlp : objects (allocate o l) !! length (objects l) = Some o).
  { cbn. rewrite lookup_app_r by lia. by rewrite Nat.sub_diag. }
  assert (Hold : ∀ q oq, q ≠ length (objects l) ->
            (origs ++ [o]) !! q = Some oq -> origs !! q = Some oq).
  { intros q oq Hne Hq. apply lookup_app_Some in Hq as [?|[? Hq]]; [done|].
    apply list_lookup_singleton_Some in Hq as [? _]. lia. }
  unfold visit. destruct (ctxErr (world (allocate o l))) as [w cancelled].
  destruct cancelled; cbn [fst snd].
  { split; [by apply wellFormed_setWorld|]. by split. }
  unfold filter.
  rewrite (deref_lookup (setWorld w (allocate o l)) _ _ Hlp).
  replace (filterMap (setWorld w (allocate o l))) with fm
    by (symmetry; apply Hwf).
  destruct (decide (objGroupKind o ∈ fm)) as [Hin|Hout].
  - rewrite bool_decide_true by done. cbn [negb fst snd].
    destruct (load_wellFormed fm (origs ++ [o]) (setWorld w (allocate o l))
                (length (objects l)) o) as (Hwf2 & Hm & Hacc2);
      try done; [by apply wellFormed_setWorld|].
    intros q oq r Hne Hq Hfq Hr. by eapply Hacc, Hr; [apply Hold|].
  - rewrite bool_decide_false by done. cbn [negb fst snd].
    split; [by apply wellFormed_emit_log, wellFormed_setWorld|].
    split; [done|]. intros _ q oq r Hq Hfq Hr. cbn.
    destruct (decide (q = length (objects l))) as [->|Hne].
    + assert (oq = o) as -> by congruence. done.
    + by eapply Hacc, Hr; [apply Hold|].
Qed.

Lemma objectsOf_nil : objectsOf [] = [].
Proof. done. Qed.

Lemma objectsOf_cons o docs :
  objectsOf (DocObject o :: docs) = o :: objectsOf docs.
Proof. done. Qed.

Lemma objectsOf_malformed docs :
  objectsOf (DocMalformed :: docs) = objectsOf docs.
Proof. done. Qed.

Lemma Decode_wellFormed fm docs : forall origs l,
  wellFormed fm origs l -> accounted fm origs l ->
  let r := Decode docs l in
  ∃ n, wellFormed fm (origs ++ take n (objectsOf docs)) r.1 ∧
       (∀ k, is_Some (exist l !! k) -> is_Some (exist r.1 !! k)) ∧
       (r.2 = None ->
          take n (objectsOf docs) = objectsOf docs ∧
          accounted fm (origs ++ objectsOf docs) r.1).
Proof.
  induction docs as [|[o|] docs IH]; intros origs l Hwf Hacc; cbn [Decode fst snd].
  - exists 0. rewrite take_0, objectsOf_nil, !app_nil_r.
    by do 2 (split; [done|]).
  - rewrite objectsOf_cons.
    destruct (visit_wellFormed fm origs l o Hwf Hacc) as (Hwf1 & Hm1 & Hacc1).
    destruct (visit (allocate o l) (length (objects l))) as [l1 [err|]];
      cbn [fst snd] in *.
    + exists 1. cbn [take]. rewrite take_0. by do 2 (split; [done|]).
    + destruct (IH _ _ Hwf1 (Hacc1 eq_refl)) as (n & Hwf2 & Hm2 & Hacc2).
      exists (S n). cbn [take]. rewrite <- app_assoc in Hwf2.
      split; [done|]. split; [intros k Hk; by apply Hm2, Hm1|].
      intros Hnone. destruct (Hacc2 Hnone) as [Htake Ha].
      rewrite Htake. split; [done|]. by rewrite <- app_assoc in Ha.
  - exists 0. rewrite take_0, app_nil_r. cbn [fst snd].
    by do 2 (split; [done|]).
Qed.

Lemma Decode_app docs1 : forall docs2 l,
  Decode (docs1 ++ docs2) l =
    match Decode docs1 l with
    | (l1, None) => Decode docs2 l1
    | failed => failed
    end.
Proof.
  induction docs1 as [|[o|] docs1 IH]; intros docs2 l; cbn [Decode app];
    [done| |done].
  destruct (visit _ _) as [l1 [err|]]; [done|]. apply IH.
Qed.

Lemma Decode_error docs : forall l l' err,
  Decode docs l = (l', Some err) ->
  err = ErrContext ∨ (err = ErrMalformed ∧ DocMalformed ∈ docs).
Proof.
  induction docs as [|[o|] docs IH]; intros l l' err; cbn [Decode].
  - done.
  - destruct (visit _ _) as [l1 [err1|]] eqn:Hv.
    + intros [= <- <-]. left. by destruct (visit_error _ _ _ _ Hv).
    + intros Hd. destruct (IH _ _ _ Hd) as [?|[? ?]]; [by left|].
      right. split; [done|]. by right.
  - intros [= <- <-]. right. split; [done|]. by left.
Qed.

(** ** What the operations leave alone *)

Lemma foldl_cascadeStep_frame ps : forall l,
  let l' := foldl cascadeStep l ps in
  pending l' = pending l ∧ length (objects l') = length (objects l) ∧
  filterMap l' = filterMap l.
Proof.
  induction ps as [|q ps IH]; intros l; [done|]. cbn [foldl].
  destruct (cascadeStep_touches l q) as (Hf & Hp & Hl & _).
  destruct (IH (cascadeStep l q)) as (Hp' & Hl' & Hf').
  repeat split; congruence.
Qed.

Lemma cascade_frame l key :
  length (objects (cascade l key)) = length (objects l) ∧
  filterMap (cascade l key) = filterMap l ∧
  ∀ k, k ≠ key -> pending (cascade l key) !! k = pending l !! k.
Proof.
  unfold cascade. destruct (pending l !! key) as [ps|]; [|done].
  destruct (foldl_cascadeStep_frame ps l) as (Hp & Hl & Hf). cbn.
  repeat split; try done. intros k Hk. rewrite lookup_delete_ne by done.
  by rewrite Hp.
Qed.

Lemma load_frame l p :
  length (objects (load l p)) = length (objects l) ∧
  filterMap (load l p) = filterMap l.
Proof.
  rewrite load_unfold. destruct (checkOwners _ _ _ _) as [allExist pd].
  destruct allExist; cbn [negb]; [|done].
  assert (Ht : touches p (setPending pd l)
            (applyAndRecord (updateOwnerReferences (setPending pd l) p) p).1).
  { eapply touches_trans; [apply touches_updateOwnerReferences|].
    apply applyAndRecord_touches. }
  destruct (applyAndRecord _ _) as [l2 ok].
  destruct Ht as (Hf & _ & Hl & _). cbn in Hf, Hl.
  destruct ok; cbn [negb]; [|done].
  destruct (cascade_frame l2 (uniqueKeyFromMetadata (deref l2 p)))
    as (Hl' & Hf' & _).
  split; congruence.
Qed.

Lemma visit_length l p l' :
  visit l p = (l', None) -> length (objects l') = length (objects l).
Proof.
  unfold visit. destruct (ctxErr _) as [w [|]]; [done|].
  destruct (negb _); intros [= <-]; [done|].
  apply (load_frame (setWorld w l) p).
Qed.

Lemma Decode_length docs : forall l l',
  Decode docs l = (l', None) ->
  length (objects l') = length (objects l) + length docs.
Proof.
  induction docs as [|[o|] docs IH]; intros l l'; cbn [Decode].
  - intros [= <-]. cbn. lia.
  - destruct (visit _ _) as [l1 [err1|]] eqn:Hv; [done|].
    intros Hd. rewrite (IH _ _ Hd), (visit_length _ _ _ Hv). cbn.
    rewrite length_app. cbn. lia.
  - done.
Qed.

(** ** [Load] *)

Lemma report_frame qs : forall l,
  let l' := foldl (fun l q => emit (LogSkippedMissingOwner q) l) l qs in
  filterMap l' = filterMap l ∧ exist l' = exist l ∧ pending l' = pending l ∧
  objects l' = objects l ∧ world l' = world l ∧
  trace l' = trace l ++ (LogSkippedMissingOwner <$> qs).
Proof.
  induction qs as [|q qs IH]; intros l; cbn [foldl fmap list_fmap].
  { by rewrite app_nil_r. }
  destruct (IH (emit (LogSkippedMissingOwner q) l))
    as (Hf & Hx & Hp & Ho & Hw & Ht).
  repeat split; try done. rewrite Ht. cbn. by rewrite <- app_assoc.
Qed.

Lemma wellFormed_report fm origs l qs :
  wellFormed fm origs l ->
  wellFormed fm origs
    (foldl (fun l q => emit (LogSkippedMissingOwner q) l) l qs).
Proof.
  revert l. induction qs as [|q qs IH]; intros l Hwf; [done|].
  cbn [foldl]. apply IH. by apply wellFormed_emit_log.
Qed.

Lemma Load_ok l docs l' :
  Load l docs = (l', None) ->
  ∃ l1, Decode docs l = (l1, None) ∧
        filterMap l' = filterMap l1 ∧ exist l' = exist l1 ∧
        pending l' = pending l1 ∧ objects l' = objects l1 ∧
        trace l' = trace l1
                   ++ (LogSkippedMissingOwner <$> skipped (pending l1)).
Proof.
  unfold Load. destruct (Decode docs l) as [l1 [err|]]; [done|].
  intros [= <-]. exists l1. split; [done|].
  destruct (report_frame (skipped (pending l1)) l1) as (?&?&?&?&?&?).
  by repeat split.
Qed.

Lemma Load_failed l docs l' err :
  Load l docs = (l', Some err) ->
  ∃ cause, Decode docs l = (l', Some cause) ∧ err = ErrFailedToDecode cause.
Proof.
  unfold Load. destruct (Decode docs l) as [l1 [cause|]]; [|done].
  intros [= <- <-]. by exists cause.
Qed.

Lemma newLoader_wellFormed fm w :
  wellFormed fm [] (newLoader fm w) ∧ accounted fm [] (newLoader fm w).
Proof.
  split; [split; try done|].
  - intros e p obj res He. by apply elem_of_nil in He.
  - intros p o r Hp. done.
Qed.

(** The invariant holds when [Load] is over, for the objects that were
    decoded; if [Load] did not fail, these are all the objects of the
    stream and each of their owners is accounted for. *)
Lemma Load_wellFormed fm w docs :
  let r := Load (newLoader fm w) docs in
  ∃ n, wellFormed fm (take n (objectsOf docs)) r.1 ∧
       (r.2 = None -> take n (objectsOf docs) = objectsOf docs ∧
                      accounted fm (objectsOf docs) r.1).
Proof.
  destruct (newLoader_wellFormed fm w) as [Hwf Hacc].
  destruct (Decode_wellFormed fm docs [] _ Hwf Hacc) as (n & Hwf1 & _ & Hacc1).
  exists n. unfold Load.
  destruct (Decode docs (newLoader fm w)) as [l1 [err|]]; cbn [fst snd] in *.
  - by split.
  - split; [by apply wellFormed_report|]. intros _.
    destruct (Hacc1 eq_refl) as [Htake Ha]. split; [done|].
    destruct (report_frame (skipped (pending l1)) l1) as (_&Hx&Hp&_).
    intros p o r Hp' Hf Hr. rewrite Hx, Hp. by eapply Ha.
Qed.

(** ** Filtering *)

Lemma objectsOf_app docs1 docs2 :
  objectsOf (docs1 ++ docs2) = objectsOf docs1 ++ objectsOf docs2.
Proof. apply omap_app. Qed.

Lemma wellFormed_filtered fm origs full l p o :
  wellFormed fm origs l -> origs `prefix_of` full ->
  full !! p = Some o -> objGroupKind o ∉ fm ->
  ¬ submitted p (trace l) ∧ (∀ k ps, pending l !! k = Some ps -> p ∉ ps).
Proof.
  intros Hwf Hpre Hp Hout. split.
  - intros (e & obj & res & He & Hc).
    destruct (wf_calls _ _ _ Hwf _ _ _ _ He Hc) as (o' & Hp' & Hin & _).
    eapply prefix_lookup_Some in Hp'; [|done]. congruence.
  - intros k ps Hk Hin.
    destruct (wf_pending _ _ _ Hwf _ _ _ Hk Hin) as (o' & Hp' & Hfm & _).
    eapply prefix_lookup_Some in Hp'; [|done]. congruence.
Qed.

(** C5.  An object whose (group, kind) is not in the filter set is never
    passed to the write client and is never in the pending queue,
    whatever its owner references are: this holds after every document
    of the stream and when [Load] is over.  ([p] is the pointer of the
    object: the object is the [p]-th one of the stream.) *)
Theorem filtered_object_never_written_nor_queued
    (fm : gset GroupKind) (w : W) (docs : list Document) p o :
  objectsOf docs !! p = Some o ->
  objGroupKind o ∉ fm ->
  (∀ docs1 docs2, docs = docs1 ++ docs2 ->
     let l := (Decode docs1 (newLoader fm w)).1 in
     ¬ submitted p (trace l) ∧
     (∀ k ps, pending l !! k = Some ps -> p ∉ ps)) ∧
  (let l := (Load (newLoader fm w) docs).1 in
   ¬ submitted p (trace l) ∧
   (∀ k ps, pending l !! k = Some ps -> p ∉ ps)).
Proof.
  intros Hp Hout. split.
  - intros docs1 docs2 -> l.
    destruct (newLoader_wellFormed fm w) as [Hwf Hacc].
    destruct (Decode_wellFormed fm docs1 [] _ Hwf Hacc) as (n & Hwf1 & _).
    eapply wellFormed_filtered; [exact Hwf1| |exact Hp|exact Hout].
    rewrite objectsOf_app. cbn [app].
    etrans; [apply prefix_take|]. by apply prefix_app_r.
  - intros l. destruct (Load_wellFormed fm w docs) as (n & Hwf & _).
    eapply wellFormed_filtered; [exact Hwf|apply prefix_take|done..].
Qed.

(** ** Failures *)

Lemma deref_assign_valid l p o :
  p < length (objects l) -> deref (assign p o l) p = o.
Proof. intros Hlt. unfold deref. cbn. by rewrite list_lookup_insert_eq. Qed.

Lemma Load_error l docs err :
  (Load l docs).2 = Some err ->
  err = ErrFailedToDecode ErrContext ∨
  (err = ErrFailedToDecode ErrMalformed ∧ DocMalformed ∈ docs).
Proof.
  destruct (Load l docs) as [l' r] eqn:HL. cbn. intros ->.
  destruct (Load_failed _ _ _ _ HL) as (cause & Hd & ->).
  destruct (Decode_error _ _ _ _ Hd) as [->|[-> ?]]; [by left|by right].
Qed.

Lemma wellFormedDoc_not_malformed docs :
  Forall wellFormedDoc docs -> DocMalformed ∉ docs.
Proof.
  intros Hall Hin. rewrite Forall_forall in Hall. by apply (Hall _ Hin).
Qed.


(** ** The cascade and objects that are not ready *)


(** ** The map of resolved identities *)

Lemma reworked_key o o' :
  (∀ o, uniqueKeyFromMetadata (clearUnstructured o) = uniqueKeyFromMetadata o) ->
  reworked o o' -> uniqueKeyFromMetadata o' = uniqueKeyFromMetadata o.
Proof. intros Hclear Hr. induction Hr; [done|done|]. by rewrite Hclear. Qed.

Lemma Load_exist l docs : exist (Load l docs).1 = exist (Decode docs l).1.
Proof.
  unfold Load. destruct (Decode docs l) as [l1 [err|]]; [done|]. cbn [fst].
  by destruct (report_frame (skipped (pending l1)) l1) as (_ & ? & _).
Qed.

(** C10.  During a load the map [exist] only grows: a key that is in the
    map after some documents of the stream is still in it when [Load] is
    over.  Every entry of the map comes from a successful create or
    update: it maps the key of an object of the stream, as it was
    submitted, to the uid of the object the client returned; when
    [clearUnstructured] leaves the identity (API version, kind, name,
    uid) of an object alone, that key is the identity the object had in
    the stream. *)
Theorem exist_append_only (fm : gset GroupKind) (w : W) :
  (∀ docs1 docs2 k,
     is_Some (exist (Decode docs1 (newLoader fm w)).1 !! k) ->
     is_Some (exist (Load (newLoader fm w) (docs1 ++ docs2)).1 !! k)) ∧
  (∀ docs k u,
     let l := (Load (newLoader fm w) docs).1 in
     exist l !! k = Some u ->
     ∃ p o obj,
       objectsOf docs !! p = Some o ∧ reworked o obj ∧
       succeeded p obj u (trace l) ∧ k = uniqueKeyFromMetadata obj ∧
       ((∀ o, uniqueKeyFromMetadata (clearUnstructured o)
              = uniqueKeyFromMetadata o) ->
        k = uniqueKeyFromMetadata o)).
Proof.
  split.
  - intros docs1 docs2 k Hk. rewrite Load_exist, Decode_app.
    destruct (newLoader_wellFormed fm w) as [Hwf Hacc].
    destruct (Decode_wellFormed fm docs1 [] _ Hwf Hacc)
      as (n & Hwf1 & _ & Hacc1).
    destruct (Decode docs1 (newLoader fm w)) as [l1 [err|]];
      cbn [fst snd] in *; [done|].
    destruct (Hacc1 eq_refl) as [Htake Ha]. rewrite Htake in Hwf1.
    destruct (Decode_wellFormed fm docs2 _ _ Hwf1 Ha) as (_ & _ & Hm & _).
    by apply Hm.
  - intros docs k u l Hku.
    destruct (Load_wellFormed fm w docs) as (n & Hwf & _). fold l in Hwf.
    destruct (wf_exist _ _ _ Hwf _ _ Hku) as (p & obj & Hs & ->).
    destruct Hs as (e & newObj & He & Hc & ->).
    destruct (wf_calls _ _ _ Hwf _ _ _ _ He Hc) as (o & Hp & _ & _ & Hr).
    exists p, o, obj. split.
    { eapply prefix_lookup_Some; [exact Hp|apply prefix_take]. }
    split; [done|]. split; [by exists e, newObj|]. split; [done|].
    intros Hclear. by apply reworked_key.
Qed.

(** ** Objects whose owner never resolves *)

Lemma elem_of_concat {A} (x : A) (ls : list (list A)) xs :
  xs ∈ ls -> x ∈ xs -> x ∈ concat ls.
Proof.
  induction ls as [|ys ls IH]; intros Hin Hx; [by apply elem_of_nil in Hin|].
  cbn. apply elem_of_app. apply elem_of_cons in Hin as [->|Hin]; [by left|].
  right. by apply IH.
Qed.

Lemma elem_of_skipped (pd : gmap uniqueKey (list nat)) k ps p :
  pd !! k = Some ps -> p ∈ ps -> p ∈ skipped pd.
Proof.
  intros Hk Hp. unfold skipped. eapply elem_of_concat; [|exact Hp].
  apply list_elem_of_fmap. exists (k, ps). split; [done|].
  by apply elem_of_map_to_list.
Qed.

Lemma reports_elem_of p tr :
  LogSkippedMissingOwner p ∈ tr -> 1 ≤ reports p tr.
Proof.
  intros Hin. unfold reports.
  assert (Hf : LogSkippedMissingOwner p
               ∈ base.filter (fun e => e = LogSkippedMissingOwner p) tr)
    by (by apply list_elem_of_filter).
  destruct (base.filter _ tr); [by apply elem_of_nil in Hf|cbn; lia].
Qed.

(** ** Counting the report *)

Lemma occurrences_app p ps qs :
  occurrences p (ps ++ qs) = occurrences p ps + occurrences p qs.
Proof. unfold occurrences. by rewrite filter_app, length_app. Qed.

Lemma occurrences_not_elem p ps : p ∉ ps -> occurrences p ps = 0.
Proof.
  intros Hp. unfold occurrences.
  induction ps as [|q ps IH]; [done|].
  apply not_elem_of_cons in Hp as [Hne Hp].
  rewrite filter_cons_False by congruence. by apply IH.
Qed.

Lemma reports_app p tr tr' :
  reports p (tr ++ tr') = reports p tr + reports p tr'.
Proof. unfold reports. by rewrite filter_app, length_app. Qed.

Lemma reports_fmap p qs :
  reports p (LogSkippedMissingOwner <$> qs) = occurrences p qs.
Proof.
  unfold reports, occurrences. induction qs as [|q qs IH]; [done|].
  cbn [fmap list_fmap]. destruct (decide (q = p)) as [->|Hne].
  - rewrite !filter_cons_True by done. cbn. by rewrite IH.
  - rewrite !filter_cons_False by congruence. done.
Qed.

Lemma reports_emit p e l :
  (∀ q, e ≠ LogSkippedMissingOwner q) ->
  reports p (trace (emit e l)) = reports p (trace l).
Proof.
  intros He. unfold emit. cbn [trace]. rewrite reports_app.
  unfold reports at 2. rewrite filter_cons_False by apply He. cbn. lia.
Qed.

(** Only the final loop of [Load] reports missing owners. *)
Lemma apply_reports l p q :
  reports q (trace (apply l p).1) = reports q (trace l).
Proof.
  unfold apply.
  destruct (ResourceFor _ _) as [w1 [gvr|]]; cbn [fst].
  2: { by rewrite reports_emit. }
  destruct (Create _ _ _ _) as [w2 [newObj|err]]; cbn [fst].
  { rewrite reports_emit by done. cbn [trace setWorld].
    by rewrite reports_emit. }
  destruct (IsAlreadyExists err); cbn [negb fst].
  2: { rewrite reports_emit by done. cbn [trace setWorld].
       by rewrite reports_emit. }
  destruct (Update _ _ _ _) as [w3 [newObj|err']]; cbn [fst].
  { rewrite reports_emit by done. cbn [trace setWorld].
    rewrite reports_emit by done. cbn [trace setWorld].
    by rewrite reports_emit. }
  destruct (IsConflict err'); cbn [fst];
    (rewrite reports_emit by done; cbn [trace setWorld];
     rewrite reports_emit by done; cbn [trace setWorld];
     by rewrite reports_emit).
Qed.

Lemma updateOwnerReferences_trace l p :
  trace (updateOwnerReferences l p) = trace l.
Proof.
  unfold updateOwnerReferences. by destruct (GetOwnerReferences _).
Qed.

Lemma applyAndRecord_reports l p q :
  reports q (trace (applyAndRecord l p).1) = reports q (trace l).
Proof.
  unfold applyAndRecord. pose proof (apply_reports l p q) as Ha.
  by destruct (apply l p) as [l1 [newObj|]].
Qed.

Lemma cascadeStep_reports l p q :
  reports q (trace (cascadeStep l p)) = reports q (trace l).
Proof.
  unfold cascadeStep. destruct (_ || _); [|done].
  by rewrite applyAndRecord_reports, updateOwnerReferences_trace.
Qed.

Lemma cascade_reports l key q :
  reports q (trace (cascade l key)) = reports q (trace l).
Proof.
  unfold cascade. destruct (pending l !! key) as [ps|]; [|done].
  cbn [trace setPending]. revert l. induction ps as [|p ps IH]; intros l;
    [done|].
  cbn [foldl]. by rewrite IH, cascadeStep_reports.
Qed.

Lemma load_reports l p q : reports q (trace (load l p)) = reports q (trace l).
Proof.
  rewrite load_unfold. destruct (checkOwners _ _ _ _) as [allExist pd].
  destruct allExist; cbn [negb]; [|done].
  pose proof (applyAndRecord_reports
                (updateOwnerReferences (setPending pd l) p) p q) as Ha.
  rewrite updateOwnerReferences_trace in Ha. cbn [trace setPending] in Ha.
  destruct (applyAndRecord _ _) as [l2 ok]. cbn [fst] in Ha.
  destruct ok; cbn [negb]; [|done]. by rewrite cascade_reports.
Qed.

Lemma visit_reports l p q :
  reports q (trace (visit l p).1) = reports q (trace l).
Proof.
  unfold visit. destruct (ctxErr _) as [w [|]]; cbn [fst]; [done|].
  destruct (negb _); cbn [fst].
  - by rewrite reports_emit.
  - by rewrite load_reports.
Qed.

Lemma Decode_reports docs q : forall l,
  reports q (trace (Decode docs l).1) = reports q (trace l).
Proof.
  induction docs as [|[o|] docs IH]; intros l; cbn [Decode]; [done| |done].
  pose proof (visit_reports (allocate o l) (length (objects l)) q) as Hv.
  destruct (visit _ _) as [l1 [err|]]; cbn [fst] in *; [done|].
  by rewrite IH, Hv.
Qed.

(** When [Load] does not fail, an object is reported once for each place
    it still has in the pending queue. *)
Lemma Load_reports fm w docs l p :
  Load (newLoader fm w) docs = (l, None) ->
  reports p (trace l) = occurrences p (skipped (pending l)).
Proof.
  intros HL. destruct (Load_ok _ _ _ HL) as (l1 & Hd & _ & _ & Hpd & _ & Htr).
  rewrite Htr, reports_app, reports_fmap, Hpd.
  pose proof (Decode_reports docs p (newLoader fm w)) as Hq.
  rewrite Hd in Hq. cbn [fst] in Hq. rewrite Hq. done.
Qed.

(** ** At most one place in the queue per owner reference *)

Lemma occurrences_singleton p q :
  occurrences q [p] = if decide (q = p) then 1 else 0.
Proof.
  unfold occurrences. destruct (decide (q = p)) as [->|Hne].
  - by rewrite filter_cons_True.
  - rewrite filter_cons_False by congruence. done.
Qed.

Lemma enqueue_default key p (pd : gmap uniqueKey (list nat)) k :
  default [] (enqueue key p pd !! k) =
    if decide (k = key) then default [] (pd !! key) ++ [p]
    else default [] (pd !! k).
Proof.
  destruct (decide (k = key)) as [->|Hne].
  - by rewrite enqueue_lookup_eq.
  - by rewrite enqueue_lookup_ne.
Qed.

Lemma checkOwners_occurrences (ex : gmap uniqueKey string) p refs k q :
  forall b (pd : gmap uniqueKey (list nat)),
  let r := foldl (fun acc ownerReference =>
                    let key := uniqueKeyFromOwnerReference ownerReference in
                    match ex !! key with
                    | Some _ => acc
                    | None => (false, enqueue key p acc.2)
                    end) (b, pd) refs in
  occurrences q (default [] (r.2 !! k))
  ≤ occurrences q (default [] (pd !! k))
    + (if decide (q = p)
       then length (base.filter
                      (fun r => uniqueKeyFromOwnerReference r = k) refs)
       else 0).
Proof.
  induction refs as [|ref refs IH]; intros b pd; cbn [foldl].
  { cbn. lia. }
  destruct (ex !! uniqueKeyFromOwnerReference ref) as [uid|].
  - etrans; [apply IH|]. apply Nat.add_le_mono_l.
    destruct (decide (q = p)); [|done].
    destruct (decide (uniqueKeyFromOwnerReference ref = k)).
    + rewrite filter_cons_True by done. cbn. lia.
    + by rewrite filter_cons_False.
  - cbn [snd]. etrans; [apply IH|]. rewrite enqueue_default.
    destruct (decide (k = uniqueKeyFromOwnerReference ref)) as [->|Hne].
    + rewrite occurrences_app, occurrences_singleton.
      rewrite filter_cons_True by done. cbn [length].
      destruct (decide (q = p)); lia.
    + rewrite filter_cons_False by congruence. done.
Qed.

Lemma checkOwners_count (ex : gmap uniqueKey string) p refs
    (pd : gmap uniqueKey (list nat)) k q :
  occurrences q (default [] ((checkOwners ex p refs pd).2 !! k))
  ≤ occurrences q (default [] (pd !! k))
    + (if decide (q = p)
       then length (base.filter
                      (fun r => uniqueKeyFromOwnerReference r = k) refs)
       else 0).
Proof. apply (checkOwners_occurrences ex p refs k q true pd). Qed.

Lemma bounded_pending origs l l' :
  pending l' = pending l -> bounded origs l -> bounded origs l'.
Proof. intros Hp Hb k p. rewrite Hp. apply Hb. Qed.

Lemma bounded_more origs more l :
  bounded origs l -> bounded (origs ++ more) l.
Proof.
  intros Hb k p. specialize (Hb k p).
  destruct (origs !! p) as [o|] eqn:Hp.
  - by rewrite (lookup_app_l_Some _ _ _ _ Hp).
  - cbn in Hb. lia.
Qed.

Lemma bounded_cascade origs l key :
  bounded origs l -> bounded origs (cascade l key).
Proof.
  intros Hb k p. destruct (decide (k = key)) as [->|Hne].
  - rewrite cascade_pending_key. cbn. lia.
  - destruct (cascade_frame l key) as (_ & _ & Hp). rewrite Hp by done.
    apply Hb.
Qed.

Lemma load_bounded origs l p o :
  bounded origs l -> origs !! p = Some o -> objects l !! p = Some o ->
  (∀ k, occurrences p (default [] (pending l !! k)) = 0) ->
  bounded origs (load l p).
Proof.
  intros Hb Hp Hlp Hfresh. rewrite load_unfold.
  rewrite (deref_lookup _ _ _ Hlp).
  pose proof (checkOwners_ok (exist l) p (GetOwnerReferences o) (pending l))
    as (H1 & _).
  pose proof (checkOwners_count (exist l) p (GetOwnerReferences o)
                (pending l)) as Hocc.
  destruct (checkOwners _ _ _ _) as [allExist pd]. cbn [fst snd] in *.
  destruct allExist; cbn [negb].
  - destruct (H1 eq_refl) as [-> _]. rewrite setPending_id.
    assert (Ht : touches p l (applyAndRecord (updateOwnerReferences l p) p).1).
    { eapply touches_trans; [apply touches_updateOwnerReferences|].
      apply applyAndRecord_touches. }
    destruct (applyAndRecord _ _) as [l2 ok]. cbn [fst] in Ht.
    destruct Ht as (_ & Hpd & _).
    assert (bounded origs l2) by (by eapply bounded_pending).
    destruct ok; cbn [negb]; [|done]. by apply bounded_cascade.
  - intros k q. cbn [pending setPending]. etrans; [apply Hocc|].
    destruct (decide (q = p)) as [->|Hne].
    + rewrite Hfresh, Hp. cbn. done.
    + rewrite Nat.add_0_r. apply Hb.
Qed.

Lemma visit_bounded origs l o :
  bounded origs l -> length (objects l) = length origs ->
  bounded (origs ++ [o]) (visit (allocate o l) (length (objects l))).1.
Proof.
  intros Hb Hlen.
  assert (Hb1 : bounded (origs ++ [o]) (allocate o l)).
  { apply bounded_more. by eapply bounded_pending. }
  unfold visit. destruct (ctxErr _) as [w [|]]; cbn [fst].
  { by eapply bounded_pending. }
  destruct (negb _); cbn [fst].
  { by eapply bounded_pending. }
  eapply load_bounded.
  - by eapply bounded_pending.
  - rewrite Hlen, lookup_app_r by lia. by rewrite Nat.sub_diag.
  - cbn. rewrite lookup_app_r by lia. by rewrite Nat.sub_diag.
  - intros k. specialize (Hb k (length (objects l))).
    rewrite Hlen, lookup_ge_None_2 in Hb by lia. cbn in *.
    rewrite Hlen. lia.
Qed.

Lemma Decode_bounded docs : forall origs l,
  bounded origs l -> length (objects l) = length origs ->
  bounded (origs ++ objectsOf docs) (Decode docs l).1.
Proof.
  induction docs as [|[o|] docs IH]; intros origs l Hb Hlen; cbn [Decode].
  - by apply bounded_more.
  - rewrite objectsOf_cons.
    pose proof (visit_bounded origs l o Hb Hlen) as Hb1.
    destruct (visit _ _) as [l1 [err|]] eqn:Hv; cbn [fst] in *.
    + replace (origs ++ o :: objectsOf docs)
        with ((origs ++ [o]) ++ objectsOf docs) by (by rewrite <- app_assoc).
      by apply bounded_more.
    + replace (origs ++ o :: objectsOf docs)
        with ((origs ++ [o]) ++ objectsOf docs) by (by rewrite <- app_assoc).
      apply IH; [done|]. rewrite (visit_length _ _ _ Hv). cbn.
      rewrite !length_app. cbn. lia.
  - by apply bounded_more.
Qed.

Lemma occurrences_concat_le (c : uniqueKey -> nat) p
    (L : list (uniqueKey * list nat)) :
  (∀ k ps, (k, ps) ∈ L -> occurrences p ps ≤ c k) ->
  occurrences p (concat L.*2) ≤ sum_list (c <$> L.*1).
Proof.
  induction L as [|[k ps] L IH]; intros Hle; [done|].
  cbn [fmap list_fmap concat sum_list fst snd]. rewrite occurrences_app.
  apply Nat.add_le_mono; [apply Hle; by left|].
  apply IH. intros k' ps' Hin. apply Hle. by right.
Qed.

Lemma sum_keys_absent (ks : list uniqueKey) r refs :
  uniqueKeyFromOwnerReference r ∉ ks ->
  sum_list ((fun k => length (base.filter
              (fun r => uniqueKeyFromOwnerReference r = k) (r :: refs))) <$> ks)
  = sum_list ((fun k => length (base.filter
              (fun r => uniqueKeyFromOwnerReference r = k) refs)) <$> ks).
Proof.
  induction ks as [|k ks IH]; intros Hnot; [done|].
  apply not_elem_of_cons in Hnot as [Hne Hnot]. cbn [fmap list_fmap sum_list].
  rewrite filter_cons_False by done. by rewrite IH.
Qed.

Lemma sum_keys_cons (ks : list uniqueKey) r refs :
  NoDup ks ->
  sum_list ((fun k => length (base.filter
              (fun r => uniqueKeyFromOwnerReference r = k) (r :: refs))) <$> ks)
  ≤ 1 + sum_list ((fun k => length (base.filter
              (fun r => uniqueKeyFromOwnerReference r = k) refs)) <$> ks).
Proof.
  induction 1 as [|k ks Hnot Hnd IH]; [cbn; lia|]. cbn [fmap list_fmap sum_list].
  destruct (decide (uniqueKeyFromOwnerReference r = k)) as [<-|Hne].
  - rewrite filter_cons_True by done. rewrite sum_keys_absent by done.
    cbn [length]. unfold id. lia.
  - rewrite filter_cons_False by done. unfold id in *. lia.
Qed.

Lemma sum_refsWithKey (ks : list uniqueKey) o :
  NoDup ks ->
  sum_list ((fun k => refsWithKey k o) <$> ks) ≤ length (GetOwnerReferences o).
Proof.
  intros Hnd. unfold refsWithKey.
  induction (GetOwnerReferences o) as [|r refs IH].
  - induction ks as [|k ks IHk]; [done|]. cbn.
    apply NoDup_cons in Hnd as [_ Hnd]. by apply IHk.
  - etrans; [by apply sum_keys_cons|]. cbn [length]. lia.
Qed.

Lemma bounded_skipped origs l p o :
  bounded origs l -> origs !! p = Some o ->
  occurrences p (skipped (pending l)) ≤ length (GetOwnerReferences o).
Proof.
  intros Hb Hp. unfold skipped.
  etrans; [apply (occurrences_concat_le (fun k => refsWithKey k o))|].
  - intros k ps Hin. apply elem_of_map_to_list in Hin.
    specialize (Hb k p). by rewrite Hin, Hp in Hb.
  - apply sum_refsWithKey, NoDup_fst_map_to_list.
Qed.

Lemma Load_bounded fm w docs l :
  Load (newLoader fm w) docs = (l, None) -> bounded (objectsOf docs) l.
Proof.
  intros HL. destruct (Load_ok _ _ _ HL) as (l1 & Hd & _ & _ & Hpd & _).
  eapply bounded_pending; [exact Hpd|].
  pose proof (Decode_bounded docs [] (newLoader fm w)) as Hb.
  rewrite Hd in Hb. apply Hb; [|done].
  intros k p. cbn. rewrite lookup_empty. cbn. lia.
Qed.

(** C8, as the code has it.  An object that passes the filter and has an
    owner reference whose key is never in [exist] is never passed to the
    write client and is still queued under that key when the stream ends.
    It is reported as skipped for a missing owner once for each place it
    has in the pending queue: at least once, and at most once per owner
    reference, so exactly once when it has a single owner reference. *)
Theorem unresolved_object_never_applied_and_reported
    (fm : gset GroupKind) (w : W) docs (l : loader W) p o r :
  Load (newLoader fm w) docs = (l, None) ->
  objectsOf docs !! p = Some o ->
  objGroupKind o ∈ fm ->
  r ∈ GetOwnerReferences o ->
  exist l !! uniqueKeyFromOwnerReference r = None ->
  ¬ submitted p (trace l) ∧
  (∃ ps, pending l !! uniqueKeyFromOwnerReference r = Some ps ∧ p ∈ ps) ∧
  reports p (trace l) = occurrences p (skipped (pending l)) ∧
  1 ≤ reports p (trace l) ≤ length (GetOwnerReferences o).
Proof.
  intros HL Hp Hfm Hr Hmiss.
  destruct (Load_wellFormed fm w docs) as (n & Hwf & Hacc).
  rewrite HL in Hwf, Hacc. cbn [fst snd] in *.
  destruct (Hacc eq_refl) as [Htake Ha]. rewrite Htake in Hwf.
  assert (Hq : ∃ ps, pending l !! uniqueKeyFromOwnerReference r = Some ps
                     ∧ p ∈ ps).
  { destruct (Ha _ _ _ Hp Hfm Hr) as [[u Hu]|?]; [congruence|done]. }
  split; [|split; [done|]].
  - intros (e & obj & res & He & Hc).
    destruct (wf_calls _ _ _ Hwf _ _ _ _ He Hc) as (o' & Hp' & _ & Hk & _).
    assert (o' = o) as -> by congruence.
    destruct (Hk _ Hr) as [u Hu]. congruence.
  - pose proof (Load_reports _ _ _ _ p HL) as Hrep.
    split; [done|]. split.
    + destruct Hq as (ps & Hk & Hin).
      destruct (Load_ok _ _ _ HL) as (l1 & _ & _ & _ & Hpd & _ & Htr).
      apply reports_elem_of. rewrite Htr. apply elem_of_app. right.
      apply list_elem_of_fmap. exists p. split; [done|].
      rewrite <- Hpd. by eapply elem_of_skipped.
    + rewrite Hrep. eapply bounded_skipped; [|exact Hp].
      by eapply Load_bounded.
Qed.

(** ** Who can be submitted

    An object is passed to the write client by the [load] of its own
    document, or by the cascade over a pending list it is in. *)

Lemma touches_submitted q l l' p :
  touches q l l' -> submitted p (trace l') -> submitted p (trace l) ∨ p = q.
Proof.
  intros (_ & _ & _ & _ & _ & new & Htr & Hc & _) (e & obj & res & He & Hcall).
  rewrite Htr in He. apply elem_of_app in He as [He|He].
  - left. by exists e, obj, res.
  - right. by destruct (Hc _ _ _ _ He Hcall).
Qed.

Lemma foldl_cascadeStep_submitted ps p : forall l,
  submitted p (trace (foldl cascadeStep l ps)) ->
  submitted p (trace l) ∨ p ∈ ps.
Proof.
  induction ps as [|q ps IH]; intros l Hs; [by left|]. cbn [foldl] in Hs.
  destruct (IH _ Hs) as [Hs'|Hin]; [|right; by right].
  destruct (touches_submitted _ _ _ _ (cascadeStep_touches l q) Hs')
    as [? | ->]; [by left|right; by left].
Qed.

Lemma cascade_submitted l key p :
  submitted p (trace (cascade l key)) ->
  submitted p (trace l) ∨ ∃ ps, pending l !! key = Some ps ∧ p ∈ ps.
Proof.
  unfold cascade. destruct (pending l !! key) as [ps|]; [|by left].
  cbn [trace setPending]. intros Hs.
  destruct (foldl_cascadeStep_submitted _ _ _ Hs) as [?|?]; [by left|].
  right. by exists ps.
Qed.

Lemma apply_deref l p newObj :
  p < length (objects l) -> (apply l p).2 = Some newObj ->
  deref (apply l p).1 p = clearUnstructured (deref l p).
Proof.
  intros Hlt. unfold apply.
  destruct (ResourceFor _ _) as [w1 [gvr|]]; cbn [fst snd]; [|done].
  pose proof (deref_assign_valid (setWorld w1 l) p
                (clearUnstructured (deref (setWorld w1 l) p)) Hlt) as Hd.
  destruct (Create _ _ _ _) as [w2 [created|err]]; cbn [fst snd]; [done|].
  destruct (IsAlreadyExists err); cbn [negb fst snd]; [|done].
  destruct (Update _ _ _ _) as [w3 [updated|err']]; cbn [fst snd]; [done|].
  by destruct (IsConflict err').
Qed.

(** An object without owner references is applied at once; what it can
    trigger is the cascade for the key it has after [clearUnstructured]. *)
Lemma load_no_owner_submitted l q o p :
  objects l !! q = Some o -> GetOwnerReferences o = [] ->
  submitted p (trace (load l q)) ->
  submitted p (trace l) ∨ p = q ∨
  ∃ ps, pending l !! uniqueKeyFromMetadata (clearUnstructured o) = Some ps
        ∧ p ∈ ps.
Proof.
  intros Hq Hrefs. unfold load. rewrite (deref_lookup _ _ _ Hq), Hrefs.
  cbn [negb]. rewrite setPending_id. unfold applyAndRecord.
  pose proof (apply_touches l q) as Ht.
  pose proof (fun n => apply_deref l q n (lookup_lt_Some _ _ _ Hq)) as Hd.
  destruct (apply l q) as [l1 [newObj|]]; cbn [fst snd negb] in *.
  - specialize (Hd _ eq_refl). rewrite (deref_lookup _ _ _ Hq) in Hd.
    assert (Hx : ∀ ex, deref (setExist ex l1) q = deref l1 q)
      by reflexivity.
    rewrite Hx, Hd. intros Hs.
    destruct (cascade_submitted _ _ _ Hs) as [Hs'|(ps & Hk & Hin)].
    + destruct (touches_submitted _ _ _ _ Ht Hs') as [?|?]; [by left|].
      right. by left.
    + right. right. exists ps. split; [|done].
      destruct Ht as (_ & Hpd & _). by rewrite <- Hpd.
  - intros Hs. destruct (touches_submitted _ _ _ _ Ht Hs) as [?|?];
      [by left|right; by left].
Qed.

Lemma submitted_emit_log p e l :
  callOf e = None -> submitted p (trace (emit e l)) -> submitted p (trace l).
Proof.
  intros He (e' & obj & res & Hin & Hc). cbn in Hin.
  apply elem_of_app in Hin as [Hin|Hin]; [by exists e', obj, res|].
  apply list_elem_of_singleton in Hin as ->. congruence.
Qed.

Lemma Load_submitted l docs p :
  submitted p (trace (Load l docs).1) -> submitted p (trace (Decode docs l).1).
Proof.
  unfold Load. destruct (Decode docs l) as [l1 [err|]]; [done|]. cbn [fst].
  destruct (report_frame (skipped (pending l1)) l1) as (_&_&_&_&_& ->).
  intros (e & obj & res & Hin & Hc).
  apply elem_of_app in Hin as [Hin|Hin]; [by exists e, obj, res|].
  apply list_elem_of_fmap in Hin as (q & -> & _). done.
Qed.

(** With nothing resolved yet, an object that has owner references is
    queued, under keys of its own owner references, and nothing else
    happens. *)
Lemma visit_nothing_resolved l q o :
  exist l = ∅ -> objects l !! q = Some o -> GetOwnerReferences o ≠ [] ->
  let l' := (visit l q).1 in
  exist l' = ∅ ∧ objects l' = objects l ∧
  (∀ p, submitted p (trace l') -> submitted p (trace l)) ∧
  (∀ k ps p, pending l' !! k = Some ps -> p ∈ ps ->
     (∃ ps0, pending l !! k = Some ps0 ∧ p ∈ ps0) ∨
     (p = q ∧ ∃ ref, ref ∈ GetOwnerReferences o
                     ∧ uniqueKeyFromOwnerReference ref = k)).
Proof.
  intros Hex Hq Hrefs. unfold visit.
  destruct (ctxErr (world l)) as [w [|]]; cbn [fst].
  { do 3 (split; [done|]). intros k ps p Hk Hin. left. by exists ps. }
  destruct (negb _); cbn [fst].
  { do 2 (split; [done|]). split; [intros p; by apply submitted_emit_log|].
    intros k ps p Hk Hin. left. by exists ps. }
  rewrite load_unfold.
  assert (Hd : deref (setWorld w l) q = o) by (by apply deref_lookup).
  rewrite Hd.
  pose proof (checkOwners_ok (exist (setWorld w l)) q (GetOwnerReferences o)
                (pending (setWorld w l))) as (H1 & _ & H3 & _).
  destruct (checkOwners _ _ _ _) as [allExist pd]. cbn [fst snd] in *.
  destruct allExist; cbn [negb].
  { exfalso. destruct (H1 eq_refl) as [_ Hall].
    destruct (GetOwnerReferences o) as [|r rs]; [done|].
    destruct (Hall r) as [u Hu]; [by left|].
    cbn in Hu. by rewrite Hex, lookup_empty in Hu. }
  do 3 (split; [done|]). intros k ps p Hk Hin. by eapply H3.
Qed.

(** The dependency-ordering scenario on any cluster and with any
    [clearUnstructured]: [c] is owned by [b], [b] by [a], and the stream
    is [c], [b], [a].  Unless [a] has the key of [c]'s owner after
    [clearUnstructured], the loader never submits [c], whatever the REST
    mapper and the write client answer. *)
Lemma reverse_chain_never_submits_last
    (fm : gset GroupKind) (w : W) (a b c : Unstructured)
    (ra rb : OwnerReference) :
  GetOwnerReferences a = [] ->
  GetOwnerReferences b = [ra] ->
  GetOwnerReferences c = [rb] ->
  uniqueKeyFromOwnerReference rb
    ≠ uniqueKeyFromMetadata (clearUnstructured a) ->
  ¬ submitted 0 (trace (Load (newLoader fm w)
                             [DocObject c; DocObject b; DocObject a]).1).
Proof.
  intros Ha Hb Hc Hne Hs. apply Load_submitted in Hs. revert Hs.
  assert (Hnil : ¬ submitted 0 (trace (allocate c (newLoader fm w)))).
  { intros (e & obj & res & Hin & _). by apply elem_of_nil in Hin. }
  cbn [Decode]. change (length (objects (newLoader fm w))) with 0.
  destruct (visit_nothing_resolved (allocate c (newLoader fm w)) 0 c)
    as (Hx1 & Ho1 & Hs1 & Hp1); [done|done|by rewrite Hc|].
  destruct (visit (allocate c (newLoader fm w)) 0) as [l1 [err|]];
    cbn [fst] in *.
  { intros Hs. by apply Hs1, Hnil in Hs. }
  cbn [Decode]. rewrite Ho1. change (length (objects (allocate c _))) with 1.
  destruct (visit_nothing_resolved (allocate b l1) 1 b)
    as (Hx2 & Ho2 & Hs2 & Hp2); [done|by cbn; rewrite Ho1|by rewrite Hb|].
  destruct (visit (allocate b l1) 1) as [l2 [err|]]; cbn [fst] in *.
  { intros Hs. by apply Hs2, Hs1, Hnil in Hs. }
  assert (Hwait : ∀ k ps, pending l2 !! k = Some ps -> 0 ∈ ps ->
            k = uniqueKeyFromOwnerReference rb).
  { intros k ps Hk Hin.
    destruct (Hp2 _ _ _ Hk Hin) as [(ps1 & Hk1 & Hin1)|[? _]]; [|done].
    destruct (Hp1 _ _ _ Hk1 Hin1) as [(ps0 & Hk0 & _)|[_ (ref & Hr & <-)]].
    - cbn in Hk0. by rewrite lookup_empty in Hk0.
    - rewrite Hc in Hr. by apply list_elem_of_singleton in Hr as ->. }
  cbn [Decode]. rewrite Ho2. cbn [objects allocate].
  rewrite Ho1. cbn [objects allocate].
  change (length ((objects (newLoader fm w) ++ [c]) ++ [b])) with 2.
  assert (Hlast : ¬ submitted 0 (trace (visit (allocate a l2) 2).1)).
  { unfold visit. destruct (ctxErr _) as [w' [|]]; cbn [fst].
    { intros Hs. by apply Hs2, Hs1, Hnil in Hs. }
    destruct (negb _); cbn [fst].
    { intros Hs. apply submitted_emit_log in Hs; [|done].
      by apply Hs2, Hs1, Hnil in Hs. }
    intros Hs.
    apply (load_no_owner_submitted _ _ a) in Hs as [Hs|[?|(ps & Hk & Hin)]];
      [by apply Hs2, Hs1, Hnil in Hs|done| | |done].
    - apply Hne. symmetry. by eapply Hwait.
    - cbn. rewrite Ho2. cbn. rewrite Ho1. done. }
  destruct (visit (allocate a l2) 2) as [l3 [err|]]; cbn [fst Decode] in *;
    done.
Qed.

End LoaderProperties.

(* ===================================================================== *)
(** * The loader and the getter on concrete inputs *)
(* ===================================================================== *)

Section Scenarios.
Import Fake FakeFeed.

(** C1.  The dependency-ordering scenario, on a cluster where every
    create succeeds: the stream is [objC], [objB], [objA] (pointers 0, 1
    and 2).  The loader submits [objA], then [objB] with its owner uid
    rewritten to the uid given to [objA], and nothing else: [objC] is
    never submitted, it stays queued under the key of [objB] and is
    reported as skipped for a missing owner, although [exist] has the key
    of [objB] by then. *)
Theorem reverse_chain_stops_after_one_level :
  let r := Load (newLoader allKinds emptyCluster) reverseChain in
  r.2 = None ∧
  omap callOf (trace r.1) =
    [(2, fakeClear objA, inl (withUID "uid-0" (fakeClear objA)));
     (1, objB', inl (withUID "uid-1" objB'))] ∧
  exist r.1 !! uniqueKeyFromMetadata objB = Some "uid-1" ∧
  pending r.1 !! uniqueKeyFromMetadata objB = Some [0] ∧
  reports 0 (trace r.1) = 1.
Proof. vm_compute. done. Qed.

(** The same stream when [clearUnstructured] resets the uid too: [load]
    reads the key of [objA] after [apply] has cleared it, so the key it
    records has an empty uid, the entry [objB] waits under is never found,
    and only [objA] is submitted. *)
Lemma reverse_chain_when_uid_is_cleared :
  let r := @Load cluster strictExternal (newLoader allKinds emptyCluster)
                 reverseChain in
  r.2 = None ∧
  omap callOf (trace r.1) =
    [(2, strictClear objA, inl (withUID "uid-0" (strictClear objA)))] ∧
  exist r.1 !! uniqueKeyFromMetadata objA = None ∧
  exist r.1 !! uniqueKeyFromMetadata (strictClear objA) = Some "uid-0" ∧
  reports 0 (trace r.1) = 1 ∧ reports 1 (trace r.1) = 1.
Proof. vm_compute. done. Qed.

(** C8 as stated fails: [objD] passes the filter and names two owners
    that never appear; it is never submitted, but the report lists it
    twice, once for each key it is queued under. *)
Lemma two_missing_owners_reported_twice :
  ¬ reportedExactlyOnce allKinds emptyCluster [DocObject objD].
Proof.
  intros Hclaim.
  pose (r := Load (newLoader allKinds emptyCluster) [DocObject objD]).
  destruct (Hclaim r.1 0 objD refX) as [_ Hone].
  - vm_compute. reflexivity.
  - reflexivity.
  - vm_compute. set_solver.
  - by left.
  - vm_compute. reflexivity.
  - vm_compute in Hone. discriminate.
Qed.

(** [objD] alone in the stream. *)
Lemma unresolved_object_witness :
  let r := Load (newLoader allKinds emptyCluster) [DocObject objD] in
  ¬ submitted 0 (trace r.1) ∧
  (∃ ps, pending r.1 !! uniqueKeyFromOwnerReference refX = Some ps ∧ 0 ∈ ps) ∧
  reports 0 (trace r.1) = occurrences 0 (skipped (pending r.1)) ∧
  1 ≤ reports 0 (trace r.1) ≤ length (GetOwnerReferences objD).
Proof.
  apply (unresolved_object_never_applied_and_reported
           allKinds emptyCluster [DocObject objD] _ 0 objD refX).
  - vm_compute. reflexivity.
  - reflexivity.
  - vm_compute. set_solver.
  - by left.
  - vm_compute. reflexivity.
Defined.

(** A secret owned by [objA], ahead of [objA], with secrets filtered out. *)
Lemma filtered_object_witness :
  let l := (Load (newLoader allKinds emptyCluster)
                 [DocObject objS; DocObject objA]).1 in
  ¬ submitted 0 (trace l) ∧ (∀ k ps, pending l !! k = Some ps -> 0 ∉ ps).
Proof.
  apply (filtered_object_never_written_nor_queued
           allKinds emptyCluster [DocObject objS; DocObject objA] 0 objS).
  - reflexivity.
  - vm_compute. set_solver.
Defined.



(** The key of [objA] is still there after [objB], and it comes from the
    create of [objA]. *)
Lemma exist_append_only_witness :
  is_Some (exist (Load (newLoader allKinds emptyCluster)
                       ([DocObject objA] ++ [DocObject objB])).1
           !! uniqueKeyFromMetadata objA) ∧
  (let l := (Load (newLoader allKinds emptyCluster) [DocObject objA]).1 in
   ∃ p o obj,
     objectsOf [DocObject objA] !! p = Some o ∧ reworked o obj ∧
     succeeded p obj "uid-0" (trace l) ∧
     uniqueKeyFromMetadata objA = uniqueKeyFromMetadata obj ∧
     ((∀ o, uniqueKeyFromMetadata (clearUnstructured o)
            = uniqueKeyFromMetadata o) ->
      uniqueKeyFromMetadata objA = uniqueKeyFromMetadata o)).
Proof.
  split.
  - apply (proj1 (exist_append_only allKinds emptyCluster)).
    vm_compute. by eexists.
  - apply (proj2 (exist_append_only allKinds emptyCluster)
                 [DocObject objA] (uniqueKeyFromMetadata objA) "uid-0").
    vm_compute. reflexivity.
Defined.

(** A stale getter recomputes the sum under the new version. *)
Lemma Get_witness :
  Get sum staleGetter newerFeed id newerFeed = (mkGetter "2" 7 1, 7).
Proof.
  apply (proj1 (proj2 (proj2
           (Get_converts_only_when_stale sum staleGetter newerFeed
                                         newerFeed id)))).
  - vm_compute. discriminate.
  - vm_compute. discriminate.
Defined.


End Scenarios.

(* ===================================================================== *)
(** * More on the dynamic getter *)
(* ===================================================================== *)

Section GetterExtras.
Context {O T : Type} (convertFunc : list T -> O).

(** Whatever path [Get] takes and whatever other callers store between its
    two lock sections, it returns the value the getter holds when it is
    done, and it leaves the getter at the version it read on entry (also
    when a caller in between had stored another, possibly newer one). *)
Theorem Get_returns_what_it_stores
    (c : dynamicGetter O) (before after : informer T)
    (between : dynamicGetter O -> dynamicGetter O) :
  let r := Get convertFunc c before between after in
  r.2 = data r.1 ∧ currentVer r.1 = LastSyncResourceVersion before.
Proof.
  intros r. subst r. unfold Get, readLocked, updateAndReturn.
  destruct (decide (LastSyncResourceVersion before = currentVer c)) as [E|E];
    [done|].
  by destruct (decide (LastSyncResourceVersion before
                       = currentVer (between c))).
Qed.

(** The first [Get] on a new getter: while the informer still shows the
    empty version it returns the zero value and converts nothing, whatever
    the store holds and whatever other callers do; once the informer shows
    a version, a lone caller converts the store as it is listed. *)
Theorem first_Get (zero : O) (before after : informer T)
    (between : dynamicGetter O -> dynamicGetter O) :
  (LastSyncResourceVersion before = "" ->
   Get convertFunc (NewDynamicGetter zero) before between after
   = (NewDynamicGetter zero, zero)) ∧
  (LastSyncResourceVersion before ≠ "" ->
   Get convertFunc (NewDynamicGetter zero) before id after
   = (mkGetter (LastSyncResourceVersion before) (convertFunc (List after)) 1,
      convertFunc (List after))).
Proof.
  split; intros Hv; unfold Get.
  - by rewrite readLocked_fresh.
  - rewrite readLocked_stale by (cbn; congruence).
    by rewrite updateAndReturn_stale by (cbn; congruence).
Qed.

Lemma agreeInv_step v v0 (s : system O T) a :
  v0 ≠ v ->
  match a with Feed next => LastSyncResourceVersion next = v | Run _ => True end ->
  agreeInv v v0 s -> agreeInv v v0 (step convertFunc s a).
Proof.
  intros Hv Ha (Hfeed & Hread & Hcase). destruct a as [next|i]; cbn [step].
  { by split. }
  destruct (calls s !! i) as [k|] eqn:Hk; [|done].
  assert (Hrk : readOnly v k) by (eapply Forall_lookup_1; eauto).
  destruct k as [|u|u|d]; cbn in Hrk; [| subst u .. |done].
  - split; [done|]. split; [by apply Forall_insert|].
    destruct Hcase as [[? Hnr]|[? Hag]]; [left|right]; split; try done;
      by apply Forall_insert.
  - destruct Hcase as [[Hcur Hnr]|[Hcur Hag]].
    + rewrite readLocked_stale by congruence. cbn.
      split; [done|]. split; [by apply Forall_insert|].
      left. split; [done|]. by apply Forall_insert.
    + rewrite readLocked_fresh by congruence. cbn.
      split; [done|]. split; [by apply Forall_insert|].
      right. split; [done|]. apply Forall_insert; [done|]. by intros d [= <-].
  - destruct Hcase as [[Hcur Hnr]|[Hcur Hag]].
    + rewrite updateAndReturn_stale by congruence. cbn.
      split; [done|]. split; [by apply Forall_insert|].
      right. split; [done|]. apply Forall_insert; [|by intros d [= <-]].
      eapply Forall_impl; [exact Hnr|]. intros k Hk' d ->. done.
    + rewrite updateAndReturn_fresh by congruence. cbn.
      split; [done|]. split; [by apply Forall_insert|].
      right. split; [done|]. apply Forall_insert; [done|]. by intros d [= <-].
Qed.

Lemma agreeInv_run v v0 schedule : forall s : system O T,
  v0 ≠ v -> steady v schedule ->
  agreeInv v v0 s -> agreeInv v v0 (run convertFunc s schedule).
Proof.
  induction schedule as [|a schedule IH]; intros s Hv Hst Hinv; [done|].
  apply Forall_cons in Hst as [Ha Hst]. cbn.
  apply IH; [done..|]. by apply agreeInv_step.
Qed.

(** Concurrent callers that all see the same new version agree: at every
    point of every schedule, each call that has returned has returned the
    value the getter holds, so any two results are equal. *)
Theorem concurrent_callers_agree
    (c : dynamicGetter O) (inf : informer T) (n : nat)
    (schedule : list (action T)) :
  currentVer c ≠ LastSyncResourceVersion inf ->
  steady (LastSyncResourceVersion inf) schedule ->
  let s := run convertFunc (enter c inf n) schedule in
  (∀ i d, calls s !! i = Some (Returned d) -> d = data (getter s)) ∧
  (∀ i j d d', calls s !! i = Some (Returned d) ->
               calls s !! j = Some (Returned d') -> d = d').
Proof.
  intros Hv Hst s.
  assert (Hinv : agreeInv (LastSyncResourceVersion inf) (currentVer c) s).
  { apply agreeInv_run; [done..|]. split; [done|].
    split; [by apply Forall_replicate|]. left. split; [done|].
    by apply Forall_replicate. }
  assert (Hall : ∀ i d, calls s !! i = Some (Returned d) -> d = data (getter s)).
  { intros i d Hi. destruct Hinv as (_ & _ & [[_ Hnr]|[_ Hag]]).
    - by apply (Forall_lookup_1 _ _ _ _ Hnr) in Hi.
    - by apply (Forall_lookup_1 _ _ _ _ Hag Hi). }
  split; [done|]. intros i j d d' Hi Hj.
  by rewrite (Hall _ _ Hi), (Hall _ _ Hj).
Qed.

End GetterExtras.

(* ===================================================================== *)
(** * The dynamic getter: what [Start] waits for *)
(* ===================================================================== *)

Section StartProperties.
Context {O T : Type} `{Cache T} (convertFunc : list T -> O).

(** When [Resync] does nothing and reports no error, [Start] never fails,
    whatever [syncer.List] answered, and the informer it leaves is the one
    the goroutine has made by then. *)
Lemma Start_with_idle_Resync (early : list (listing T)) :
  (∀ inf, Resync inf = (inf, false)) ->
  Start early = (foldl listRound NewInformer early, false).
Proof. intros Hidle. unfold Start. apply Hidle. Qed.

(** While the informer [Start] has left shows no version, [Get] on the new
    getter returns the zero value and converts nothing. *)
Lemma Get_after_unsynced_Start (early : list (listing T)) zero between after :
  LastSyncResourceVersion (Start early).1 = "" ->
  Get convertFunc (NewDynamicGetter zero) (Start early).1 between after
  = (NewDynamicGetter zero, zero).
Proof.
  intros Hv. unfold Get. rewrite Hv. by rewrite readLocked_fresh.
Qed.

(** On every informer whose [Resync] does nothing and whose store starts
    without a version, [Start] can return before the first list, and it
    never reports a failing list. *)
Lemma Start_waits_for_nothing :
  (∀ inf, Resync inf = (inf, false)) ->
  LastSyncResourceVersion NewInformer = "" ->
  ¬ returnsSynced ∧ ¬ failsWhenListFails.
Proof.
  intros Hidle Hnew. split.
  - intros Hsynced. apply (Hsynced []).
    + by rewrite Start_with_idle_Resync.
    + by rewrite Start_with_idle_Resync.
  - intros Hfails. specialize (Hfails [] (Forall_nil_2 _)).
    by rewrite Start_with_idle_Resync in Hfails.
Qed.

End StartProperties.

(* ===================================================================== *)
(** * More on the snapshot loader *)
(* ===================================================================== *)

Section LoaderExtras.
Context {W : Type} `{External W}.
Implicit Types (l : loader W) (p q : nat) (o : Unstructured).

(** ** The trace only grows *)

Lemma touches_prefix p l l' : touches p l l' -> trace l `prefix_of` trace l'.
Proof. intros (_ & _ & _ & _ & _ & new & Htr & _). by exists new. Qed.

Lemma foldl_cascadeStep_prefix ps : forall l,
  trace l `prefix_of` trace (foldl cascadeStep l ps).
Proof.
  induction ps as [|q ps IH]; intros l; [done|]. cbn [foldl].
  etrans; [|apply IH]. eapply touches_prefix, cascadeStep_touches.
Qed.

Lemma cascade_prefix l key : trace l `prefix_of` trace (cascade l key).
Proof.
  unfold cascade. destruct (pending l !! key) as [ps|]; [|done].
  apply foldl_cascadeStep_prefix.
Qed.

Lemma load_prefix l p : trace l `prefix_of` trace (load l p).
Proof.
  rewrite load_unfold. destruct (checkOwners _ _ _ _) as [allExist pd].
  destruct allExist; cbn [negb]; [|done].
  assert (Ht : touches p (setPending pd l)
            (applyAndRecord (updateOwnerReferences (setPending pd l) p) p).1).
  { eapply touches_trans; [apply touches_updateOwnerReferences|].
    apply applyAndRecord_touches. }
  destruct (applyAndRecord _ _) as [l2 ok]. apply touches_prefix in Ht.
  destruct ok; cbn [negb]; [|done]. etrans; [exact Ht|apply cascade_prefix].
Qed.

Lemma visit_prefix l p : trace l `prefix_of` trace (visit l p).1.
Proof.
  unfold visit. destruct (ctxErr _) as [w [|]]; cbn [fst]; [done|].
  destruct (negb _); cbn [fst].
  - by apply prefix_app_r.
  - apply (load_prefix (setWorld w l) p).
Qed.

Lemma Decode_prefix docs : forall l,
  trace l `prefix_of` trace (Decode docs l).1.
Proof.
  induction docs as [|[o|] docs IH]; intros l; cbn [Decode]; [done| |done].
  pose proof (visit_prefix (allocate o l) (length (objects l))) as Hv.
  destruct (visit _ _) as [l1 [err|]]; cbn [fst] in *; [done|].
  etrans; [exact Hv|apply IH].
Qed.

Lemma omap_callOf_report (qs : list nat) :
  omap callOf (LogSkippedMissingOwner <$> qs) = [].
Proof. induction qs as [|q qs IH]; [done|]. cbn. exact IH. Qed.

Lemma Load_calls l docs :
  omap callOf (trace (Load l docs).1) = omap callOf (trace (Decode docs l).1).
Proof.
  unfold Load. destruct (Decode docs l) as [l1 [err|]]; [done|]. cbn [fst].
  destruct (report_frame (skipped (pending l1)) l1) as (_&_&_&_&_& ->).
  by rewrite omap_app, omap_callOf_report, app_nil_r.
Qed.

Lemma omap_prefix {A B} (f : A -> option B) (xs ys : list A) :
  xs `prefix_of` ys -> omap f xs `prefix_of` omap f ys.
Proof. intros [k ->]. rewrite omap_app. by apply prefix_app_r. Qed.

(** The loader works online: the calls it makes on the write client for a
    stream are the beginning of the calls it makes for any longer stream
    that starts with it.  What comes later in the stream never changes
    what has been submitted for the documents before. *)
Theorem calls_of_a_prefix_stream l docs1 docs2 :
  omap callOf (trace (Load l docs1).1)
    `prefix_of` omap callOf (trace (Load l (docs1 ++ docs2)).1).
Proof.
  rewrite !Load_calls, Decode_app. apply omap_prefix.
  destruct (Decode docs1 l) as [l1 [err|]]; cbn [fst]; [done|].
  apply Decode_prefix.
Qed.

(** ** What the report lists *)

Lemma elem_of_concat_inv {A} (x : A) (ls : list (list A)) :
  x ∈ concat ls -> ∃ xs, xs ∈ ls ∧ x ∈ xs.
Proof.
  induction ls as [|ys ls IH]; cbn; [by intros ?%elem_of_nil|].
  intros [Hx|Hx]%elem_of_app.
  - exists ys. split; [by left|done].
  - destruct (IH Hx) as (xs & ? & ?). exists xs. split; [by right|done].
Qed.

Lemma skipped_elem_of (pd : gmap uniqueKey (list nat)) p :
  p ∈ skipped pd -> ∃ k ps, pd !! k = Some ps ∧ p ∈ ps.
Proof.
  intros Hp. apply elem_of_concat_inv in Hp as (ps & Hps & Hin).
  apply list_elem_of_fmap in Hps as ([k ps'] & -> & Hk).
  exists k, ps'. split; [|done]. by apply elem_of_map_to_list.
Qed.

Lemma occurrences_pos p ps : 0 < occurrences p ps -> p ∈ ps.
Proof.
  intros Hpos. destruct (decide (p ∈ ps)) as [|Hnot]; [done|].
  rewrite occurrences_not_elem in Hpos by done. lia.
Qed.

(** When [Load] succeeds, every object it reports as skipped for a missing
    owner passed the filter, names at least one owner, and is still queued
    under the key of one of the owners it names.  So an object without
    owner references is never reported, and neither is a filtered one. *)
Theorem reported_objects_wait_for_an_owner
    (fm : gset GroupKind) (w : W) docs l p :
  Load (newLoader fm w) docs = (l, None) ->
  0 < reports p (trace l) ->
  ∃ o r ps, objectsOf docs !! p = Some o ∧ objGroupKind o ∈ fm ∧
            r ∈ GetOwnerReferences o ∧
            pending l !! uniqueKeyFromOwnerReference r = Some ps ∧ p ∈ ps.
Proof.
  intros HL Hrep. rewrite (Load_reports _ _ _ _ _ HL) in Hrep.
  apply occurrences_pos, skipped_elem_of in Hrep as (k & ps & Hk & Hin).
  destruct (Load_wellFormed fm w docs) as (n & Hwf & Hacc).
  rewrite HL in Hwf, Hacc. cbn [fst snd] in *.
  destruct (Hacc eq_refl) as [Htake _]. rewrite Htake in Hwf.
  destruct (wf_pending _ _ _ Hwf _ _ _ Hk Hin) as (o & Hp & Hfm & r & Hr & <-).
  by exists o, r, ps.
Qed.

(** When [Load] fails (a malformed document, a cancelled context), it
    returns before the final loop: nothing is reported as skipped for a
    missing owner, and the loader is left as the decoder left it, with
    every object applied so far still applied. *)
Theorem failed_load_reports_nothing (fm : gset GroupKind) (w : W) docs l err :
  Load (newLoader fm w) docs = (l, Some err) ->
  (∀ p, reports p (trace l) = 0) ∧ l = (Decode docs (newLoader fm w)).1.
Proof.
  intros HL. destruct (Load_failed _ _ _ _ HL) as (cause & Hd & _).
  assert (Hl : l = (Decode docs (newLoader fm w)).1) by (by rewrite Hd).
  split; [|done]. intros p. rewrite Hl, Decode_reports. done.
Qed.

(** ** Owners come first *)

Lemma ordered_extend origs l l' new :
  ordered origs l -> trace l' = trace l ++ new ->
  (∀ new1 e new2 p obj res o r,
     new = new1 ++ e :: new2 -> callOf e = Some (p, obj, res) ->
     origs !! p = Some o -> r ∈ GetOwnerReferences o ->
     ∃ q obj' u, succeeded q obj' u (trace l ++ new1) ∧
                 uniqueKeyFromOwnerReference r = uniqueKeyFromMetadata obj') ->
  ordered origs l'.
Proof.
  intros Hord Htr Hnew pre e post p obj res o r Hsplit Hc Hp Hr.
  rewrite Htr in Hsplit. symmetry in Hsplit.
  apply app_eq_inv in Hsplit as [(k & -> & Hk)|(k & Hk & Hpost)].
  - by eapply Hnew.
  - destruct k as [|e' k].
    + rewrite app_nil_r in Hk. subst pre. cbn in Hpost.
      rewrite <- (app_nil_r (trace l)).
      eapply (Hnew [] e post); [by rewrite Hpost|done..].
    + cbn in Hpost. injection Hpost as -> Hpost. by eapply Hord.
Qed.

Lemma ordered_trace origs l l' :
  trace l' = trace l -> ordered origs l -> ordered origs l'.
Proof. intros Htr Hord pre e post. rewrite Htr. apply Hord. Qed.

Lemma ordered_emit_log origs l e :
  callOf e = None -> ordered origs l -> ordered origs (emit e l).
Proof.
  intros He Hord. eapply (ordered_extend _ l _ [e]); [done|done|].
  intros new1 e' new2 p obj res o r Hsplit Hc.
  destruct new1 as [|e1 [|e2 new1]]; cbn in Hsplit; simplify_eq.
Qed.

Lemma ordered_touches fm origs l l' p o :
  wellFormed fm origs l -> ordered origs l -> touches p l l' ->
  origs !! p = Some o -> allKnown (exist l) o ->
  ordered origs l'.
Proof.
  intros Hwf Hord (_ & _ & _ & _ & _ & new & Htr & Hc & _) Hp Hk.
  eapply ordered_extend; [done|done|].
  intros new1 e new2 p' obj res o' r -> Hcall Hp' Hr.
  destruct (Hc e p' obj res) as [-> _]; [|done|].
  { apply elem_of_app. right. by left. }
  assert (o' = o) as -> by congruence.
  destruct (Hk _ Hr) as [u Hu].
  destruct (wf_exist _ _ _ Hwf _ _ Hu) as (q & obj' & Hs & Hkey).
  exists q, obj', u. split; [by apply succeeded_app_l|done].
Qed.

Lemma ordered_more fm origs more l :
  wellFormed fm origs l -> ordered origs l -> ordered (origs ++ more) l.
Proof.
  intros Hwf Hord pre e post p obj res o r Hsplit Hc Hp Hr.
  destruct (wf_calls _ _ _ Hwf e p obj res) as (o' & Hp' & _); [|done|].
  { rewrite Hsplit. apply elem_of_app. right. by left. }
  rewrite (lookup_app_l_Some _ _ _ _ Hp') in Hp.
  assert (o' = o) as -> by congruence. by eapply Hord.
Qed.

Lemma ordered_foldl_cascadeStep fm origs key ps : forall l,
  wellFormed fm origs l -> ordered origs l -> is_Some (exist l !! key) ->
  (∀ q, q ∈ ps -> waitsFor fm origs key q) ->
  ordered origs (foldl cascadeStep l ps).
Proof.
  induction ps as [|q ps IH]; intros l Hwf Hord Hkey Hps; [done|].
  cbn [foldl]. assert (Hq : waitsFor fm origs key q) by (apply Hps; by left).
  pose proof (cascadeStep_touches l q) as Ht.
  apply IH.
  - by eapply cascadeStep_wellFormed.
  - destruct (cascadeStep_cases l q) as [->|Hready]; [done|].
    destruct Hq as (o & Hqo & Hfm & Hr).
    eapply ordered_touches; [done..|]. by eapply waitsFor_ready.
  - destruct Ht as (_ & _ & _ & _ & _ & _ & _ & _ & Hm & _). by apply Hm.
  - intros q' Hq'. apply Hps. by right.
Qed.

Lemma ordered_cascade fm origs l key :
  wellFormed fm origs l -> ordered origs l -> is_Some (exist l !! key) ->
  ordered origs (cascade l key).
Proof.
  intros Hwf Hord Hkey. unfold cascade.
  destruct (pending l !! key) as [ps|] eqn:Hps; [|done].
  eapply ordered_trace; [done|].
  eapply ordered_foldl_cascadeStep; [done..|].
  intros q Hq. by eapply (wf_pending _ _ _ Hwf).
Qed.

Lemma ordered_load fm origs l p o :
  wellFormed fm origs l -> ordered origs l ->
  origs !! p = Some o -> objects l !! p = Some o -> objGroupKind o ∈ fm ->
  ordered origs (load l p).
Proof.
  intros Hwf Hord Hp Hlp Hfm. rewrite load_unfold.
  rewrite (deref_lookup _ _ _ Hlp).
  pose proof (checkOwners_ok (exist l) p (GetOwnerReferences o) (pending l))
    as (H1 & _).
  destruct (checkOwners _ _ _ _) as [allExist pd]. cbn [fst snd] in *.
  destruct allExist; cbn [negb]; [|by eapply ordered_trace].
  destruct (H1 eq_refl) as (-> & Hall). rewrite setPending_id.
  assert (Ht : touches p l (applyAndRecord (updateOwnerReferences l p) p).1).
  { eapply touches_trans; [apply touches_updateOwnerReferences|].
    apply applyAndRecord_touches. }
  pose proof (applyAndRecord_ok (updateOwnerReferences l p) p) as Hok.
  destruct (applyAndRecord _ _) as [l2 ok]. cbn [fst] in Ht.
  assert (Hwf2 : wellFormed fm origs l2) by (by eapply wellFormed_touches).
  assert (Hord2 : ordered origs l2)
    by (by apply (ordered_touches fm origs l l2 p o)).
  destruct ok; cbn [negb]; [|done].
  eapply ordered_cascade; [done..|]. by apply Hok.
Qed.

Lemma ordered_visit fm origs l o :
  wellFormed fm origs l -> ordered origs l ->
  ordered (origs ++ [o]) (visit (allocate o l) (length (objects l))).1.
Proof.
  intros Hwf Hord.
  pose proof (allocate_wellFormed _ _ _ o Hwf) as Hwf1.
  assert (Hord1 : ordered (origs ++ [o]) (allocate o l)).
  { eapply ordered_trace; [|by eapply ordered_more]. done. }
  assert (Hlen : length (objects l) = length origs) by apply Hwf.
  unfold visit. destruct (ctxErr _) as [w [|]]; cbn [fst].
  { by eapply ordered_trace. }
  unfold filter.
  assert (Hlp : objects (setWorld w (allocate o l)) !! length (objects l)
                = Some o).
  { cbn. rewrite lookup_app_r by lia. by rewrite Nat.sub_diag. }
  rewrite (deref_lookup _ _ _ Hlp).
  replace (filterMap (setWorld w (allocate o l))) with fm
    by (symmetry; apply Hwf).
  destruct (decide (objGroupKind o ∈ fm)) as [Hin|Hout].
  - rewrite bool_decide_true by done. cbn [negb fst].
    eapply ordered_load; [by apply wellFormed_setWorld| |..|exact Hlp|done].
    + by eapply ordered_trace.
    + rewrite Hlen, lookup_app_r by lia. by rewrite Nat.sub_diag.
  - rewrite bool_decide_false by done. cbn [negb fst].
    apply ordered_emit_log; [done|]. by eapply ordered_trace.
Qed.

Lemma Decode_ordered fm docs : forall origs l,
  wellFormed fm origs l -> accounted fm origs l -> ordered origs l ->
  ordered (origs ++ objectsOf docs) (Decode docs l).1.
Proof.
  induction docs as [|[o|] docs IH]; intros origs l Hwf Hacc Hord;
    cbn [Decode fst].
  - by eapply ordered_more.
  - rewrite objectsOf_cons.
    replace (origs ++ o :: objectsOf docs)
      with ((origs ++ [o]) ++ objectsOf docs) by (by rewrite <- app_assoc).
    pose proof (ordered_visit fm origs l o Hwf Hord) as Hord1.
    destruct (visit_wellFormed fm origs l o Hwf Hacc) as (Hwf1 & _ & Hacc1).
    destruct (visit _ _) as [l1 [err|]]; cbn [fst snd] in *.
    + by eapply ordered_more.
    + by apply IH; [|apply Hacc1|].
  - by eapply ordered_more.
Qed.

Lemma ordered_report origs l qs :
  ordered origs l ->
  ordered origs (foldl (fun l q => emit (LogSkippedMissingOwner q) l) l qs).
Proof.
  revert l. induction qs as [|q qs IH]; intros l Hord; [done|].
  cbn [foldl]. apply IH. by apply ordered_emit_log.
Qed.

(** The loader never submits an object before its owners: when it calls
    the write client for an object, then for every owner the object names
    in the stream a create or update has already succeeded, earlier in the
    trace, for an object that was submitted under that owner's key. *)
Theorem owners_are_applied_first
    (fm : gset GroupKind) (w : W) docs pre e post p obj res o r :
  trace (Load (newLoader fm w) docs).1 = pre ++ e :: post ->
  callOf e = Some (p, obj, res) ->
  objectsOf docs !! p = Some o ->
  r ∈ GetOwnerReferences o ->
  ∃ q obj' u, succeeded q obj' u pre ∧
              uniqueKeyFromOwnerReference r = uniqueKeyFromMetadata obj'.
Proof.
  assert (Hord : ordered (objectsOf docs) (Load (newLoader fm w) docs).1).
  { destruct (newLoader_wellFormed fm w) as [Hwf Hacc].
    pose proof (Decode_ordered fm docs [] _ Hwf Hacc) as Hd.
    unfold Load. destruct (Decode docs (newLoader fm w)) as [l1 [err|]];
      cbn [fst] in *.
    - apply Hd. intros pre' e' post' ? ? ? ? ? Hsplit.
      by destruct pre'.
    - apply ordered_report, Hd. intros pre' e' post' ? ? ? ? ? Hsplit.
      by destruct pre'. }
  apply Hord.
Qed.

(** ** No object is dropped in silence *)

Lemma attempted_prefix p (tr tr' : list Event) :
  tr `prefix_of` tr' -> attempted p tr -> attempted p tr'.
Proof.
  intros [k ->] [Hlog|(e & obj & res & He & Hc)].
  - left. apply elem_of_app. by left.
  - right. exists e, obj, res. split; [|done]. apply elem_of_app. by left.
Qed.

Lemma apply_attempted l p : attempted p (trace (apply l p).1).
Proof.
  unfold apply. destruct (ResourceFor _ _) as [w1 [gvr|]]; cbn [fst].
  2: { left. cbn. apply elem_of_app. right. by left. }
  right. destruct (Create _ _ _ _) as [w2 created].
  set (call := CallCreate p gvr _ _ created).
  exists call. eexists _, created. split; [|done].
  destruct created as [newObj|err]; cbn [fst].
  { cbn. rewrite !elem_of_app, !list_elem_of_singleton. auto. }
  destruct (IsAlreadyExists err); cbn [negb fst].
  2: { cbn. rewrite !elem_of_app, !list_elem_of_singleton. auto. }
  destruct (Update _ _ _ _) as [w3 [newObj|err']]; cbn [fst].
  { cbn. rewrite !elem_of_app, !list_elem_of_singleton. auto. }
  destruct (IsConflict err'); cbn;
    rewrite !elem_of_app, !list_elem_of_singleton; auto.
Qed.

Lemma applyAndRecord_attempted l p :
  attempted p (trace (applyAndRecord l p).1).
Proof.
  unfold applyAndRecord. pose proof (apply_attempted l p) as Ha.
  by destruct (apply l p) as [l1 [newObj|]].
Qed.

Lemma forallb_false_elem {A} (f : A -> bool) (xs : list A) :
  forallb f xs = false -> ∃ x, x ∈ xs ∧ f x = false.
Proof.
  induction xs as [|x xs IH]; [done|]. cbn.
  destruct (f x) eqn:Hx; cbn.
  - intros Hrest. destruct (IH Hrest) as (y & ? & ?). exists y.
    split; [by right|done].
  - intros _. exists x. split; [by left|done].
Qed.

Lemma hasAllOwnerReferences_missing l q :
  hasAllOwnerReferences l q = false ->
  ∃ r, r ∈ GetOwnerReferences (deref l q) ∧
       exist l !! uniqueKeyFromOwnerReference r = None.
Proof.
  unfold hasAllOwnerReferences.
  destruct (GetOwnerReferences (deref l q)) as [|r0 rs]; [done|].
  intros (r & Hr & Hk)%forallb_false_elem. exists r. split; [done|].
  unfold known in Hk. apply bool_decide_eq_false in Hk.
  by apply eq_None_not_Some.
Qed.

(** One step of the cascade leaves a dependent that is not ready alone,
    and tries to apply any other. *)
Lemma cascadeStep_outcome l q :
  (cascadeStep l q = l ∧ hasAllOwnerReferences l q = false) ∨
  attempted q (trace (cascadeStep l q)).
Proof.
  unfold cascadeStep.
  destruct (length _ =? 1); cbn [orb].
  { right. apply applyAndRecord_attempted. }
  destruct (hasAllOwnerReferences l q); [|by left].
  right. apply applyAndRecord_attempted.
Qed.

Lemma notedAt_touches l l' p q o :
  touches p l l' -> q ≠ p -> notedAt l q o -> notedAt l' q o.
Proof.
  intros Ht Hne [Ha|(Hq & Hqueue)].
  - left. eapply attempted_prefix; [by eapply touches_prefix|done].
  - right. destruct Ht as (_ & Hpd & _ & Ho & _).
    rewrite Hpd, Ho by done. done.
Qed.

Lemma notedAway_touches key l l' p q o :
  touches p l l' -> q ≠ p -> notedAway key l q o -> notedAway key l' q o.
Proof.
  intros Ht Hne [Ha|(Hq & Hqueue)].
  - left. eapply attempted_prefix; [by eapply touches_prefix|done].
  - right. destruct Ht as (_ & Hpd & _ & Ho & _).
    rewrite Hpd, Ho by done. done.
Qed.

Lemma notedAt_cascadeStep l q p o :
  notedAt l p o -> notedAt (cascadeStep l q) p o.
Proof.
  intros Hn. destruct (decide (p = q)) as [->|Hne].
  - destruct (cascadeStep_outcome l q) as [[-> _]|?]; [done|by left].
  - eapply notedAt_touches; [apply cascadeStep_touches|done..].
Qed.

Lemma notedAway_cascadeStep key l q p o :
  notedAway key l p o -> notedAway key (cascadeStep l q) p o.
Proof.
  intros Hn. destruct (decide (p = q)) as [->|Hne].
  - destruct (cascadeStep_outcome l q) as [[-> _]|?]; [done|by left].
  - eapply notedAway_touches; [apply cascadeStep_touches|done..].
Qed.

Lemma notedAt_foldl ps p o : forall l,
  notedAt l p o -> notedAt (foldl cascadeStep l ps) p o.
Proof.
  induction ps as [|q ps IH]; intros l Hn; [done|].
  cbn [foldl]. by apply IH, notedAt_cascadeStep.
Qed.

Lemma notedAway_foldl key ps p o : forall l,
  notedAway key l p o -> notedAway key (foldl cascadeStep l ps) p o.
Proof.
  induction ps as [|q ps IH]; intros l Hn; [done|].
  cbn [foldl]. by apply IH, notedAway_cascadeStep.
Qed.

Lemma accounted_touches fm origs l l' p :
  touches p l l' -> accounted fm origs l -> accounted fm origs l'.
Proof.
  intros (_ & Hpd & _ & _ & _ & _ & _ & _ & Hm & _) Hacc q o r Hq Hfm Hr.
  rewrite Hpd. destruct (Hacc _ _ _ Hq Hfm Hr) as [?|?]; [left|by right].
  by apply Hm.
Qed.

(** After the loop over the objects waiting for [key], each of them has
    been tried or still waits under another key. *)
Lemma foldl_cascadeStep_noted fm origs key ps : forall l,
  wellFormed fm origs l -> accounted fm origs l ->
  is_Some (exist l !! key) ->
  (∀ q, q ∈ ps -> waitsFor fm origs key q) ->
  (∀ q o, q ∈ ps -> origs !! q = Some o -> notedAt l q o) ->
  ∀ q o, q ∈ ps -> origs !! q = Some o ->
         notedAway key (foldl cascadeStep l ps) q o.
Proof.
  induction ps as [|q0 ps IH]; intros l Hwf Hacc Hkey Hps Hn q o Hq Hqo.
  { by apply elem_of_nil in Hq. }
  cbn [foldl].
  destruct (decide (q = q0)) as [->|Hne].
  - apply notedAway_foldl.
    destruct (cascadeStep_outcome l q0) as [[-> Hall]|?]; [|by left].
    destruct (Hn q0 o) as [?|(Hlq & _)]; [by left|done|by left|].
    right. split; [done|].
    apply hasAllOwnerReferences_missing in Hall as (r & Hr & Hmiss).
    rewrite (deref_lookup _ _ _ Hlq) in Hr.
    destruct (Hps q0) as (o' & Hqo' & Hfm & _); [by left|].
    assert (o' = o) as -> by congruence.
    destruct (Hacc _ _ _ Hqo Hfm Hr) as [[u Hu]|(ps' & Hk & Hin)];
      [congruence|].
    exists (uniqueKeyFromOwnerReference r), ps'. split; [|done].
    intros Heq. rewrite Heq in Hmiss. destruct Hkey as [u Hu]. congruence.
  - apply elem_of_cons in Hq as [?|Hq]; [done|].
    pose proof (cascadeStep_touches l q0) as Ht.
    apply IH; try done.
    + eapply cascadeStep_wellFormed; [done..|]. apply Hps. by left.
    + by eapply accounted_touches.
    + destruct Ht as (_ & _ & _ & _ & _ & _ & _ & _ & Hm & _). by apply Hm.
    + intros q' Hq'. apply Hps. by right.
    + intros q' o' Hq' Hqo'. apply notedAt_cascadeStep, Hn; [by right|done].
Qed.

Lemma cascade_noted fm origs l key :
  wellFormed fm origs l -> accounted fm origs l ->
  is_Some (exist l !! key) -> noted fm origs l ->
  noted fm origs (cascade l key).
Proof.
  intros Hwf Hacc Hkey Hn. unfold cascade.
  destruct (pending l !! key) as [ps|] eqn:Hps; [|done].
  destruct (foldl_cascadeStep_frame ps l) as (Hpd & _).
  intros p o Hp Hfm.
  pose proof (notedAt_foldl ps p o l (Hn _ _ Hp Hfm)) as [?|(Hlp & Hqueue)];
    [by left|].
  destruct Hqueue as (k & ps' & Hk & Hin).
  destruct (decide (k = key)) as [->|Hne].
  - rewrite Hpd, Hps in Hk. injection Hk as <-.
    destruct (foldl_cascadeStep_noted fm origs key ps l Hwf Hacc Hkey)
      with (q := p) (o := o) as [?|(_ & k' & ps' & Hne & Hk' & Hin')];
      try done.
    + intros q Hq. by eapply (wf_pending _ _ _ Hwf).
    + intros q o' Hq Hqo. destruct (wf_pending _ _ _ Hwf _ _ _ Hps Hq)
        as (o'' & Hqo' & Hfq & _).
      assert (o'' = o') as -> by congruence. by apply Hn.
    + by left.
    + right. split; [done|]. exists k', ps'. split; [|done]. cbn.
      by rewrite lookup_delete_ne.
  - right. split; [done|]. exists k, ps'. split; [|done]. cbn.
    by rewrite lookup_delete_ne.
Qed.

Lemma checkOwners_all_known (ex : gmap uniqueKey string) p refs :
  forall acc : bool * gmap uniqueKey (list nat),
  (∀ ref, ref ∈ refs -> is_Some (ex !! uniqueKeyFromOwnerReference ref)) ->
  foldl (fun acc ownerReference =>
           let key := uniqueKeyFromOwnerReference ownerReference in
           match ex !! key with
           | Some _ => acc
           | None => (false, enqueue key p acc.2)
           end) acc refs = acc.
Proof.
  induction refs as [|ref refs IH]; intros acc Hall; [done|]. cbn [foldl].
  destruct (Hall ref) as [u ->]; [by left|]. apply IH.
  intros ref' Hr. apply Hall. by right.
Qed.

(** If the first loop of [load] finds an owner missing, the object is in
    the queue afterwards. *)
Lemma checkOwners_deferred (ex : gmap uniqueKey string) p refs
    (pd : gmap uniqueKey (list nat)) :
  (checkOwners ex p refs pd).1 = false ->
  ∃ k ps, (checkOwners ex p refs pd).2 !! k = Some ps ∧ p ∈ ps.
Proof.
  intros Hfalse.
  destruct (decide (Forall (fun ref =>
              is_Some (ex !! uniqueKeyFromOwnerReference ref)) refs))
    as [Hall|Hnot].
  - exfalso. rewrite Forall_forall in Hall. unfold checkOwners in Hfalse.
    by rewrite checkOwners_all_known in Hfalse.
  - apply not_Forall_Exists in Hnot; [|apply _].
    apply Exists_exists in Hnot as (ref & Hr & Hmiss).
    destruct (checkOwners_ok ex p refs pd) as (_ & _ & _ & H4).
    destruct (H4 _ Hr) as [?|(ps & Hk & Hin)]; [done|].
    by exists (uniqueKeyFromOwnerReference ref), ps.
Qed.

Lemma load_noted fm origs l p o :
  wellFormed fm origs l ->
  origs !! p = Some o -> objects l !! p = Some o -> objGroupKind o ∈ fm ->
  (∀ q oq r, q ≠ p -> origs !! q = Some oq -> objGroupKind oq ∈ fm ->
     r ∈ GetOwnerReferences oq ->
     is_Some (exist l !! uniqueKeyFromOwnerReference r) ∨
     ∃ ps, pending l !! uniqueKeyFromOwnerReference r = Some ps ∧ q ∈ ps) ->
  (∀ q oq, q ≠ p -> origs !! q = Some oq -> objGroupKind oq ∈ fm ->
     notedAt l q oq) ->
  noted fm origs (load l p).
Proof.
  intros Hwf Hp Hlp Hfm Hacc Hn. rewrite load_unfold.
  rewrite (deref_lookup _ _ _ Hlp).
  pose proof (checkOwners_ok (exist l) p (GetOwnerReferences o) (pending l))
    as (H1 & H2 & _).
  pose proof (checkOwners_deferred (exist l) p (GetOwnerReferences o)
                (pending l)) as Hdef.
  destruct (checkOwners _ _ _ _) as [allExist pd]. cbn [fst snd] in *.
  destruct allExist; cbn [negb].
  - destruct (H1 eq_refl) as (-> & Hall). rewrite setPending_id.
    assert (Ht : touches p l (applyAndRecord (updateOwnerReferences l p) p).1).
    { eapply touches_trans; [apply touches_updateOwnerReferences|].
      apply applyAndRecord_touches. }
    pose proof (applyAndRecord_attempted (updateOwnerReferences l p) p) as Hat.
    pose proof (applyAndRecord_ok (updateOwnerReferences l p) p) as Hok.
    destruct (applyAndRecord _ _) as [l2 ok]. cbn [fst] in *.
    assert (Hwf2 : wellFormed fm origs l2) by (by eapply wellFormed_touches).
    assert (Hn2 : noted fm origs l2).
    { intros q oq Hq Hfq. destruct (decide (q = p)) as [->|Hne]; [by left|].
      eapply notedAt_touches; [done..|]. by apply Hn. }
    destruct ok; cbn [negb]; [|done].
    apply cascade_noted; [done| |by apply Hok|done].
    destruct Ht as (_ & Hpd & _ & _ & _ & _ & _ & _ & Hm & _).
    intros q oq r Hq Hfq Hr. destruct (decide (q = p)) as [->|Hne].
    + left. apply Hm. assert (oq = o) as -> by congruence. by apply Hall.
    + rewrite Hpd. destruct (Hacc _ _ _ Hne Hq Hfq Hr) as [?|?];
        [left; by apply Hm|by right].
  - intros q oq Hq Hfq. destruct (decide (q = p)) as [->|Hne].
    + assert (oq = o) as -> by congruence. right. split; [done|].
      by apply Hdef.
    + destruct (Hn _ _ Hne Hq Hfq) as [?|(Hlq & k & ps & Hk & Hin)];
        [by left|]. right. split; [done|].
      destruct (H2 _ _ _ Hk Hin) as (ps' & ? & ?). by exists k, ps'.
Qed.

Lemma visit_noted fm origs l o :
  wellFormed fm origs l -> accounted fm origs l -> noted fm origs l ->
  let r := visit (allocate o l) (length (objects l)) in
  r.2 = None -> noted fm (origs ++ [o]) r.1.
Proof.
  intros Hwf Hacc Hn. pose proof (allocate_wellFormed _ _ _ o Hwf) as Hwf1.
  assert (Hlen : length (objects l) = length origs) by apply Hwf.
  assert (Hold : ∀ q oq, q ≠ length (objects l) ->
            (origs ++ [o]) !! q = Some oq -> origs !! q = Some oq).
  { intros q oq Hne Hq. apply lookup_app_Some in Hq as [?|[? Hq]]; [done|].
    apply list_lookup_singleton_Some in Hq as [? _]. lia. }
  assert (Hn1 : ∀ w q oq, q ≠ length (objects l) ->
            (origs ++ [o]) !! q = Some oq -> objGroupKind oq ∈ fm ->
            notedAt (setWorld w (allocate o l)) q oq).
  { intros w q oq Hne Hq Hfq.
    destruct (Hn _ _ (Hold _ _ Hne Hq) Hfq) as [?|(Hlq & Hqueue)];
      [by left|]. right. split; [|done]. cbn. by apply lookup_app_l_Some. }
  assert (Hlp : ∀ w, objects (setWorld w (allocate o l)) !! length (objects l)
                     = Some o).
  { intros w. cbn. rewrite lookup_app_r by lia. by rewrite Nat.sub_diag. }
  unfold visit. destruct (ctxErr _) as [w [|]]; cbn [fst snd]; [done|].
  unfold filter. rewrite (deref_lookup _ _ _ (Hlp w)).
  replace (filterMap (setWorld w (allocate o l))) with fm
    by (symmetry; apply Hwf).
  destruct (decide (objGroupKind o ∈ fm)) as [Hin|Hout].
  - rewrite bool_decide_true by done. cbn [negb fst snd]. intros _.
    eapply load_noted; [by apply wellFormed_setWorld| |apply Hlp|done| |].
    + rewrite Hlen, lookup_app_r by lia. by rewrite Nat.sub_diag.
    + intros q oq r Hne Hq Hfq Hr. by eapply Hacc, Hr; [apply Hold|].
    + intros q oq Hne Hq Hfq. by apply Hn1.
  - rewrite bool_decide_false by done. cbn [negb fst snd]. intros _.
    intros q oq Hq Hfq.
    destruct (decide (q = length (objects l))) as [->|Hne].
    { rewrite Hlen, lookup_app_r, Nat.sub_diag in Hq by lia.
      injection Hq as <-. done. }
    destruct (Hn1 w q oq Hne Hq Hfq) as [Ha|?]; [|by right].
    left. eapply attempted_prefix; [|exact Ha]. by apply prefix_app_r.
Qed.

Lemma Decode_noted fm docs : forall origs l,
  wellFormed fm origs l -> accounted fm origs l -> noted fm origs l ->
  (Decode docs l).2 = None ->
  noted fm (origs ++ objectsOf docs) (Decode docs l).1.
Proof.
  induction docs as [|[o|] docs IH]; intros origs l Hwf Hacc Hn;
    cbn [Decode fst snd].
  - by rewrite objectsOf_nil, app_nil_r.
  - rewrite objectsOf_cons.
    replace (origs ++ o :: objectsOf docs)
      with ((origs ++ [o]) ++ objectsOf docs) by (by rewrite <- app_assoc).
    pose proof (visit_noted fm origs l o Hwf Hacc Hn) as Hn1.
    destruct (visit_wellFormed fm origs l o Hwf Hacc) as (Hwf1 & _ & Hacc1).
    destruct (visit _ _) as [l1 [err|]]; cbn [fst snd] in *; [done|].
    by apply IH; [|apply Hacc1|apply Hn1].
  - done.
Qed.

Lemma visit_filterMap l p : filterMap (visit l p).1 = filterMap l.
Proof.
  unfold visit. destruct (ctxErr _) as [w [|]]; cbn [fst]; [done|].
  destruct (negb _); cbn [fst]; [done|].
  apply (load_frame (setWorld w l) p).
Qed.

(** A filtered object is logged as such when it is visited. *)
Lemma Decode_filtered_logged fm docs : forall l l' i o,
  Decode docs l = (l', None) -> filterMap l = fm ->
  objectsOf docs !! i = Some o -> objGroupKind o ∉ fm ->
  LogSkippedFiltered (length (objects l) + i) ∈ trace l'.
Proof.
  induction docs as [|[o0|] docs IH]; intros l l' i o; cbn [Decode];
    [done| |done].
  rewrite objectsOf_cons.
  pose proof (visit_filterMap (allocate o0 l) (length (objects l))) as Hf.
  destruct (visit _ _) as [l1 [err|]] eqn:Hv; [done|]. cbn [fst] in Hf.
  intros Hd Hfm Hi Hout. destruct i as [|i]; cbn in Hi.
  - injection Hi as ->. rewrite Nat.add_0_r.
    pose proof (Decode_prefix docs l1) as Hpre. rewrite Hd in Hpre.
    eapply elem_of_prefix; [|exact Hpre]. revert Hv. unfold visit.
    destruct (ctxErr _) as [w [|]]; [done|]. unfold filter.
    assert (Hlp : objects (setWorld w (allocate o l)) !! length (objects l)
                  = Some o).
    { cbn. rewrite lookup_app_r by lia. by rewrite Nat.sub_diag. }
    rewrite (deref_lookup _ _ _ Hlp). cbn [filterMap setWorld allocate].
    rewrite Hfm, bool_decide_false by done. cbn [negb]. intros [= <-].
    cbn. apply elem_of_app. right. by left.
  - replace (length (objects l) + S i) with (length (objects l1) + i).
    + eapply IH; [exact Hd| |exact Hi|exact Hout]. by rewrite Hf.
    + rewrite (visit_length _ _ _ Hv). cbn. rewrite length_app. cbn. lia.
Qed.

(** No object is dropped in silence.  When [Load] succeeds, every object
    of the stream has left a mark in the trace: a filtered object is
    logged as filtered; any other has been tried (the write client was
    called for it, or the REST mapper did not know its kind) or is
    reported as skipped for a missing owner. *)
Theorem every_object_is_accounted_for
    (fm : gset GroupKind) (w : W) docs l p o :
  Load (newLoader fm w) docs = (l, None) ->
  objectsOf docs !! p = Some o ->
  (objGroupKind o ∉ fm -> LogSkippedFiltered p ∈ trace l) ∧
  (objGroupKind o ∈ fm -> attempted p (trace l) ∨ 1 ≤ reports p (trace l)).
Proof.
  intros HL Hp.
  destruct (Load_ok _ _ _ HL) as (l1 & Hd & _ & _ & Hpd & _ & Htr).
  split; intros Hfm.
  - rewrite Htr. apply elem_of_app. left.
    by apply (Decode_filtered_logged fm docs (newLoader fm w) l1 p o).
  - destruct (newLoader_wellFormed fm w) as [Hwf Hacc].
    pose proof (Decode_noted fm docs [] (newLoader fm w) Hwf Hacc) as Hn.
    rewrite Hd in Hn. cbn [fst snd] in Hn.
    assert (Hn0 : noted fm [] (newLoader fm w)).
    { intros q oq Hq. by rewrite lookup_nil in Hq. }
    destruct (Hn Hn0 eq_refl p o Hp Hfm) as [Ha|(_ & k & ps & Hk & Hin)].
    + left. eapply attempted_prefix; [|exact Ha]. rewrite Htr.
      by apply prefix_app_r.
    + right. apply reports_elem_of. rewrite Htr. apply elem_of_app. right.
      apply list_elem_of_fmap. exists p. split; [done|].
      by eapply elem_of_skipped.
Qed.

(** ** Rewriting owner references *)

(** [updateOwnerReferences] changes nothing but the uids of the owner
    references of its object: the maps, the trace and the other objects are
    as before, the object keeps its identity and its other fields, it has
    as many owner references as before, in the same order and with the same
    API version, kind and name, and the uid of each is the one [exist] has
    for its key, or the old one if [exist] has none. *)
Theorem updateOwnerReferences_rewrites_only_uids l p o :
  objects l !! p = Some o ->
  let l' := updateOwnerReferences l p in
  exist l' = exist l ∧ pending l' = pending l ∧ trace l' = trace l ∧
  (∀ q, q ≠ p -> objects l' !! q = objects l !! q) ∧
  ∃ o', objects l' !! p = Some o' ∧
    uniqueKeyFromMetadata o' = uniqueKeyFromMetadata o ∧
    GetNamespace o' = GetNamespace o ∧
    GetResourceVersion o' = GetResourceVersion o ∧
    GetPayload o' = GetPayload o ∧
    length (GetOwnerReferences o') = length (GetOwnerReferences o) ∧
    ∀ i r, GetOwnerReferences o !! i = Some r ->
      ∃ r', GetOwnerReferences o' !! i = Some r' ∧
            refAPIVersion r' = refAPIVersion r ∧ refKind r' = refKind r ∧
            refName r' = refName r ∧
            refUID r' = default (refUID r)
                          (exist l !! uniqueKeyFromOwnerReference r).
Proof.
  intros Hp l'. subst l'. unfold updateOwnerReferences.
  rewrite (deref_lookup _ _ _ Hp).
  destruct (GetOwnerReferences o) as [|r0 rs] eqn:Hrs.
  { do 4 (split; [done|]). exists o. rewrite Hrs. by repeat split. }
  rewrite <- Hrs.
  do 3 (split; [done|]). split; [intros q Hq; by apply lookup_assign_ne|].
  eexists. split.
  { cbn. apply list_lookup_insert_eq. by eapply lookup_lt_Some. }
  do 4 (split; [done|]). cbn [GetOwnerReferences SetOwnerReferences].
  split; [by rewrite length_fmap|].
  intros i r Hi. rewrite list_lookup_fmap, Hi. cbn.
  eexists. split; [done|]. unfold rewriteOwner.
  by destruct (exist l !! uniqueKeyFromOwnerReference r).
Qed.

(** ** What the cascade does for a ready dependent *)

Lemma SetOwnerReferences_id o :
  SetOwnerReferences (GetOwnerReferences o) o = o.
Proof. by destruct o. Qed.

Lemma updateOwnerReferences_deref l p o :
  objects l !! p = Some o ->
  deref (updateOwnerReferences l p) p
  = SetOwnerReferences (rewriteOwner (exist l) <$> GetOwnerReferences o) o.
Proof.
  intros Hp. unfold updateOwnerReferences. rewrite (deref_lookup _ _ _ Hp).
  destruct (GetOwnerReferences o) as [|r0 rs] eqn:Hrs.
  - rewrite (deref_lookup _ _ _ Hp). cbn. by rewrite <- Hrs,
      SetOwnerReferences_id.
  - apply deref_assign_valid. by eapply lookup_lt_Some.
Qed.

(** [apply] logs that the kind is unknown or calls create on the cleared
    object. *)
Lemma apply_first_call l p :
  p < length (objects l) ->
  LogFailedGetResource p ∈ trace (apply l p).1 ∨
  ∃ gvr ns res,
    CallCreate p gvr ns (clearUnstructured (deref l p)) res
      ∈ trace (apply l p).1.
Proof.
  intros Hlt. unfold apply.
  destruct (ResourceFor _ _) as [w1 [gvr|]]; cbn [fst].
  { right.
    rewrite (deref_assign_valid (setWorld w1 l) p _ Hlt).
    change (deref (setWorld w1 l) p) with (deref l p).
    destruct (Create _ _ _ _) as [w2 created].
    exists gvr, (GetNamespace (clearUnstructured (deref l p))), created.
    destruct created as [newObj|err]; cbn [fst].
    { cbn. rewrite !elem_of_app, !list_elem_of_singleton. auto. }
    destruct (IsAlreadyExists err); cbn [negb fst].
    2: { cbn. rewrite !elem_of_app, !list_elem_of_singleton. auto. }
    destruct (Update _ _ _ _) as [w3 [newObj|err']]; cbn [fst].
    { cbn. rewrite !elem_of_app, !list_elem_of_singleton. auto. }
    destruct (IsConflict err'); cbn;
      rewrite !elem_of_app, !list_elem_of_singleton; auto. }
  left. cbn. apply elem_of_app. right. by left.
Qed.

Lemma foldl_cascadeStep_other ps q : forall l,
  q ∉ ps ->
  objects (foldl cascadeStep l ps) !! q = objects l !! q ∧
  (∀ k, is_Some (exist l !! k) ->
        is_Some (exist (foldl cascadeStep l ps) !! k)).
Proof.
  induction ps as [|q0 ps IH]; intros l Hq; [done|]. cbn [foldl].
  apply not_elem_of_cons in Hq as [Hne Hq].
  destruct (cascadeStep_touches l q0)
    as (_ & _ & _ & Ho & _ & _ & _ & _ & Hm & _).
  destruct (IH (cascadeStep l q0) Hq) as [Ho' Hm'].
  split; [by rewrite Ho', Ho|]. intros k Hk. by apply Hm', Hm.
Qed.

(** When the cascade for [key] comes to a dependent that has a single owner
    reference, or whose owners are all known, it tries to apply it: it
    logs that the REST mapper does not know its kind, or it calls create
    on the object with its owner uids rewritten from the map [exist] as it
    is by then (which has every key [exist] had when the cascade began)
    and cleared by [clearUnstructured]. *)
Theorem cascade_tries_ready_dependents l key ps q o :
  pending l !! key = Some ps -> q ∈ ps -> objects l !! q = Some o ->
  length (GetOwnerReferences o) = 1 ∨ allKnown (exist l) o ->
  ∃ ex : gmap uniqueKey string,
    (∀ k, is_Some (exist l !! k) -> is_Some (ex !! k)) ∧
    (LogFailedGetResource q ∈ trace (cascade l key) ∨
     ∃ gvr ns res,
       CallCreate q gvr ns
         (clearUnstructured
            (SetOwnerReferences (rewriteOwner ex <$> GetOwnerReferences o) o))
         res ∈ trace (cascade l key)).
Proof.
  intros Hps Hq Hlq Hready. unfold cascade. rewrite Hps. cbn [trace setPending].
  apply list_elem_of_split_l in Hq as (pre & post & -> & Hpre).
  rewrite foldl_app. cbn [foldl]. set (lq := foldl cascadeStep l pre).
  destruct (foldl_cascadeStep_other pre q l Hpre) as [Ho Hm]. fold lq in Ho, Hm.
  rewrite Hlq in Ho. exists (exist lq). split; [done|].
  assert (Hstep : LogFailedGetResource q ∈ trace (cascadeStep lq q) ∨
    ∃ gvr ns res,
      CallCreate q gvr ns
        (clearUnstructured
           (SetOwnerReferences
              (rewriteOwner (exist lq) <$> GetOwnerReferences o) o))
        res ∈ trace (cascadeStep lq q)).
  { unfold cascadeStep. rewrite (deref_lookup _ _ _ Ho).
    assert ((length (GetOwnerReferences o) =? 1)
            || hasAllOwnerReferences lq q = true) as ->.
    { destruct Hready as [->|Hk]; [done|]. apply orb_true_iff. right.
      apply allKnown_hasAllOwnerReferences.
      rewrite (deref_lookup _ _ _ Ho). by eapply allKnown_mono. }
    pose proof (apply_first_call (updateOwnerReferences lq q) q) as Ha.
    rewrite (updateOwnerReferences_deref _ _ _ Ho) in Ha.
    unfold applyAndRecord. destruct (apply _ _) as [l1 [newObj|]];
      cbn [fst trace setExist] in *; apply Ha;
      destruct (touches_updateOwnerReferences q lq) as (_ & _ & -> & _);
      by eapply lookup_lt_Some. }
  pose proof (foldl_cascadeStep_prefix post (cascadeStep lq q)) as Hgrow.
  destruct Hstep as [Hlog|(gvr & ns & res & Hcall)].
  - left. by eapply elem_of_prefix.
  - right. exists gvr, ns, res. by eapply elem_of_prefix.
Qed.

(** ** Cancellation *)

(** When [Load] returns the error of a cancelled context, it has stopped
    at a document boundary: the documents before were handled in full, and
    the object at which the cancellation was seen, and every document
    after it, left no trace and changed neither map. *)
Theorem cancelled_load_stops_at_a_document l docs l' :
  Load l docs = (l', Some (ErrFailedToDecode ErrContext)) ->
  ∃ docs1 o docs2 l1,
    docs = docs1 ++ DocObject o :: docs2 ∧
    Decode docs1 l = (l1, None) ∧
    (ctxErr (world l1)).2 = true ∧
    trace l' = trace l1 ∧ exist l' = exist l1 ∧ pending l' = pending l1.
Proof.
  intros HL. destruct (Load_failed _ _ _ _ HL) as (cause & Hd & [= <-]).
  clear HL. revert l Hd.
  induction docs as [|[o|] docs IH]; intros l; cbn [Decode]; [done| |done].
  destruct (visit (allocate o l) (length (objects l))) as [l1 [err|]] eqn:Hv.
  - intros [= <- ->]. exists [], o, docs, l. split; [done|]. split; [done|].
    revert Hv. unfold visit. cbn [world allocate].
    destruct (ctxErr (world l)) as [w [|]]; [|by destruct (negb _)].
    by intros [= <-].
  - intros Hd. destruct (IH _ Hd) as (docs1 & o' & docs2 & l2 & -> & Hd1 & ?).
    exists (DocObject o :: docs1), o', docs2, l2. split; [done|].
    split; [|done]. cbn [Decode]. by rewrite Hv.
Qed.

(** ** Objects whose API version does not parse *)

(** [obj.GroupVersionKind()] is the zero value for such an object: [filter]
    looks up the (group, kind) with no group and no kind, whatever the
    kind of the object. *)
Lemma unparsable_has_no_kind (l : loader W) p o :
  objects l !! p = Some o ->
  parseGroupVersion (GetAPIVersion o) = None ->
  objGroupKind o = mkGroupKind "" "" ∧
  filter l p = bool_decide (mkGroupKind "" "" ∈ filterMap l).
Proof.
  intros Hp Hparse.
  assert (Hgk : objGroupKind o = mkGroupKind "" "").
  { unfold objGroupKind, objGVK. by rewrite Hparse. }
  split; [done|]. unfold filter. by rewrite (deref_lookup _ _ _ Hp), Hgk.
Qed.

(** ** The protocol of [apply] in the trace of a load *)

Lemma protocol_app t1 : forall s t2,
  protocol s (t1 ++ t2) =
    match protocol s t1 with
    | Some s' => protocol s' t2
    | None => None
    end.
Proof.
  induction t1 as [|e t1 IH]; intros s t2; cbn [protocol app]; [done|].
  destruct (protocolStep s e) as [s'|]; [apply IH|done].
Qed.

Lemma inRounds_refl l : inRounds l l.
Proof. exists []. by rewrite app_nil_r. Qed.

Lemma inRounds_trans l1 l2 l3 :
  inRounds l1 l2 -> inRounds l2 l3 -> inRounds l1 l3.
Proof.
  intros (n1 & H1 & P1) (n2 & H2 & P2). exists (n1 ++ n2). split.
  - by rewrite H2, H1, app_assoc.
  - by rewrite protocol_app, P1.
Qed.

Lemma inRounds_same_trace l l' : trace l' = trace l -> inRounds l l'.
Proof. intros Htr. exists []. by rewrite app_nil_r. Qed.

Lemma inRounds_protocol l l' :
  inRounds l l' -> protocol Idle (trace l) = Some Idle ->
  protocol Idle (trace l') = Some Idle.
Proof. intros (new & -> & Hp) Hl. by rewrite protocol_app, Hl. Qed.

Lemma apply_inRounds l p : inRounds l (apply l p).1.
Proof.
  unfold apply, inRounds.
  destruct (ResourceFor _ _) as [w1 [gvr|]]; cbn [fst].
  2: { by exists [LogFailedGetResource p]. }
  destruct (Create _ _ _ _) as [w2 created].
  destruct created as [newObj|err]; cbn [fst].
  { eexists [_; _]. split; [cbn; by rewrite <- app_assoc|].
    cbn [protocol protocolStep]. by rewrite decide_True. }
  destruct (IsAlreadyExists err) eqn:Hae; cbn [negb fst].
  2: { eexists [_; _]. split; [cbn; by rewrite <- app_assoc|].
       cbn [protocol protocolStep]. by rewrite Hae, decide_True. }
  destruct (Update _ _ _ _) as [w3 [newObj|err']]; cbn [fst].
  { eexists [_; _; _]. split; [cbn; by rewrite <- !app_assoc|].
    cbn [protocol protocolStep]. rewrite Hae, decide_True by done.
    cbn [protocol protocolStep]. by rewrite decide_True. }
  destruct (IsConflict err') eqn:Hc; cbn [fst];
    (eexists [_; _; _]; split; [cbn; by rewrite <- !app_assoc|]);
    cbn [protocol protocolStep]; rewrite Hae, decide_True by done;
    cbn [protocol protocolStep]; rewrite Hc; by rewrite decide_True.
Qed.

Lemma applyAndRecord_inRounds l p : inRounds l (applyAndRecord l p).1.
Proof.
  unfold applyAndRecord. pose proof (apply_inRounds l p) as Ha.
  destruct (apply l p) as [l1 [newObj|]]; done.
Qed.

Lemma cascadeStep_inRounds l q : inRounds l (cascadeStep l q).
Proof.
  unfold cascadeStep. destruct (_ || _); [|apply inRounds_refl].
  eapply inRounds_trans; [|apply applyAndRecord_inRounds].
  apply inRounds_same_trace, updateOwnerReferences_trace.
Qed.

Lemma foldl_cascadeStep_inRounds ps : forall l,
  inRounds l (foldl cascadeStep l ps).
Proof.
  induction ps as [|q ps IH]; intros l; cbn [foldl]; [apply inRounds_refl|].
  eapply inRounds_trans; [apply cascadeStep_inRounds|apply IH].
Qed.

Lemma cascade_inRounds l key : inRounds l (cascade l key).
Proof.
  unfold cascade. destruct (pending l !! key) as [ps|]; [|apply inRounds_refl].
  eapply inRounds_trans; [apply foldl_cascadeStep_inRounds|].
  by apply inRounds_same_trace.
Qed.

Lemma load_inRounds l p : inRounds l (load l p).
Proof.
  rewrite load_unfold. destruct (checkOwners _ _ _ _) as [allExist pd].
  cbn zeta. destruct allExist; cbn [negb]; [|by apply inRounds_same_trace].
  pose proof (applyAndRecord_inRounds (updateOwnerReferences (setPending pd l) p) p)
    as Ha.
  destruct (applyAndRecord _ _) as [l2 ok]. cbn [fst] in Ha.
  assert (Hl2 : inRounds l l2).
  { eapply inRounds_trans; [|exact Ha].
    apply inRounds_same_trace. by rewrite updateOwnerReferences_trace. }
  destruct ok; cbn [negb]; [|done].
  eapply inRounds_trans; [exact Hl2|apply cascade_inRounds].
Qed.

Lemma visit_inRounds l p : inRounds l (visit l p).1.
Proof.
  unfold visit. destruct (ctxErr _) as [w [|]]; cbn [fst].
  { by apply inRounds_same_trace. }
  destruct (negb _); cbn [fst].
  - by exists [LogSkippedFiltered p].
  - eapply inRounds_trans; [|apply load_inRounds].
    by apply inRounds_same_trace.
Qed.

Lemma Decode_inRounds docs : forall l, inRounds l (Decode docs l).1.
Proof.
  induction docs as [|[o|] docs IH]; intros l; cbn [Decode];
    [apply inRounds_refl| |apply inRounds_refl].
  pose proof (visit_inRounds (allocate o l) (length (objects l))) as Hv.
  destruct (visit _ _) as [l1 [err|]]; cbn [fst] in *.
  - eapply inRounds_trans; [|exact Hv]. by apply inRounds_same_trace.
  - eapply inRounds_trans; [|apply IH].
    eapply inRounds_trans; [|exact Hv]. by apply inRounds_same_trace.
Qed.

Lemma protocol_reports ps : protocol Idle (LogSkippedMissingOwner <$> ps) = Some Idle.
Proof. induction ps as [|p ps IH]; [done|]. exact IH. Qed.

Lemma Load_inRounds l docs : inRounds l (Load l docs).1.
Proof.
  destruct (Load l docs) as [l' [err|]] eqn:HL; cbn [fst].
  - destruct (Load_failed _ _ _ _ HL) as (cause & Hd & _).
    pose proof (Decode_inRounds docs l) as Hr. by rewrite Hd in Hr.
  - destruct (Load_ok _ _ _ HL) as (l1 & Hd & _ & _ & _ & _ & Htr).
    pose proof (Decode_inRounds docs l) as Hr. rewrite Hd in Hr.
    eapply inRounds_trans; [exact Hr|].
    exists (LogSkippedMissingOwner <$> skipped (pending l1)).
    split; [done|apply protocol_reports].
Qed.

(** ** Every object is handed to [apply] *)

Lemma handed_prefix p o (tr tr' : list Event) :
  tr `prefix_of` tr' -> handed p o tr -> handed p o tr'.
Proof.
  intros [k ->] [Hlog|(gvr & ns & res & He)].
  - left. apply elem_of_app. by left.
  - right. exists gvr, ns, res. apply elem_of_app. by left.
Qed.

Lemma load_handed l p o :
  objects l !! p = Some o -> GetOwnerReferences o = [] ->
  handed p o (trace (load l p)).
Proof.
  intros Hp Hrefs. unfold load. rewrite (deref_lookup _ _ _ Hp), Hrefs.
  cbn [negb]. unfold applyAndRecord.
  assert (Hlt : p < length (objects (setPending (pending l) l))).
  { cbn. by eapply lookup_lt_Some. }
  pose proof (apply_first_call (setPending (pending l) l) p Hlt) as Ha.
  replace (deref (setPending (pending l) l) p) with o in Ha
    by (symmetry; by apply deref_lookup).
  destruct (apply _ _) as [l1 [newObj|]]; cbn [fst negb] in *; [|exact Ha].
  eapply handed_prefix; [apply cascade_prefix|exact Ha].
Qed.

Lemma Decode_handed docs : forall l i o,
  (Decode docs l).2 = None ->
  objectsOf docs !! i = Some o -> objGroupKind o ∈ filterMap l ->
  GetOwnerReferences o = [] ->
  handed (length (objects l) + i) o (trace (Decode docs l).1).
Proof.
  induction docs as [|[o0|] docs IH]; intros l i o; cbn [Decode];
    [done| |done].
  rewrite objectsOf_cons.
  pose proof (visit_filterMap (allocate o0 l) (length (objects l))) as Hf.
  destruct (visit _ _) as [l1 [err|]] eqn:Hv; [done|]. cbn [fst] in Hf.
  intros Hd Hi Hin Hrefs. destruct i as [|i]; cbn in Hi.
  - injection Hi as ->. rewrite Nat.add_0_r.
    eapply handed_prefix; [apply Decode_prefix|]. revert Hv. unfold visit.
    destruct (ctxErr _) as [w [|]]; [done|]. unfold filter.
    assert (Hlp : objects (setWorld w (allocate o l)) !! length (objects l)
                  = Some o).
    { cbn. rewrite lookup_app_r by lia. by rewrite Nat.sub_diag. }
    rewrite (deref_lookup _ _ _ Hlp). cbn [filterMap setWorld allocate].
    rewrite bool_decide_true by done. cbn [negb]. intros [= <-].
    by apply load_handed.
  - replace (length (objects l) + S i) with (length (objects l1) + i).
    + apply IH; [exact Hd|exact Hi| |exact Hrefs]. by rewrite Hf.
    + rewrite (visit_length _ _ _ Hv). cbn. rewrite length_app. cbn. lia.
Qed.

Lemma Decode_filterMap docs : forall l,
  filterMap (Decode docs l).1 = filterMap l.
Proof.
  induction docs as [|[o|] docs IH]; intros l; cbn [Decode]; [done| |done].
  pose proof (visit_filterMap (allocate o l) (length (objects l))) as Hf.
  destruct (visit _ _) as [l1 [err|]]; cbn [fst] in *; [done|].
  by rewrite IH.
Qed.

Lemma load_handed_known l p o :
  objects l !! p = Some o -> allKnown (exist l) o ->
  handed p (SetOwnerReferences
              (rewriteOwner (exist l) <$> GetOwnerReferences o) o)
         (trace (load l p)).
Proof.
  intros Hp Hknown. rewrite load_unfold. unfold checkOwners.
  rewrite (deref_lookup _ _ _ Hp), checkOwners_all_known by exact Hknown.
  cbn [negb]. unfold applyAndRecord.
  set (l2 := updateOwnerReferences (setPending (pending l) l) p).
  assert (Hp2 : objects (setPending (pending l) l) !! p = Some o) by done.
  assert (Hlt : p < length (objects l2)).
  { subst l2. unfold updateOwnerReferences.
    destruct (GetOwnerReferences _); cbn; [|rewrite length_insert];
      by eapply lookup_lt_Some. }
  pose proof (apply_first_call l2 p Hlt) as Ha.
  replace (deref l2 p)
    with (SetOwnerReferences
            (rewriteOwner (exist l) <$> GetOwnerReferences o) o) in Ha
    by (symmetry; apply (updateOwnerReferences_deref _ p o Hp2)).
  destruct (apply l2 p) as [l3 [newObj|]]; cbn [fst negb] in *; [|exact Ha].
  eapply handed_prefix; [apply cascade_prefix|exact Ha].
Qed.

Lemma visit_handed_known l p o l' :
  objects l !! p = Some o -> objGroupKind o ∈ filterMap l ->
  allKnown (exist l) o -> visit l p = (l', None) ->
  handed p (SetOwnerReferences
              (rewriteOwner (exist l) <$> GetOwnerReferences o) o)
         (trace l').
Proof.
  intros Hp Hin Hknown. unfold visit.
  destruct (ctxErr _) as [w [|]]; [done|]. unfold filter.
  assert (Hpw : objects (setWorld w l) !! p = Some o) by done.
  rewrite (deref_lookup _ _ _ Hpw). cbn [filterMap setWorld].
  rewrite bool_decide_true by done. cbn [negb]. intros [= <-].
  by apply (load_handed_known (setWorld w l) p o).
Qed.

Lemma wellFormedDoc_length docs :
  Forall wellFormedDoc docs -> length (objectsOf docs) = length docs.
Proof.
  induction 1 as [|[o|] docs Hd _ IH]; [done| |done].
  rewrite objectsOf_cons. cbn. by rewrite IH.
Qed.

Lemma Decode_handed_known docs1 o docs2 l l' :
  Decode (docs1 ++ DocObject o :: docs2) l = (l', None) ->
  objGroupKind o ∈ filterMap l ->
  allKnown (exist (Decode docs1 l).1) o ->
  handed (length (objects l) + length docs1)
         (SetOwnerReferences
            (rewriteOwner (exist (Decode docs1 l).1)
               <$> GetOwnerReferences o) o)
         (trace l').
Proof.
  rewrite Decode_app. pose proof (Decode_filterMap docs1 l) as Hf.
  destruct (Decode docs1 l) as [l1 [err|]] eqn:Hd1; [done|].
  cbn [fst] in *. cbn [Decode].
  rewrite <- (Decode_length _ _ _ Hd1).
  destruct (visit _ _) as [l2 [err|]] eqn:Hv; [done|].
  intros Hd2 Hin Hknown.
  pose proof (Decode_prefix docs2 l2) as Hpre. rewrite Hd2 in Hpre.
  eapply handed_prefix; [exact Hpre|].
  apply (visit_handed_known (allocate o l1) (length (objects l1)) o l2);
    [|by rewrite <- Hf in Hin|exact Hknown|exact Hv].
  cbn. rewrite lookup_app_r by lia. by rewrite Nat.sub_diag.
Qed.

(** ** Failures of single objects *)


End LoaderExtras.

(* ===================================================================== *)
(** * The package functions *)
(* ===================================================================== *)

Section PackageExtras.
Context {W : Type} `{External W} `{Setup W}.

(** Every kind of the filter set was the answer of [mappingFor] for one of
    the requested resources. *)
Lemma resolve_sound resources : forall (w w' : W) fm0 fm,
  Snapshot.resolve w resources fm0 = (w', inl fm) ->
  ∀ gk, gk ∈ fm ->
    gk ∈ fm0 ∨ ∃ resource w1 w2, resource ∈ resources ∧
                                 mappingFor w1 resource = (w2, Some gk).
Proof.
  induction resources as [|r rs IH]; intros w w' fm0 fm; cbn.
  { intros [= <- <-] gk Hgk. by left. }
  destruct (mappingFor w r) as [w1 [gk0|]] eqn:Hm; [|done].
  intros Hres gk Hgk.
  destruct (IH _ _ _ _ Hres gk Hgk) as [Hin|(r' & w2 & w3 & Hr' & Hm')].
  - apply elem_of_union in Hin as [->%elem_of_singleton|?]; [|by left].
    right. exists r, w, w1. split; [by left|done].
  - right. exists r', w2, w3. split; [by right|done].
Qed.

Lemma newLoader_ok (w w' : W) kubeconfigPath resources l :
  Snapshot.newLoader w kubeconfigPath resources = (w', inl l) ->
  ∃ fm w0, l = newLoader fm w' ∧
           Snapshot.resolve w0 resources ∅ = (w', inl fm).
Proof.
  unfold Snapshot.newLoader.
  destruct (NewClientset w kubeconfigPath) as [w1 [|]]; [|done].
  destruct (ToRESTMapper w1) as [w2 [|]]; [|done].
  destruct (ToDynamicClient w2) as [w3 [|]]; [|done]. cbn [negb].
  destruct (Snapshot.resolve w3 resources ∅) as [w4 [fm|err]] eqn:Hres;
    [|done].
  intros [= <- <-]. by exists fm, w3.
Qed.

(** [Load] writes only what was asked for: every object it passes to the
    write client is an object of the stream whose (group, kind) is the one
    [mappingFor] answered for one of the requested resource names. *)
Theorem Load_writes_only_requested_kinds
    (w : W) kubeconfigPath docs filters l err p :
  Snapshot.Load w kubeconfigPath docs filters = (Some l, err) ->
  submitted p (trace l) ->
  ∃ o resource w1 w2,
    objectsOf docs !! p = Some o ∧ resource ∈ filters ∧
    mappingFor w1 resource = (w2, Some (objGroupKind o)).
Proof.
  unfold Snapshot.Load.
  destruct (Snapshot.newLoader w kubeconfigPath filters) as [w' [l0|e]]
    eqn:Hnew; [|done].
  destruct (newLoader_ok _ _ _ _ _ Hnew) as (fm & w0 & -> & Hres).
  destruct (Load_wellFormed fm w' docs) as (n & Hwf & _).
  destruct (Load (newLoader fm w') docs) as [l1 err1]. cbn [fst] in Hwf.
  intros [= <- _] (e & obj & res & He & Hc).
  destruct (wf_calls _ _ _ Hwf _ _ _ _ He Hc) as (o & Hp & Hfm & _).
  destruct (resolve_sound _ _ _ _ _ Hres _ Hfm)
    as [Hin|(r & w1 & w2 & Hr & Hm)]; [set_solver|].
  exists o, r, w1, w2. split; [|done].
  eapply prefix_lookup_Some; [exact Hp|apply prefix_take].
Qed.

(** With an empty filter set every object is skipped. *)
Lemma Decode_empty_filter docs : forall (l l' : loader W),
  filterMap l = ∅ -> Decode docs l = (l', None) ->
  trace l' = trace l ++ (LogSkippedFiltered
                           <$> seq (length (objects l)) (length docs)) ∧
  exist l' = exist l ∧ pending l' = pending l.
Proof.
  induction docs as [|[o|] docs IH]; intros l l' Hfm; cbn [Decode];
    [|  |done].
  { intros [= <-]. cbn. by rewrite app_nil_r. }
  assert (Hv : visit (allocate o l) (length (objects l))
               = (emit (LogSkippedFiltered (length (objects l)))
                       (setWorld (ctxErr (world l)).1 (allocate o l)), None)
               ∨ ∃ l1, visit (allocate o l) (length (objects l))
                       = (l1, Some ErrContext)).
  { unfold visit. cbn [world allocate].
    destruct (ctxErr (world l)) as [w [|]]; [right; by eexists|]. left.
    unfold filter. cbn [filterMap setWorld allocate]. rewrite Hfm.
    by rewrite bool_decide_false by set_solver. }
  destruct Hv as [->|[l1 ->]]; [|done].
  intros Hd. apply IH in Hd as (Htr & Hex & Hpd); [|done].
  split; [|done]. rewrite Htr. cbn. rewrite <- app_assoc, length_app. cbn.
  by rewrite Nat.add_1_r.
Qed.

(** Without resource names, [Load] applies nothing: when it succeeds, it
    has called the write client for no object, both maps are empty, and
    the trace is one "skipped, filtered" entry per object of the stream,
    in stream order. *)
Theorem Load_without_filters (w : W) kubeconfigPath docs l :
  Snapshot.Load w kubeconfigPath docs [] = (Some l, None) ->
  trace l = LogSkippedFiltered <$> seq 0 (length docs) ∧
  exist l = ∅ ∧ pending l = ∅ ∧ (∀ p, ¬ submitted p (trace l)).
Proof.
  unfold Snapshot.Load.
  destruct (Snapshot.newLoader w kubeconfigPath []) as [w' [l0|e]] eqn:Hnew;
    [|done].
  destruct (newLoader_ok _ _ _ _ _ Hnew) as (fm & w0 & -> & Hres).
  cbn in Hres. injection Hres as _ <-.
  destruct (Load (newLoader ∅ w') docs) as [l1 [err1|]] eqn:HL; [done|].
  intros [= <-].
  destruct (Load_ok _ _ _ HL) as (l2 & Hd & _ & Hex & Hpd & _ & Htr).
  apply Decode_empty_filter in Hd as (Htr2 & Hex2 & Hpd2); [|done].
  assert (Htrace : trace l1 = LogSkippedFiltered <$> seq 0 (length docs)).
  { rewrite Htr, Hpd2, Htr2. cbn. unfold skipped.
    rewrite map_to_list_empty. cbn. by rewrite app_nil_r. }
  split; [done|]. split; [by rewrite Hex, Hex2|].
  split; [by rewrite Hpd, Hpd2|].
  intros p (e & obj & res & He & Hc). rewrite Htrace in He.
  apply list_elem_of_fmap in He as (q & -> & _). done.
Qed.

End PackageExtras.

(* ===================================================================== *)
(** * More runs on concrete inputs *)
(* ===================================================================== *)

Section ExtraScenarios.
Import Fake FakeFeed FakeSetup FakeCache.

(** C2.  [Start] on an informer that does what the one of client-go
    does, for a collection of numbers.  [Start] returns without an error
    when the goroutine has not listed anything yet, and also when every
    list it made has failed; the informer then shows no version and its
    store is empty.  A [Get] that runs right after such a [Start] returns
    the zero value and converts nothing, although the collection has
    items: the caller gets 0, and the informer is fed the items 1, 2, 4
    only afterwards.  So [Start] neither returns synced nor fails when
    the list fails. *)
Theorem Start_returns_before_the_first_list :
  @Start nat fakeCache [] = (mkInformer "" [], false) ∧
  @Start nat fakeCache [ListFailed; ListFailed] = (mkInformer "" [], false) ∧
  (let s := run sum (enter (NewDynamicGetter 0) (@Start nat fakeCache []).1 1)
                getThenFeed in
   calls s = [Returned 0] ∧ conversions (getter s) = 0 ∧
   feed s = newerFeed ∧ sum (List (feed s)) = 7) ∧
  ¬ @returnsSynced nat fakeCache ∧
  ¬ @failsWhenListFails nat fakeCache.
Proof.
  split; [reflexivity|]. split; [reflexivity|]. split; [by vm_compute|].
  split.
  - intros Hsynced. by apply (Hsynced [] eq_refl).
  - intros Hfails.
    assert (Hall : Forall (fun answer : listing nat => answer = ListFailed)
                          [ListFailed; ListFailed])
      by repeat constructor.
    by specialize (Hfails _ Hall).
Qed.

(** When the goroutine has listed before [Start] reaches [Resync], the
    informer shows the version of that list. *)
Lemma Start_after_a_lucky_list :
  @Start nat fakeCache [Items "2" [1; 2; 4]] = (newerFeed, false).
Proof. reflexivity. Qed.


(** A pod whose API version does not parse is filtered, although pods
    are asked for. *)
Lemma unparsable_pod_is_filtered :
  trace (Load (newLoader allKinds emptyCluster) [DocObject objZ]).1
  = [LogSkippedFiltered 0].
Proof. reflexivity. Qed.

(** A new getter before and after the informer has a version. *)
Lemma first_Get_witness :
  Get sum (NewDynamicGetter 0) (mkInformer "" [1; 2]) id (mkInformer "" [1; 2])
  = (NewDynamicGetter 0, 0) ∧
  Get sum (NewDynamicGetter 0) newerFeed id newerFeed = (mkGetter "2" 7 1, 7).
Proof.
  split.
  - apply (proj1 (first_Get sum 0 (mkInformer "" [1; 2])
                            (mkInformer "" [1; 2]) id)).
    reflexivity.
  - refine (proj2 (first_Get sum 0 newerFeed newerFeed id) _).
    vm_compute. discriminate.
Defined.

(** The two racing callers return the same sum. *)
Lemma concurrent_callers_agree_witness :
  let s := run sum (enter staleGetter newerFeed 2) race in
  (∀ i d, calls s !! i = Some (Returned d) -> d = data (getter s)) ∧
  (∀ i j d d', calls s !! i = Some (Returned d) ->
               calls s !! j = Some (Returned d') -> d = d').
Proof.
  apply (concurrent_callers_agree sum staleGetter newerFeed 2 race).
  - vm_compute. discriminate.
  - repeat constructor.
Defined.

(** [objD] is reported, and it waits for an owner. *)
Lemma reported_objects_witness :
  let l := (Load (newLoader allKinds emptyCluster) [DocObject objD]).1 in
  ∃ o r ps, objectsOf [DocObject objD] !! 0 = Some o ∧
            objGroupKind o ∈ allKinds ∧ r ∈ GetOwnerReferences o ∧
            pending l !! uniqueKeyFromOwnerReference r = Some ps ∧ 0 ∈ ps.
Proof.
  apply (reported_objects_wait_for_an_owner allKinds emptyCluster
           [DocObject objD] _ 0).
  - vm_compute. reflexivity.
  - vm_compute. lia.
Defined.

(** A malformed document after [objD]: no report. *)
Lemma failed_load_witness :
  let r := Load (newLoader allKinds emptyCluster)
                [DocObject objD; DocMalformed] in
  (∀ p, reports p (trace r.1) = 0) ∧
  r.1 = (Decode [DocObject objD; DocMalformed]
                (newLoader allKinds emptyCluster)).1.
Proof.
  apply (failed_load_reports_nothing allKinds emptyCluster
           [DocObject objD; DocMalformed] _ (ErrFailedToDecode ErrMalformed)).
  vm_compute. reflexivity.
Defined.

(** Before [objB] is created, the create of its owner [objA] succeeded. *)
Lemma owners_first_witness :
  ∃ q obj' u, succeeded q obj' u beforeB ∧
              uniqueKeyFromOwnerReference (ownerRefTo objA)
              = uniqueKeyFromMetadata obj'.
Proof.
  apply (owners_are_applied_first allKinds emptyCluster reverseChain
           beforeB createB afterB 1 objB' (inl (withUID "uid-1" objB'))
           objB (ownerRefTo objA)).
  - vm_compute. reflexivity.
  - reflexivity.
  - reflexivity.
  - by left.
Defined.

(** A filtered secret, [objD] and [objA]: [objD] leaves a mark. *)
Lemma every_object_witness :
  let l := (Load (newLoader allKinds emptyCluster)
                 [DocObject objS; DocObject objD; DocObject objA]).1 in
  (objGroupKind objD ∉ allKinds -> LogSkippedFiltered 1 ∈ trace l) ∧
  (objGroupKind objD ∈ allKinds ->
   attempted 1 (trace l) ∨ 1 ≤ reports 1 (trace l)).
Proof.
  apply (every_object_is_accounted_for allKinds emptyCluster
           [DocObject objS; DocObject objD; DocObject objA] _ 1 objD).
  - vm_compute. reflexivity.
  - reflexivity.
Defined.

(** The owner references of [objE] when only [objA] is known. *)
Lemma updateOwnerReferences_witness :
  let l' := updateOwnerReferences midCascade 0 in
  exist l' = exist midCascade ∧ pending l' = pending midCascade ∧
  trace l' = trace midCascade ∧
  (∀ q, q ≠ 0 -> objects l' !! q = objects midCascade !! q) ∧
  ∃ o', objects l' !! 0 = Some o' ∧
    uniqueKeyFromMetadata o' = uniqueKeyFromMetadata objE ∧
    GetNamespace o' = GetNamespace objE ∧
    GetResourceVersion o' = GetResourceVersion objE ∧
    GetPayload o' = GetPayload objE ∧
    length (GetOwnerReferences o') = length (GetOwnerReferences objE) ∧
    ∀ i r, GetOwnerReferences objE !! i = Some r ->
      ∃ r', GetOwnerReferences o' !! i = Some r' ∧
            refAPIVersion r' = refAPIVersion r ∧ refKind r' = refKind r ∧
            refName r' = refName r ∧
            refUID r' = default (refUID r)
                          (exist midCascade !! uniqueKeyFromOwnerReference r).
Proof.
  apply (updateOwnerReferences_rewrites_only_uids midCascade 0 objE).
  reflexivity.
Defined.

(** [objB] waits for [objA] alone: the cascade tries it. *)
Lemma cascade_tries_witness :
  ∃ ex : gmap uniqueKey string,
    (∀ k, is_Some (exist waitingForA !! k) -> is_Some (ex !! k)) ∧
    (LogFailedGetResource 0
       ∈ trace (cascade waitingForA (uniqueKeyFromMetadata objA)) ∨
     ∃ gvr ns res,
       CallCreate 0 gvr ns
         (clearUnstructured
            (SetOwnerReferences
               (rewriteOwner ex <$> GetOwnerReferences objB) objB))
         res ∈ trace (cascade waitingForA (uniqueKeyFromMetadata objA))).
Proof.
  apply (cascade_tries_ready_dependents waitingForA
           (uniqueKeyFromMetadata objA) [0] 0 objB).
  - vm_compute. reflexivity.
  - by left.
  - reflexivity.
  - left. reflexivity.
Defined.

(** The context is cancelled when [objB] is visited. *)
Lemma cancelled_load_witness :
  let l := newLoader allKinds shortLived in
  let docs := [DocObject objA; DocObject objB] in
  ∃ docs1 o docs2 l1,
    docs = docs1 ++ DocObject o :: docs2 ∧
    Decode docs1 l = (l1, None) ∧
    (ctxErr (world l1)).2 = true ∧
    trace (Load l docs).1 = trace l1 ∧ exist (Load l docs).1 = exist l1 ∧
    pending (Load l docs).1 = pending l1.
Proof.
  apply (cancelled_load_stops_at_a_document
           (newLoader allKinds shortLived) [DocObject objA; DocObject objB]).
  vm_compute. reflexivity.
Defined.

(** Only deployments are asked for: [objA] is written. *)
Lemma requested_kinds_witness :
  ∃ o resource w1 w2,
    objectsOf [DocObject objA; DocObject objS] !! 0 = Some o ∧
    resource ∈ ["deployment"] ∧
    mappingFor w1 resource = (w2, Some (objGroupKind o)).
Proof.
  apply (Load_writes_only_requested_kinds emptyCluster "kubeconfig"
           [DocObject objA; DocObject objS] ["deployment"]
           (Load (newLoader {[mkGroupKind "apps" "Deployment"]} emptyCluster)
                 [DocObject objA; DocObject objS]).1
           None 0).
  - vm_compute. reflexivity.
  - exists (CallCreate 0 (mkGVR "apps" "v1" "Deployment") "default"
                       (fakeClear objA)
                       (inl (withUID "uid-0" (fakeClear objA)))),
           (fakeClear objA), (inl (withUID "uid-0" (fakeClear objA))).
    split; [|reflexivity]. vm_compute. by left.
Defined.

(** No resource names: [objA] and [objB] are skipped. *)
Lemma without_filters_witness :
  let l := (Load (newLoader ∅ emptyCluster)
                 [DocObject objA; DocObject objB]).1 in
  trace l = LogSkippedFiltered <$> seq 0 2 ∧
  exist l = ∅ ∧ pending l = ∅ ∧ (∀ p, ¬ submitted p (trace l)).
Proof.
  apply (Load_without_filters emptyCluster "kubeconfig"
           [DocObject objA; DocObject objB]).
  vm_compute. reflexivity.
Defined.

(** The chain [objC], [objB], [objA]. *)
Lemma reverse_chain_witness :
  ¬ submitted 0 (trace (Load (newLoader allKinds emptyCluster)
                             [DocObject objC; DocObject objB; DocObject objA]).1).
Proof.
  apply (reverse_chain_never_submits_last allKinds emptyCluster
           objA objB objC (ownerRefTo objA) (ownerRefTo objB)).
  - reflexivity.
  - reflexivity.
  - reflexivity.
  - vm_compute. discriminate.
Defined.

End ExtraScenarios.
